(** * Cloth simulation: Verlet particles, distance constraints, cuts and anchors

    A shallow embedding of the two physics implementations of the repository:
    - [src/cloth.js]: classes [Particle], [Constraint] and [Cloth]
      (module [ClothJs] below);
    - [src/main.js]: class [ClothPhysics] with its constructor and [init],
      anchor resolution, update loop, constraint solver and the two cut
      operations (module [MainJs] below); the arrays of class
      [PivotPointManager], the index and colour buffers of class [ClothMesh],
      and class [CuttingTool] with the two radius keys (modules
      [PivotPointManager], [ClothMesh] and [CuttingTool]).

    Conventions of the embedding.
    - A JavaScript number is a real number ([R]); rounding, infinities and NaN
      are outside the model, and so is what JavaScript makes of a division by
      zero.  Comparisons ([<], [>], [<=], [===]) are the decidable
      comparisons of [R].
    - A [THREE.Vector3] is a record of three reals with value semantics; the
      in-place methods of the library become functions returning the new
      vector.
    - Objects shared by reference (a particle referenced by the particle array
      and by every constraint touching it) live in one store, the particle
      list; a constraint holds the positions of its two particles in that
      list, and an in-place update of a particle is an update of the list.
    - [Math.random()] is an explicit source of draws [nat -> R] read through a
      cursor that every call advances by one. *)

From Stdlib Require Import Reals Lra List Bool ZArith Lia.
From stdpp Require Import base list gmap.
Local Open Scope R_scope.

(** ** THREE.Vector3 (external library, the methods the sources call) *)

Module THREE.

Record Vector3 : Type := Vec3 { x : R; y : R; z : R }.

Definition zero : Vector3 := Vec3 0 0 0.

Definition add (a b : Vector3) : Vector3 :=
    Vec3 (x a + x b) (y a + y b) (z a + z b).

Definition sub (a b : Vector3) : Vector3 :=
    Vec3 (x a - x b) (y a - y b) (z a - z b).

Definition multiplyScalar (a : Vector3) (s : R) : Vector3 :=
    Vec3 (x a * s) (y a * s) (z a * s).

  (* divideScalar(s) is multiplyScalar(1 / s) *)
Definition divideScalar (a : Vector3) (s : R) : Vector3 :=
    multiplyScalar a (1 / s).

Definition addScaledVector (a v : Vector3) (s : R) : Vector3 :=
    Vec3 (x a + x v * s) (y a + y v * s) (z a + z v * s).

Definition dot (a b : Vector3) : R :=
    x a * x b + y a * y b + z a * z b.

Definition lengthSq (a : Vector3) : R :=
    x a * x a + y a * y a + z a * z a.

Definition length (a : Vector3) : R := sqrt (lengthSq a).

Definition distanceToSquared (a v : Vector3) : R :=
    let dx := x a - x v in
    let dy := y a - y v in
    let dz := z a - z v in
    dx * dx + dy * dy + dz * dz.

Definition distanceTo (a v : Vector3) : R := sqrt (distanceToSquared a v).

  (* normalize() is divideScalar(length() || 1) *)
Definition normalize (a : Vector3) : Vector3 :=
    divideScalar a (if Req_dec_T (length a) 0 then 1 else length a).

  (* MathUtils.clamp(value, min, max) = Math.max(min, Math.min(max, value)) *)
Definition clamp (value lo hi : R) : R := Rmax lo (Rmin hi value).

Definition setY (a : Vector3) (v : R) : Vector3 := Vec3 (x a) v (z a).

End THREE.

Abbreviation Vector3 := THREE.Vector3.

(** [Math.random()]: the [n]-th draw of the source. *)
Definition Random : Type := nat -> R.

(** ** src/cloth.js *)

Module ClothJs.

Module Particle.
Record t : Type := mk {
      position : Vector3;
      previous : Vector3;
      acceleration : Vector3;
      inverseMass : R;
      pinned : bool;
      pinPosition : Vector3
    }.

Definition set_position (p : t) (v : Vector3) : t :=
      mk v (previous p) (acceleration p) (inverseMass p) (pinned p) (pinPosition p).
Definition set_previous (p : t) (v : Vector3) : t :=
      mk (position p) v (acceleration p) (inverseMass p) (pinned p) (pinPosition p).
Definition set_acceleration (p : t) (v : Vector3) : t :=
      mk (position p) (previous p) v (inverseMass p) (pinned p) (pinPosition p).
Definition set_pinned (p : t) (b : bool) : t :=
      mk (position p) (previous p) (acceleration p) (inverseMass p) b (pinPosition p).
Definition set_pinPosition (p : t) (v : Vector3) : t :=
      mk (position p) (previous p) (acceleration p) (inverseMass p) (pinned p) v.

    (* constructor(x, y, z, mass = 1) *)
Definition new (x y z mass : R) : t :=
      mk (THREE.Vec3 x y z) (THREE.Vec3 x y z) THREE.zero
         (if Rlt_dec 0 mass then 1 / mass else 0) false THREE.zero.

Definition addForce (force : Vector3) (p : t) : t :=
      if Req_dec_T (inverseMass p) 0 then p
      else set_acceleration p
             (THREE.addScaledVector (acceleration p) force (inverseMass p)).

Definition integrate (deltaTime damping : R) (p : t) : t :=
      if pinned p then
        set_acceleration
          (set_previous (set_position p (pinPosition p)) (pinPosition p))
          THREE.zero
      else
        let temp := position p in
        let velocity := THREE.sub (position p) (previous p) in
        let dampingFactor := 1 - damping in
        let dampedVelocity := THREE.multiplyScalar velocity dampingFactor in
        set_acceleration
          (set_previous
             (set_position p
                (THREE.addScaledVector
                   (THREE.add (position p) dampedVelocity)
                   (acceleration p) (deltaTime * deltaTime)))
             temp)
          THREE.zero.

Definition pinToCurrent (p : t) : t :=
      set_pinPosition (set_pinned p true) (position p).

Definition unpin (p : t) : t := set_pinned p false.
End Particle.

Module Constraint.
    (* [p1] and [p2] are the places of the two particles in the particle
       array of the cloth *)
Record t : Type := mk {
      p1 : nat;
      p2 : nat;
      restDistance : R;
      stiffness : R;
      broken : bool
    }.

Definition set_broken (c : t) (b : bool) : t :=
      mk (p1 c) (p2 c) (restDistance c) (stiffness c) b.

    (* the under-relaxation constant of [satisfy] *)
Definition underRelaxation : R := 0.25.

    (* the body of [satisfy] on the two particle objects *)
Definition satisfyPair (c : t) (a b : Particle.t) : Particle.t * Particle.t :=
      if broken c then (a, b) else
      let delta := THREE.sub (Particle.position b) (Particle.position a) in
      let currentDist := THREE.length delta in
      if Req_dec_T currentDist 0 then (a, b) else
      let relaxation := underRelaxation * stiffness c in
      let diff := (currentDist - restDistance c) / currentDist * relaxation in
      let inv1 := if Particle.pinned a then 0 else Particle.inverseMass a in
      let inv2 := if Particle.pinned b then 0 else Particle.inverseMass b in
      let sumInv := inv1 + inv2 in
      if Req_dec_T sumInv 0 then (a, b) else
      let move1 := (inv1 / sumInv) * diff in
      let move2 := (inv2 / sumInv) * diff in
      (Particle.set_position a
         (THREE.addScaledVector (Particle.position a) delta move1),
       Particle.set_position b
         (THREE.addScaledVector (Particle.position b) delta (- move2))).

    (* [satisfy] on the store: read the two particles, write them back *)
Definition satisfy (c : t) (ps : list Particle.t) : list Particle.t :=
      match ps !! p1 c, ps !! p2 c with
      | Some a, Some b =>
          let '(a', b') := satisfyPair c a b in
          <[p2 c := b']> (<[p1 c := a']> ps)
      | _, _ => ps
      end.
End Constraint.

Record Cloth : Type := mkCloth {
  width : R;
  height : R;
  segmentsX : nat;
  segmentsY : nat;
  gravity : Vector3;
  damping : R;
  iterations : nat;
  tearFactor : R;
  particles : list Particle.t;
  constraints : list Constraint.t;
  physicsEnabled : bool
}.

Definition set_particles (cl : Cloth) (ps : list Particle.t) : Cloth :=
  mkCloth (width cl) (height cl) (segmentsX cl) (segmentsY cl) (gravity cl)
    (damping cl) (iterations cl) (tearFactor cl) ps (constraints cl)
    (physicsEnabled cl).

Definition set_constraints (cl : Cloth) (cs : list Constraint.t) : Cloth :=
  mkCloth (width cl) (height cl) (segmentsX cl) (segmentsY cl) (gravity cl)
    (damping cl) (iterations cl) (tearFactor cl) (particles cl) cs
    (physicsEnabled cl).

Definition set_physicsEnabled (cl : Cloth) (b : bool) : Cloth :=
  mkCloth (width cl) (height cl) (segmentsX cl) (segmentsY cl) (gravity cl)
    (damping cl) (iterations cl) (tearFactor cl) (particles cl)
    (constraints cl) b.

(* _idx(x, y) *)
Definition _idx (segX x y : nat) : nat := (y * (segX + 1) + x)%nat.

(* topRowIndices(): _idx(x, 0) for x = 0 .. segmentsX *)
Definition topRowIndices (segX : nat) : list nat :=
  map (fun x => _idx segX x 0) (seq 0 (segX + 1)).

(* Array.prototype.includes on an array of indices; the argument is any
   integer the caller passes *)
Definition includes (l : list nat) (index : Z) : bool :=
  existsb (fun i => Z.eqb (Z.of_nat i) index) l.

(* this.particles[index] for an integer index: undefined when out of range *)
Definition particleAt (ps : list Particle.t) (index : Z) : option Particle.t :=
  if Z.ltb index 0 then None else ps !! Z.to_nat index.

(** *** The constraint loop of [step] *)

(* One visit of the loop body to constraint [c]: the broken test, the
   tearing test and the call of [satisfy]. *)
Definition visit (tf : R) (c : Constraint.t) (ps : list Particle.t)
  : Constraint.t * list Particle.t :=
  if Constraint.broken c then (c, ps) else
  match ps !! Constraint.p1 c, ps !! Constraint.p2 c with
  | Some a, Some b =>
      let currentDist :=
        THREE.distanceTo (Particle.position b) (Particle.position a) in
      if Rlt_dec (Constraint.restDistance c * tf) currentDist
      then (Constraint.set_broken c true, ps)
      else (c, Constraint.satisfy c ps)
  | _, _ => (c, ps)
  end.

(* The visit of the constraint stored at place [j]. *)
Definition visitAt (tf : R) (st : list Constraint.t * list Particle.t) (j : nat)
  : list Constraint.t * list Particle.t :=
  match st.1 !! j with
  | Some c => let '(c', ps') := visit tf c st.2 in (<[j := c']> st.1, ps')
  | None => st
  end.

(* for (const c of this.constraints) ... *)
Definition forwardPass (tf : R) (st : list Constraint.t * list Particle.t)
  : list Constraint.t * list Particle.t :=
  fold_left (visitAt tf) (seq 0 (length st.1)) st.

(* for (let j = this.constraints.length - 1; j >= 0; j--) ... *)
Definition reversePass (tf : R) (st : list Constraint.t * list Particle.t)
  : list Constraint.t * list Particle.t :=
  fold_left (visitAt tf) (rev (seq 0 (length st.1))) st.

(* iteration [i] of the outer loop: reverse order when i % 2 === 1 *)
Definition relaxationPass (tf : R) (st : list Constraint.t * list Particle.t)
  (i : nat) : list Constraint.t * list Particle.t :=
  if Nat.eqb (i mod 2) 1 then reversePass tf st else forwardPass tf st.

Definition step (deltaTime : R) (cl : Cloth) : Cloth :=
  if negb (physicsEnabled cl) then cl else
  let ps1 := map (Particle.addForce (gravity cl)) (particles cl) in
  let ps2 := map (Particle.integrate deltaTime (damping cl)) ps1 in
  let st := fold_left (relaxationPass (tearFactor cl))
              (seq 0 (iterations cl)) (constraints cl, ps2) in
  set_constraints (set_particles cl st.2) st.1.

(** *** Pre-start shaping and relaxation *)

(* position.y := v; previous.y := position.y *)
Definition sagTo (p : Particle.t) (v : R) : Particle.t :=
  Particle.set_previous
    (Particle.set_position p (THREE.setY (Particle.position p) v))
    (THREE.setY (Particle.previous p) v).

(* the body of the innermost loop of applyPreSagOnTopRow at column [col] *)
Definition sagColumn (top : list nat) (leftCol spanCols : nat)
  (maxSag yBaseline : R) (ps : list Particle.t) (col : nat) : list Particle.t :=
  let t := INR (col - leftCol) / INR spanCols in
  let dip := maxSag * (4 * t * (1 - t)) in
  match top !! col with
  | Some idx =>
      match ps !! idx with
      | Some p =>
          if Particle.pinned p then ps else
          let targetY := yBaseline - dip in
          <[idx := sagTo p (THREE.y (Particle.position p) * 0.2 + targetY * 0.8)]> ps
      | None => ps
      end
  | None => ps
  end.

(* the body of the loop over consecutive anchors at place [a] of pinnedCols *)
Definition sagSpan (dx : R) (top pinnedCols : list nat) (ps : list Particle.t)
  (a : nat) : list Particle.t :=
  match pinnedCols !! a, pinnedCols !! (a + 1)%nat with
  | Some leftCol, Some rightCol =>
      let spanCols := (rightCol - leftCol)%nat in
      if (spanCols <=? 1)%nat then ps else
      let spanWidth := INR spanCols * dx in
      let maxSag := spanWidth * 0.55 in
      match top !! leftCol, top !! rightCol with
      | Some leftIdx, Some rightIdx =>
          match ps !! leftIdx, ps !! rightIdx with
          | Some pl, Some pr =>
              let yLeft := THREE.y (Particle.position pl) in
              let yRight := THREE.y (Particle.position pr) in
              let yBaseline := Rmin yLeft yRight in
              fold_left (sagColumn top leftCol spanCols maxSag yBaseline)
                (seq (leftCol + 1) (rightCol - (leftCol + 1))) ps
          | _, _ => ps
          end
      | _, _ => ps
      end
  | _, _ => ps
  end.

(* this.particles[idx].pinned; every index the sources pass is a place of
   the grid, so the particle is there *)
Definition isPinnedAt (ps : list Particle.t) (idx : nat) : bool :=
  match ps !! idx with
  | Some p => Particle.pinned p
  | None => false
  end.

(* applyPreSagOnTopRow(repeat = 1) *)
Definition applyPreSagOnTopRow (repeat : nat) (cl : Cloth) : Cloth :=
  let top := topRowIndices (segmentsX cl) in
  let pinnedCols :=
    List.filter (fun i => match top !! i with
                          | Some idx => isPinnedAt (particles cl) idx
                          | None => false
                          end)
                (seq 0 (length top)) in
  if (length pinnedCols <? 2)%nat then cl else
  let dx := width cl / INR (segmentsX cl) in
  set_particles cl
    (fold_left
       (fun ps _ =>
          fold_left (sagSpan dx top pinnedCols)
            (seq 0 (length pinnedCols - 1)) ps)
       (seq 0 repeat) (particles cl)).

(* the inner loop of relaxConstraints and startSimulation: satisfy every
   constraint that is not broken, in order, with no tearing test *)
Definition satisfyAll (cs : list Constraint.t) (ps : list Particle.t)
  : list Particle.t :=
  fold_left (fun ps c => if Constraint.broken c then ps
                         else Constraint.satisfy c ps) cs ps.

Definition relaxRound (cl : Cloth) : Cloth :=
  let cl1 := set_particles cl (satisfyAll (constraints cl) (particles cl)) in
  if negb (physicsEnabled cl1) then applyPreSagOnTopRow 3 cl1 else cl1.

Definition relaxConstraints (cl : Cloth) : Cloth :=
  let cl1 := fold_left (fun c _ => relaxRound c) (seq 0 12) cl in
  if negb (physicsEnabled cl1) then applyPreSagOnTopRow 5 cl1 else cl1.

(** *** The commands *)

Definition togglePin (index : Z) (cl : Cloth) : bool * Cloth :=
  match particleAt (particles cl) index with
  | None => (false, cl)
  | Some p =>
      if negb (includes (topRowIndices (segmentsX cl)) index) then (false, cl)
      else if physicsEnabled cl then (false, cl)
      else
        let p' := if Particle.pinned p then Particle.unpin p
                  else Particle.pinToCurrent p in
        let cl1 := set_particles cl (<[Z.to_nat index := p']> (particles cl)) in
        let cl2 := relaxConstraints cl1 in
        (isPinnedAt (particles cl2) (Z.to_nat index), cl2)
  end.

Definition startSimulation (cl : Cloth) : bool * Cloth :=
  let top := topRowIndices (segmentsX cl) in
  let hasConstraintPoints := existsb (isPinnedAt (particles cl)) top in
  if negb hasConstraintPoints then (false, cl) else
  let cl1 :=
    fold_left
      (fun c _ => set_particles c (satisfyAll (constraints c) (particles c)))
      (seq 0 12) cl in
  let cl2 := applyPreSagOnTopRow 1 cl1 in
  let cl3 := set_physicsEnabled cl2 true in
  let cl4 :=
    set_particles cl3
      (imap (fun i p => if negb (includes top (Z.of_nat i))
                        then Particle.unpin p else p)
            (particles cl3)) in
  (true, cl4).

(* breakConstraints(predicate): the predicate is a caller's function of the
   constraint, which reaches the two particles through it *)
Definition breakConstraints
  (predicate : Constraint.t -> list Particle.t -> bool) (cl : Cloth)
  : nat * Cloth :=
  let hit c := negb (Constraint.broken c) && predicate c (particles cl) in
  (length (List.filter hit (constraints cl)),
   set_constraints cl
     (map (fun c => if hit c then Constraint.set_broken c true else c)
          (constraints cl))).

(** *** The constructor *)

(* the (x, y) pairs in the order of the nested loops: y outer, x inner *)
Definition gridCoords (segX segY : nat) : list (nat * nat) :=
  flat_map (fun y => map (fun x => (x, y)) (seq 0 (segX + 1))) (seq 0 (segY + 1)).

Definition addC (i1 i2 : nat) (r stiffness : R) : Constraint.t :=
  Constraint.mk i1 i2 r stiffness false.

(* the constraints pushed at grid place (x, y) by the first pair of loops *)
Definition structuralAt (segX segY : nat) (restX restY diag : R)
  (xy : nat * nat) : list Constraint.t :=
  let '(x, y) := xy in
  (if (x <? segX)%nat
   then [addC (_idx segX x y) (_idx segX (x + 1) y) restX 1.0] else []) ++
  (if (y <? segY)%nat
   then [addC (_idx segX x y) (_idx segX x (y + 1)) restY 1.0] else []) ++
  (if (x <? segX)%nat && (y <? segY)%nat
   then [addC (_idx segX x y) (_idx segX (x + 1) (y + 1)) diag 1.0;
         addC (_idx segX (x + 1) y) (_idx segX x (y + 1)) diag 1.0]
   else []).

(* the constraint pushed at (x, y) by the second pair of loops *)
Definition bendingAt (segX segY : nat) (bendingRestY bendingStiffness : R)
  (xy : nat * nat) : list Constraint.t :=
  let '(x, y) := xy in
  if (y + 1 <? segY)%nat
  then [addC (_idx segX x y) (_idx segX x (y + 2)) bendingRestY bendingStiffness]
  else [].

Definition _buildGrid (cl : Cloth) : Cloth :=
  let segX := segmentsX cl in
  let segY := segmentsY cl in
  let dx := width cl / INR segX in
  let dy := height cl / INR segY in
  let offsetX := - width cl / 2 in
  let offsetY := 4 in
  let ps :=
    map (fun '(x, y) =>
           Particle.new (offsetX + INR x * dx) (offsetY - INR y * dy) 0 1)
        (gridCoords segX segY) in
  let top := topRowIndices segX in
  let ps' :=
    imap (fun i p => if negb (includes top (Z.of_nat i))
                     then Particle.pinToCurrent p else p) ps in
  let restX := dx in
  let restY := dy in
  let diag := sqrt (dx * dx + dy * dy) in
  let bendingRestY := restY * 2 in
  let bendingStiffness := 0.4 in
  set_constraints (set_particles cl ps')
    (flat_map (structuralAt segX segY restX restY diag) (gridCoords segX segY)
     ++ flat_map (bendingAt segX segY bendingRestY bendingStiffness)
          (gridCoords segX segY)).

(* constructor({ width, height, segmentsX, segmentsY, gravity, damping,
   iterations, tearFactor }) *)
Definition newCloth (width height : R) (segmentsX segmentsY : nat)
  (gravity damping : R) (iterations : nat) (tearFactor : R) : Cloth :=
  _buildGrid
    (mkCloth width height segmentsX segmentsY (THREE.Vec3 0 gravity 0) damping
       iterations tearFactor [] [] false).

End ClothJs.

(** ** src/main.js: class ClothPhysics *)

Module MainJs.

Module Particle.
Record t : Type := mk {
  position : Vector3;
  previousPosition : Vector3;
  originalPosition : Vector3;
  velocity : Vector3;
  force : Vector3;
  mass : R;
  pinned : bool;
  index : nat;
  x : nat;
  y : nat;
  active : bool;
  cutFactor : R
}.

Definition set_position (p : t) (v : Vector3) : t :=
  mk v (previousPosition p) (originalPosition p) (velocity p) (force p)
     (mass p) (pinned p) (index p) (x p) (y p) (active p) (cutFactor p).
Definition set_previousPosition (p : t) (v : Vector3) : t :=
  mk (position p) v (originalPosition p) (velocity p) (force p)
     (mass p) (pinned p) (index p) (x p) (y p) (active p) (cutFactor p).
Definition set_velocity (p : t) (v : Vector3) : t :=
  mk (position p) (previousPosition p) (originalPosition p) v (force p)
     (mass p) (pinned p) (index p) (x p) (y p) (active p) (cutFactor p).
Definition set_force (p : t) (v : Vector3) : t :=
  mk (position p) (previousPosition p) (originalPosition p) (velocity p) v
     (mass p) (pinned p) (index p) (x p) (y p) (active p) (cutFactor p).
Definition set_pinned (p : t) (b : bool) : t :=
  mk (position p) (previousPosition p) (originalPosition p) (velocity p)
     (force p) (mass p) b (index p) (x p) (y p) (active p) (cutFactor p).
Definition set_active (p : t) (b : bool) : t :=
  mk (position p) (previousPosition p) (originalPosition p) (velocity p)
     (force p) (mass p) (pinned p) (index p) (x p) (y p) b (cutFactor p).
Definition set_cutFactor (p : t) (f : R) : t :=
  mk (position p) (previousPosition p) (originalPosition p) (velocity p)
     (force p) (mass p) (pinned p) (index p) (x p) (y p) (active p) f.
End Particle.

Module Constraint.
(* [p1] and [p2] are the places of the two particles in the particle array *)
Record t : Type := mk {
  p1 : nat;
  p2 : nat;
  restLength : R;
  stiffness : R;
  baseStiffness : R;
  active : bool
}.

Definition set_stiffness (c : t) (s : R) : t :=
  mk (p1 c) (p2 c) (restLength c) s (baseStiffness c) (active c).
Definition set_active (c : t) (b : bool) : t :=
  mk (p1 c) (p2 c) (restLength c) (stiffness c) (baseStiffness c) b.
End Constraint.

Record Params : Type := mkParams {
  mass : R;
  damping : R;
  gravity : R;
  windForce : R;
  windFrequency : R;
  stiffness : R;
  bendingStiffness : R;
  tearThreshold : R
}.

(* this.params of the constructor *)
Definition defaultParams : Params :=
  mkParams 0.1 0.02 (-9.8) 0.15 1.5 0.85 0.15 2.8.

Record ClothPhysics : Type := mkClothPhysics {
  width : R;
  height : R;
  segmentsX : nat;
  segmentsY : nat;
  pivotPoints : list Vector3;   (* this.pivotManager.pivotPoints *)
  params : Params;
  particles : list Particle.t;
  constraints : list Constraint.t;
  cutParticles : gset nat;
  time : R
}.

Definition set_particles (s : ClothPhysics) (ps : list Particle.t) : ClothPhysics :=
  mkClothPhysics (width s) (height s) (segmentsX s) (segmentsY s)
    (pivotPoints s) (params s) ps (constraints s) (cutParticles s) (time s).
Definition set_constraints (s : ClothPhysics) (cs : list Constraint.t) : ClothPhysics :=
  mkClothPhysics (width s) (height s) (segmentsX s) (segmentsY s)
    (pivotPoints s) (params s) (particles s) cs (cutParticles s) (time s).
Definition set_cutParticles (s : ClothPhysics) (cut : gset nat) : ClothPhysics :=
  mkClothPhysics (width s) (height s) (segmentsX s) (segmentsY s)
    (pivotPoints s) (params s) (particles s) (constraints s) cut (time s).
Definition set_time (s : ClothPhysics) (t : R) : ClothPhysics :=
  mkClothPhysics (width s) (height s) (segmentsX s) (segmentsY s)
    (pivotPoints s) (params s) (particles s) (constraints s) (cutParticles s) t.

(** *** attachToPivots *)

(* the maximum snap distance of attachToPivots *)
Definition snapDistance : R := 0.5.

(* One step of the inner forEach: [acc] is (nearestParticle, minDistance),
   [None] standing for the initial (null, Infinity).  The particle is named
   by its place [i] in the array. *)
Definition nearerTop (pivotPos : Vector3) (acc : option (nat * R))
  (ip : nat * Particle.t) : option (nat * R) :=
  let '(i, particle) := ip in
  if Nat.eqb (Particle.y particle) 0 then
    let dist := THREE.distanceTo (Particle.originalPosition particle) pivotPos in
    match acc with
    | None => Some (i, dist)
    | Some (_, minDistance) =>
        if Rlt_dec dist minDistance then Some (i, dist) else acc
    end
  else acc.

Definition nearestTop (pivotPos : Vector3) (ps : list Particle.t)
  : option (nat * R) :=
  fold_left (nearerTop pivotPos) (imap pair ps) None.

Definition pinTo (pivotPos : Vector3) (p : Particle.t) : Particle.t :=
  Particle.set_previousPosition
    (Particle.set_position (Particle.set_pinned p true) pivotPos) pivotPos.

(* the body of the outer forEach for one pivot *)
Definition attachPivot (ps : list Particle.t) (pivotPos : Vector3)
  : list Particle.t :=
  match nearestTop pivotPos ps with
  | Some (i, minDistance) =>
      if Rlt_dec minDistance snapDistance then
        match ps !! i with
        | Some p => <[i := pinTo pivotPos p]> ps
        | None => ps
        end
      else ps
  | None => ps
  end.

Definition clearPins (ps : list Particle.t) : list Particle.t :=
  map (fun p => Particle.set_pinned p false) ps.

Definition attachToPivotsOn (pivots : list Vector3) (ps : list Particle.t)
  : list Particle.t :=
  fold_left attachPivot pivots (clearPins ps).

Definition attachToPivots (s : ClothPhysics) : ClothPhysics :=
  set_particles s (attachToPivotsOn (pivotPoints s) (particles s)).

(** *** update *)

(* the safe maximum of the time step *)
Definition maxDeltaTime : R := 0.02.

(* if (deltaTime > 0.02) deltaTime = 0.02; *)
Definition clampDeltaTime (deltaTime : R) : R :=
  if Rlt_dec maxDeltaTime deltaTime then maxDeltaTime else deltaTime.

(* the body of the force loop for one particle; [k] is the cursor of the
   random source *)
Definition applyForce (prm : Params) (time : R) (rnd : Random) (k : nat)
  (particle : Particle.t) : nat * Particle.t :=
  if negb (Particle.pinned particle) && Particle.active particle then
    let f0 := THREE.Vec3 0 (gravity prm * Particle.mass particle) 0 in
    let windX := sin (time * windFrequency prm) * windForce prm in
    let windZ := cos (time * windFrequency prm * 0.7) * windForce prm * 0.5 in
    let turbulence := (rnd k - 0.5) * 0.02 in
    let f1 := THREE.Vec3 (THREE.x f0 + (windX + turbulence)) (THREE.y f0)
                (THREE.z f0 + (windZ + turbulence * 0.5)) in
    let f2 := THREE.add f1
                (THREE.multiplyScalar (Particle.velocity particle) (- damping prm)) in
    (S k, Particle.set_force particle f2)
  else (k, particle).

Fixpoint applyForces (prm : Params) (time : R) (rnd : Random) (k : nat)
  (ps : list Particle.t) : nat * list Particle.t :=
  match ps with
  | [] => (k, [])
  | p :: rest =>
      let '(k1, p') := applyForce prm time rnd k p in
      let '(k2, rest') := applyForces prm time rnd k1 rest in
      (k2, p' :: rest')
  end.

(* the body of the Verlet loop for one particle *)
Definition verlet (deltaTime : R) (particle : Particle.t) : Particle.t :=
  if negb (Particle.pinned particle) && Particle.active particle then
    let temp := Particle.position particle in
    let position' :=
      THREE.add (Particle.position particle)
        (THREE.add
           (THREE.sub (Particle.position particle)
              (Particle.previousPosition particle))
           (THREE.multiplyScalar (Particle.force particle)
              (deltaTime * deltaTime / Particle.mass particle))) in
    let velocity' := THREE.divideScalar (THREE.sub position' temp) deltaTime in
    Particle.set_velocity
      (Particle.set_previousPosition
         (Particle.set_position particle position') temp)
      velocity'
  else particle.

(** *** satisfyConstraints *)

(* Math.min(p1.cutFactor, p2.cutFactor) * tearThreshold *)
Definition effectiveTearThreshold (prm : Params) (a b : Particle.t) : R :=
  let tearResistance := Rmin (Particle.cutFactor a) (Particle.cutFactor b) in
  tearThreshold prm * tearResistance.

(* the position updates at the end of the loop body *)
Definition correct (c : Constraint.t) (a b : Particle.t)
  : Particle.t * Particle.t :=
  let diff := THREE.sub (Particle.position b) (Particle.position a) in
  let currentLength := THREE.length diff in
  let correction :=
    THREE.multiplyScalar diff
      ((1 - Constraint.restLength c / currentLength) * Constraint.stiffness c) in
  if negb (Particle.pinned a) && negb (Particle.pinned b) then
    (Particle.set_position a
       (THREE.add (Particle.position a) (THREE.multiplyScalar correction 0.5)),
     Particle.set_position b
       (THREE.sub (Particle.position b) (THREE.multiplyScalar correction 0.5)))
  else if negb (Particle.pinned a) then
    (Particle.set_position a (THREE.add (Particle.position a) correction), b)
  else if negb (Particle.pinned b) then
    (a, Particle.set_position b (THREE.sub (Particle.position b) correction))
  else (a, b).

(* the loop body for one constraint *)
Definition visit (prm : Params) (c : Constraint.t) (ps : list Particle.t)
  : Constraint.t * list Particle.t :=
  match ps !! Constraint.p1 c, ps !! Constraint.p2 c with
  | Some a, Some b =>
      if negb (Constraint.active c) || negb (Particle.active a)
         || negb (Particle.active b)
      then (c, ps)
      else
        let diff := THREE.sub (Particle.position b) (Particle.position a) in
        let currentLength := THREE.length diff in
        if Rlt_dec 0 currentLength then
          if Rlt_dec (Constraint.restLength c * effectiveTearThreshold prm a b)
               currentLength
          then (Constraint.set_active c false, ps)
          else
            let '(a', b') := correct c a b in
            (c, <[Constraint.p2 c := b']> (<[Constraint.p1 c := a']> ps))
        else (c, ps)
  | _, _ => (c, ps)
  end.

Definition visitAt (prm : Params) (st : list Constraint.t * list Particle.t)
  (j : nat) : list Constraint.t * list Particle.t :=
  match st.1 !! j with
  | Some c => let '(c', ps') := visit prm c st.2 in (<[j := c']> st.1, ps')
  | None => st
  end.

Definition satisfyConstraintsOn (prm : Params)
  (st : list Constraint.t * list Particle.t)
  : list Constraint.t * list Particle.t :=
  fold_left (visitAt prm) (seq 0 (length st.1)) st.

Definition satisfyConstraints (s : ClothPhysics) : ClothPhysics :=
  let st := satisfyConstraintsOn (params s) (constraints s, particles s) in
  set_constraints (set_particles s st.2) st.1.

(* update(deltaTime), given the random source and its cursor *)
Definition update (deltaTime : R) (rnd : Random) (k : nat) (s : ClothPhysics)
  : nat * ClothPhysics :=
  let deltaTime := clampDeltaTime deltaTime in
  let s1 := set_time s (time s + deltaTime) in
  let s2 := attachToPivots s1 in
  let '(k', ps3) := applyForces (params s2) (time s2) rnd k (particles s2) in
  let ps4 := map (verlet deltaTime) ps3 in
  let s4 := set_particles s2 ps4 in
  (k', fold_left (fun st _ => satisfyConstraints st) (seq 0 4) s4).

(** *** cutOrganic *)

(* the floor of the stiffness rescaling, as a fraction of baseStiffness *)
Definition minFactor : R := 0.5.

(* Math.max(minFactor * baseStiffness, factor * baseStiffness) with
   factor = Math.min(p1.cutFactor, p2.cutFactor) *)
Definition softened (c : Constraint.t) (a b : Particle.t) : R :=
  let factor := Rmin (Particle.cutFactor a) (Particle.cutFactor b) in
  Rmax (minFactor * Constraint.baseStiffness c)
       (factor * Constraint.baseStiffness c).

(* the irregular shape: 16 points around the centre, one draw each *)
Definition cutShape (center : Vector3) (radius : R) (rnd : Random) (k : nat)
  : list (R * R) :=
  map (fun i =>
         let angle := (INR i / 16) * PI * 2 in
         let radiusVariation := radius * (0.7 + rnd (k + i)%nat * 0.6) in
         (THREE.x center + cos angle * radiusVariation,
          THREE.z center + sin angle * radiusVariation))
      (seq 0 16).

(* the scan of the shape that computes the local [inside] *)
Definition insideShape (center : Vector3) (shape : list (R * R)) (dx dz : R)
  : bool :=
  existsb (fun pt =>
             let xi := pt.1 - THREE.x center in
             let zi := pt.2 - THREE.z center in
             let dot := xi * dx + zi * dz in
             let cross := xi * dz - zi * dx in
             (if Rlt_dec (Rabs cross) 0.1 then true else false)
             && (if Rlt_dec 0 dot then true else false))
          shape.

(* the body of the particle loop; [inside] is computed and never read *)
Definition cutOrganicParticle (center : Vector3) (radius : R)
  (shape : list (R * R)) (rnd : Random) (k : nat) (cut : gset nat)
  (particle : Particle.t) : nat * Particle.t * gset nat :=
  let dx := THREE.x (Particle.position particle) - THREE.x center in
  let dz := THREE.z (Particle.position particle) - THREE.z center in
  let distance := sqrt (dx * dx + dz * dz) in
  let inside := insideShape center shape dx dz in
  if Rlt_dec distance (radius * 1.5) then
    if Rlt_dec distance radius then
      (k, Particle.set_active particle false, {[Particle.index particle]} ∪ cut)
    else
      let falloff := 1 - (distance - radius) / (radius * 0.5) in
      let weakened := Particle.set_cutFactor particle (Rmax 0.2 (1 - falloff)) in
      if Rlt_dec 0.5 (rnd k) then
        let pushDirection :=
          THREE.normalize (THREE.sub (Particle.position particle) center) in
        (S (S k),
         Particle.set_position weakened
           (THREE.add (Particle.position weakened)
              (THREE.multiplyScalar pushDirection (rnd (S k) * 0.1))),
         cut)
      else (S k, weakened, cut)
  else (k, particle, cut).

Fixpoint cutOrganicParticles (center : Vector3) (radius : R)
  (shape : list (R * R)) (rnd : Random) (k : nat) (cut : gset nat)
  (ps : list Particle.t) : nat * list Particle.t * gset nat :=
  match ps with
  | [] => (k, [], cut)
  | p :: rest =>
      let '(k1, p', cut1) := cutOrganicParticle center radius shape rnd k cut p in
      let '(k2, rest', cut2) :=
        cutOrganicParticles center radius shape rnd k1 cut1 rest in
      (k2, p' :: rest', cut2)
  end.

(* the body of the constraint loop of cutOrganic *)
Definition cutOrganicConstraint (ps : list Particle.t) (c : Constraint.t)
  : Constraint.t :=
  match ps !! Constraint.p1 c, ps !! Constraint.p2 c with
  | Some a, Some b =>
      if negb (Particle.active a) || negb (Particle.active b) then
        Constraint.set_active c false
      else if (if Rlt_dec (Particle.cutFactor a) 1 then true else false)
              || (if Rlt_dec (Particle.cutFactor b) 1 then true else false)
      then Constraint.set_stiffness c (softened c a b)
      else Constraint.set_stiffness c (Constraint.baseStiffness c)
  | _, _ => c
  end.

(* cutOrganic(center, radius), given the random source and its cursor *)
Definition cutOrganic (center : Vector3) (radius : R) (rnd : Random) (k : nat)
  (s : ClothPhysics) : nat * ClothPhysics :=
  let shape := cutShape center radius rnd k in
  let '(k', ps', cut') :=
    cutOrganicParticles center radius shape rnd (k + 16) (cutParticles s)
      (particles s) in
  (k',
   set_constraints (set_cutParticles (set_particles s ps') cut')
     (map (cutOrganicConstraint ps') (constraints s))).

(** *** cutAlongSegment *)

(* distPointToSeg(point).d *)
Definition distPointToSeg (start end_ : Vector3) (point : Vector3) : R :=
  let v := THREE.sub end_ start in
  let l2 := Rmax 1e-6 (THREE.lengthSq v) in
  let t := THREE.clamp (THREE.dot (THREE.sub point start) v / l2) 0 1 in
  let proj := THREE.addScaledVector start v t in
  THREE.distanceTo proj point.

(* the body of the particle loop *)
Definition cutSegmentParticle (start end_ : Vector3) (radius : R)
  (cut : gset nat) (p : Particle.t) : Particle.t * gset nat :=
  let shell := radius * 1.6 in
  if negb (Particle.active p) then (p, cut) else
  let d := distPointToSeg start end_ (Particle.position p) in
  if Rle_dec d radius then
    (Particle.set_active p false, {[Particle.index p]} ∪ cut)
  else if Rle_dec d shell then
    let falloff := 1 - (d - radius) / (shell - radius) in
    (Particle.set_cutFactor p (Rmin (Particle.cutFactor p) (1 - 0.6 * falloff)),
     cut)
  else (p, cut).

Fixpoint cutSegmentParticles (start end_ : Vector3) (radius : R)
  (cut : gset nat) (ps : list Particle.t) : list Particle.t * gset nat :=
  match ps with
  | [] => ([], cut)
  | p :: rest =>
      let '(p', cut1) := cutSegmentParticle start end_ radius cut p in
      let '(rest', cut2) := cutSegmentParticles start end_ radius cut1 rest in
      (p' :: rest', cut2)
  end.

(* the distance [d] of the constraint loop: the nearer of the two points of
   the edge closest to the ends of the cutting segment *)
Definition edgeDistance (start end_ : Vector3) (a b : Vector3) : R :=
  let ab := THREE.sub b a in
  let abLenSq := Rmax 1e-6 (THREE.lengthSq ab) in
  let t1 := THREE.clamp (THREE.dot (THREE.sub start a) ab / abLenSq) 0 1 in
  let t2 := THREE.clamp (THREE.dot (THREE.sub end_ a) ab / abLenSq) 0 1 in
  let c1 := THREE.addScaledVector a ab t1 in
  let c2 := THREE.addScaledVector a ab t2 in
  Rmin (distPointToSeg start end_ c1) (distPointToSeg start end_ c2).

(* the body of the constraint loop *)
Definition cutSegmentConstraint (start end_ : Vector3) (radius : R)
  (ps : list Particle.t) (c : Constraint.t) : Constraint.t :=
  if negb (Constraint.active c) then c else
  match ps !! Constraint.p1 c, ps !! Constraint.p2 c with
  | Some a, Some b =>
      let d := edgeDistance start end_ (Particle.position a) (Particle.position b) in
      if (if Rle_dec d radius then true else false)
         || negb (Particle.active a) || negb (Particle.active b)
      then Constraint.set_active c false
      else Constraint.set_stiffness c (softened c a b)
  | _, _ => c
  end.

Definition cutAlongSegment (start end_ : Vector3) (radius : R)
  (s : ClothPhysics) : ClothPhysics :=
  let segDir := THREE.sub end_ start in
  let segLen := THREE.length segDir in
  if Rlt_dec segLen 1e-6 then s else
  let '(ps', cut') :=
    cutSegmentParticles start end_ radius (cutParticles s) (particles s) in
  set_constraints (set_cutParticles (set_particles s ps') cut')
    (map (cutSegmentConstraint start end_ radius ps') (constraints s)).

(** *** init, createConstraints and addConstraint *)

Definition set_pivotPoints (s : ClothPhysics) (pivots : list Vector3)
  : ClothPhysics :=
  mkClothPhysics (width s) (height s) (segmentsX s) (segmentsY s)
    pivots (params s) (particles s) (constraints s) (cutParticles s) (time s).

(* addConstraint(index1, index2, stiffness): nothing is pushed when one of
   the two places holds no particle *)
Definition addConstraint (index1 index2 : nat) (stiffness : R)
  (s : ClothPhysics) : ClothPhysics :=
  match particles s !! index1, particles s !! index2 with
  | Some p1, Some p2 =>
      set_constraints s
        (constraints s ++
         [Constraint.mk index1 index2
            (THREE.distanceTo (Particle.position p1) (Particle.position p2))
            stiffness stiffness true])
  | _, _ => s
  end.

(* the body of the nested loops of createConstraints at (x, y) *)
Definition createConstraintsAt (s : ClothPhysics) (xy : nat * nat)
  : ClothPhysics :=
  let '(x, y) := xy in
  let segX := segmentsX s in
  let segY := segmentsY s in
  let prm := params s in
  let index := (y * (segX + 1) + x)%nat in
  let s1 :=
    if (x <? segX)%nat
    then addConstraint index (index + 1) (stiffness prm) s else s in
  let s2 :=
    if (y <? segY)%nat
    then addConstraint index (index + (segX + 1)) (stiffness prm) s1 else s1 in
  let s3 :=
    if (x <? segX)%nat && (y <? segY)%nat
    then addConstraint (index + 1) (index + (segX + 1)) (stiffness prm * 0.7)
           (addConstraint index (index + (segX + 1) + 1) (stiffness prm * 0.7) s2)
    else s2 in
  let s4 :=
    if (x <? segX - 1)%nat
    then addConstraint index (index + 2) (bendingStiffness prm) s3 else s3 in
  if (y <? segY - 1)%nat
  then addConstraint index (index + 2 * (segX + 1)) (bendingStiffness prm) s4
  else s4.

(* the loops run y outer, x inner, as those of cloth.js *)
Definition createConstraints (s : ClothPhysics) : ClothPhysics :=
  fold_left createConstraintsAt
    (ClothJs.gridCoords (segmentsX s) (segmentsY s)) (set_constraints s []).

(* the particle object that init creates at (x, y) *)
Definition newParticle (s : ClothPhysics) (xy : nat * nat) : Particle.t :=
  let '(x, y) := xy in
  let segmentWidth := width s / INR (segmentsX s) in
  let segmentHeight := height s / INR (segmentsY s) in
  let place :=
    THREE.Vec3 (INR x * segmentWidth - width s / 2)
      (- INR y * segmentHeight + height s / 2) 0 in
  Particle.mk place place place THREE.zero THREE.zero (mass (params s)) false
    (y * (segmentsX s + 1) + x) x y true 1.0.

Definition init (s : ClothPhysics) : ClothPhysics :=
  let s0 := set_cutParticles (set_constraints (set_particles s []) []) ∅ in
  let s1 :=
    set_particles s0
      (map (newParticle s0)
         (ClothJs.gridCoords (segmentsX s0) (segmentsY s0))) in
  createConstraints (attachToPivots s1).

(* constructor(width, height, segmentsX, segmentsY, pivotManager), given the
   pivot points the manager holds *)
Definition newClothPhysics (width height : R) (segmentsX segmentsY : nat)
  (pivots : list Vector3) : ClothPhysics :=
  init (mkClothPhysics width height segmentsX segmentsY pivots defaultParams
          [] [] ∅ 0).

End MainJs.

(** ** src/main.js: class PivotPointManager *)

Module PivotPointManager.

(* a pivot mesh: its position and the two attributes highlightPivot sets *)
Record Mesh : Type := mkMesh {
  position : Vector3;
  emissiveIntensity : R;
  scale : R
}.

Record t : Type := mk {
  pivotPoints : list Vector3;
  pivotMeshes : list Mesh
}.

(* addPivot(position): returns the place of the new pivot *)
Definition addPivot (position : Vector3) (m : t) : nat * t :=
  let pivotMesh := mkMesh position 0.3 1 in
  let m' := mk (pivotPoints m ++ [position]) (pivotMeshes m ++ [pivotMesh]) in
  ((length (pivotPoints m') - 1)%nat, m').

(* constructor(): the three default pivot points *)
Definition new : t :=
  let m0 := mk [] [] in
  let m1 := (addPivot (THREE.Vec3 (-2) 2 0) m0).2 in
  let m2 := (addPivot (THREE.Vec3 2 2 0) m1).2 in
  (addPivot (THREE.Vec3 0 2 0) m2).2.

(* removePivot(index), for any integer index; splice(index, 1) *)
Definition removePivot (index : Z) (m : t) : t :=
  if (0 <=? index)%Z && (index <? Z.of_nat (length (pivotPoints m)))%Z then
    mk (delete (Z.to_nat index) (pivotPoints m))
       (delete (Z.to_nat index) (pivotMeshes m))
  else m.

(* updatePivot(index, position) *)
Definition updatePivot (index : Z) (position : Vector3) (m : t) : t :=
  if (0 <=? index)%Z && (index <? Z.of_nat (length (pivotPoints m)))%Z then
    mk (<[Z.to_nat index := position]> (pivotPoints m))
       (alter (fun mesh => mkMesh position (emissiveIntensity mesh) (scale mesh))
          (Z.to_nat index) (pivotMeshes m))
  else m.

(* highlightPivot(index) *)
Definition highlightPivot (index : Z) (m : t) : t :=
  mk (pivotPoints m)
     (imap (fun i mesh =>
              if (Z.of_nat i =? index)%Z
              then mkMesh (position mesh) 0.6 1.2
              else mkMesh (position mesh) 0.3 1.0)
        (pivotMeshes m)).

(* the 'd' key: both arrays are replaced by empty ones *)
Definition clear (m : t) : t := mk [] [].

End PivotPointManager.

(** ** src/main.js: class ClothMesh, the index buffer and the colours *)

Module ClothMesh.
Import MainJs.

(* the (x, y) pairs of the face loops: y < segmentsY outer, x < segmentsX
   inner *)
Definition cells (segX segY : nat) : list (nat * nat) :=
  flat_map (fun y => map (fun x => (x, y)) (seq 0 segX)) (seq 0 segY).

(* the indices pushed for the cell whose upper left corner is (x, y) *)
Definition cellFaces (s : ClothPhysics) (xy : nat * nat) : list nat :=
  let '(x, y) := xy in
  let a := (y * (segmentsX s + 1) + x)%nat in
  let b := (a + 1)%nat in
  let c := (a + (segmentsX s + 1))%nat in
  let d := (c + 1)%nat in
  match particles s !! a, particles s !! b, particles s !! c, particles s !! d with
  | Some pa, Some pb, Some pc, Some pd =>
      let avgCutFactor :=
        (Particle.cutFactor pa + Particle.cutFactor pb
         + Particle.cutFactor pc + Particle.cutFactor pd) / 4 in
      if Particle.active pa && Particle.active pb && Particle.active pc
         && Particle.active pd
         && (if Rlt_dec 0.3 avgCutFactor then true else false)
      then [a; b; c; b; d; c]
      else []
  | _, _, _, _ => []
  end.

(* the array passed to setIndex by updateGeometry *)
Definition indices (s : ClothPhysics) : list nat :=
  flat_map (cellFaces s) (cells (segmentsX s) (segmentsY s)).

(* the three colour components pushed for a particle *)
Definition vertexColor (particle : Particle.t) : R * R * R :=
  let damage := 1 - Particle.cutFactor particle in
  (1 - damage * 0.3, 1 - damage * 0.2, 1).

(* the colour array of updateGeometry and of update *)
Definition colors (s : ClothPhysics) : list (R * R * R) :=
  map vertexColor (particles s).

End ClothMesh.

(** ** src/main.js: class CuttingTool and the radius keys *)

Module CuttingTool.
Import MainJs.

Record t : Type := mk {
  active : bool;
  cutRadius : R
}.

(* constructor() *)
Definition new : t := mk false 0.3.

Definition setActive (b : bool) (tool : t) : t := mk b (cutRadius tool).

Definition updateRadius (radius : R) (tool : t) : t := mk (active tool) radius.

(* performCut(position) *)
Definition performCut (position : Vector3) (rnd : Random) (k : nat) (tool : t)
  (s : ClothPhysics) : nat * ClothPhysics :=
  cutOrganic position (cutRadius tool * 0.6) rnd k s.

(* performCutSegment(start, end) *)
Definition performCutSegment (start end_ : Vector3) (tool : t)
  (s : ClothPhysics) : ClothPhysics :=
  cutAlongSegment start end_ (cutRadius tool * 0.6) s.

(* the '+' / '=' key: updateRadius(Math.min(cutRadius + 0.1, 1.0)) *)
Definition keyPlus (tool : t) : t :=
  updateRadius (Rmin (cutRadius tool + 0.1) 1.0) tool.

(* the '-' / '_' key: updateRadius(Math.max(cutRadius - 0.1, 0.1)) *)
Definition keyMinus (tool : t) : t :=
  updateRadius (Rmax (cutRadius tool - 0.1) 0.1) tool.

End CuttingTool.

(** * Properties *)

(** ** Vectors and comparisons *)

Ltac vec_eq :=
  unfold THREE.addScaledVector, THREE.add, THREE.sub, THREE.multiplyScalar,
    THREE.divideScalar, THREE.zero, THREE.setY; simpl; f_equal; try lra.

Lemma addScaledVector_0 (v d : Vector3) : THREE.addScaledVector v d 0 = v.
Proof. destruct v; vec_eq. Qed.

Lemma length_nonneg (v : Vector3) : 0 <= THREE.length v.
Proof. apply sqrt_pos. Qed.

Lemma distanceTo_length (a b : Vector3) :
  THREE.distanceTo a b = THREE.length (THREE.sub a b).
Proof. reflexivity. Qed.

(* the length of a vector along the x axis *)
Lemma length_x (a : R) : 0 <= a -> THREE.length (THREE.Vec3 a 0 0) = a.
Proof.
  intros Ha. unfold THREE.length, THREE.lengthSq. simpl.
  replace (a * a + 0 * 0 + 0 * 0) with (a * a) by lra.
  now apply sqrt_square.
Qed.

Lemma length_sub_self (v : Vector3) : THREE.length (THREE.sub v v) = 0.
Proof.
  unfold THREE.length, THREE.lengthSq, THREE.sub. simpl.
  replace (_ + _ + _) with 0 by ring. apply sqrt_0.
Qed.

Lemma length_along_x (v : Vector3) :
  THREE.y v = 0 -> THREE.z v = 0 -> 0 <= THREE.x v -> THREE.length v = THREE.x v.
Proof.
  destruct v as [a b c]. simpl. intros -> -> Ha. now apply length_x.
Qed.


(* the distance of two points that differ in x only *)
Lemma distanceTo_along_x (a b : Vector3) :
  THREE.y a = THREE.y b -> THREE.z a = THREE.z b ->
  THREE.distanceTo a b = Rabs (THREE.x a - THREE.x b).
Proof.
  intros Hy Hz. unfold THREE.distanceTo, THREE.distanceToSquared. cbv zeta.
  rewrite Hy, Hz, <- sqrt_Rsqr_abs. f_equal. unfold Rsqr. lra.
Qed.

(** ** Lists used as stores *)

Lemma fmap_insert_same {A B : Type} (f : A -> B) (l : list A) (i : nat) (a a' : A) :
  l !! i = Some a -> f a' = f a -> f <$> <[i := a']> l = f <$> l.
Proof.
  intros Hl Hf. rewrite list_fmap_insert, Hf.
  apply list_insert_id. now rewrite list_lookup_fmap, Hl.
Qed.

Lemma lookup_map {A B : Type} (f : A -> B) (l : list A) (i : nat) :
  map f l !! i = f <$> (l !! i).
Proof. apply (list_lookup_fmap f l i). Qed.

(* a loop that keeps an observation of the state at every round keeps it *)
Lemma fold_left_preserves {S X O : Type} (obs : S -> O) (f : S -> X -> S)
  (xs : list X) (s : S) :
  (forall s x, obs (f s x) = obs s) -> obs (fold_left f xs s) = obs s.
Proof.
  intros Hf. revert s. induction xs as [|x xs IH]; intros s; simpl; [reflexivity|].
  now rewrite IH, Hf.
Qed.

(** ** src/cloth.js *)

Module ClothJsFacts.
Import ClothJs.

(** *** Particle.integrate *)

(** C3. A pinned particle comes out of [integrate] with [position] and
    [previous] equal to its [pinPosition] and with zero acceleration, whatever
    the time step, the damping, the positions it held (its implicit velocity)
    and the acceleration it had accumulated; this also holds when a force was
    added right before the call.  The pin itself is untouched. *)
Theorem integrate_pinned (deltaTime damping : R) (p : Particle.t) :
  Particle.pinned p = true ->
  let q := Particle.integrate deltaTime damping p in
  Particle.position q = Particle.pinPosition p /\
  Particle.previous q = Particle.pinPosition p /\
  Particle.acceleration q = THREE.zero /\
  Particle.pinned q = true /\
  Particle.pinPosition q = Particle.pinPosition p /\
  forall force : Vector3,
    Particle.integrate deltaTime damping (Particle.addForce force p) = q.
Proof.
  intros Hpin q. subst q. unfold Particle.integrate. rewrite Hpin. simpl.
  repeat split; trivial.
  intros force. unfold Particle.addForce.
  destruct (Req_dec_T _ _); simpl; rewrite Hpin; reflexivity.
Qed.

(* a pinned particle away from its pin, moving, with a pending acceleration *)
Definition pinnedSample : Particle.t :=
  Particle.mk (THREE.Vec3 1 2 3) (THREE.Vec3 0 5 0) (THREE.Vec3 0 (-9.81) 0)
    1 true (THREE.Vec3 7 4 0).

Lemma integrate_pinned_witness :
  Particle.position (Particle.integrate 0.016 0.02 pinnedSample) = THREE.Vec3 7 4 0 /\
  Particle.previous (Particle.integrate 0.016 0.02 pinnedSample) = THREE.Vec3 7 4 0 /\
  Particle.acceleration (Particle.integrate 0.016 0.02 pinnedSample) = THREE.zero.
Proof.
  destruct (integrate_pinned 0.016 0.02 pinnedSample eq_refl) as (H1 & H2 & H3 & _).
  exact (conj H1 (conj H2 H3)).
Defined.

(** *** Constraint.satisfy *)

(* the quantities [satisfy] computes from the constraint and its particles *)
Definition effInv (p : Particle.t) : R :=
  if Particle.pinned p then 0 else Particle.inverseMass p.

Lemma satisfyPair_broken (c : Constraint.t) (a b : Particle.t) :
  Constraint.broken c = true -> Constraint.satisfyPair c a b = (a, b).
Proof. intros H. unfold Constraint.satisfyPair. now rewrite H. Qed.

(* [satisfyPair] writes positions only *)
Lemma satisfyPair_frame (c : Constraint.t) (a b : Particle.t) :
  let r := Constraint.satisfyPair c a b in
  (exists v, r.1 = Particle.set_position a v) /\
  (exists v, r.2 = Particle.set_position b v).
Proof.
  unfold Constraint.satisfyPair.
  destruct (Constraint.broken c); [|destruct (Req_dec_T _ _); [|destruct (Req_dec_T _ _)]];
    simpl; split;
    first [ eexists; reflexivity
          | exists (Particle.position a); destruct a; reflexivity
          | exists (Particle.position b); destruct b; reflexivity ].
Qed.

(* The contract of one [satisfy] call, on the two particle objects of the
   constraint; [delta], [currentDist], [sumInv] and [diff] are the locals of
   the method. *)
Lemma satisfyPair_contract (c : Constraint.t) (a b : Particle.t) :
  let delta := THREE.sub (Particle.position b) (Particle.position a) in
  let currentDist := THREE.length delta in
  let inv1 := effInv a in
  let inv2 := effInv b in
  let sumInv := inv1 + inv2 in
  let diff := (currentDist - Constraint.restDistance c) / currentDist
              * (Constraint.underRelaxation * Constraint.stiffness c) in
  let r := Constraint.satisfyPair c a b in
  (Constraint.broken c = true -> r = (a, b)) /\
  (currentDist = 0 \/ sumInv = 0 -> r = (a, b)) /\
  (Particle.pinned a = true -> Particle.pinned b = true -> sumInv = 0) /\
  (Constraint.broken c = false -> currentDist <> 0 -> sumInv <> 0 ->
     r = (Particle.set_position a
            (THREE.addScaledVector (Particle.position a) delta
               (inv1 / sumInv * diff)),
          Particle.set_position b
            (THREE.addScaledVector (Particle.position b) delta
               (- (inv2 / sumInv * diff)))) /\
     inv1 / sumInv + inv2 / sumInv = 1 /\
     THREE.sub (Particle.position r.2) (Particle.position r.1)
       = THREE.multiplyScalar delta (1 - diff) /\
     (Particle.pinned a = true -> Particle.position r.1 = Particle.position a) /\
     (Particle.pinned b = true -> Particle.position r.2 = Particle.position b)).
Proof.
  intros delta currentDist inv1 inv2 sumInv diff r.
  split; [|split; [|split]].
  - intros Hb. now apply satisfyPair_broken.
  - intros Hz. subst r. unfold Constraint.satisfyPair.
    destruct (Constraint.broken c); [reflexivity|].
    fold delta. fold currentDist.
    destruct (Req_dec_T currentDist 0) as [|Hd]; [reflexivity|].
    fold (effInv a) (effInv b). fold inv1 inv2. fold sumInv.
    destruct (Req_dec_T sumInv 0) as [|Hs]; [reflexivity|].
    destruct Hz; contradiction.
  - intros Ha Hb. subst sumInv inv1 inv2. unfold effInv. rewrite Ha, Hb. lra.
  - intros Hb Hd Hs.
    assert (Hr : r = (Particle.set_position a
            (THREE.addScaledVector (Particle.position a) delta
               (inv1 / sumInv * diff)),
          Particle.set_position b
            (THREE.addScaledVector (Particle.position b) delta
               (- (inv2 / sumInv * diff))))).
    { subst r. unfold Constraint.satisfyPair. rewrite Hb.
      fold delta. fold currentDist.
      destruct (Req_dec_T currentDist 0) as [|_]; [contradiction|].
      fold (effInv a) (effInv b). fold inv1 inv2. fold sumInv.
      destruct (Req_dec_T sumInv 0) as [|_]; [contradiction|].
      reflexivity. }
    assert (Hshare : inv1 / sumInv + inv2 / sumInv = 1).
    { subst sumInv. field. exact Hs. }
    split; [exact Hr|]. split; [exact Hshare|].
    rewrite Hr. simpl. split; [|split].
    + assert (Hm : inv2 / sumInv = 1 - inv1 / sumInv) by lra.
      rewrite Hm. subst delta.
      destruct (Particle.position a), (Particle.position b). vec_eq.
    + intros Ha. assert (H0 : inv1 = 0) by (subst inv1; unfold effInv; now rewrite Ha).
      rewrite H0. replace (0 / sumInv * diff) with 0 by (unfold Rdiv; lra).
      apply addScaledVector_0.
    + intros Hp. assert (H0 : inv2 = 0) by (subst inv2; unfold effInv; now rewrite Hp).
      rewrite H0. replace (- (0 / sumInv * diff)) with 0 by (unfold Rdiv; lra).
      apply addScaledVector_0.
Qed.

(* two unpinned unit masses two units apart, the constraint between them at
   rest length one, whole and broken *)
Definition sampleA : Particle.t :=
  Particle.mk (THREE.Vec3 0 0 0) (THREE.Vec3 0 0 0) THREE.zero 1 false THREE.zero.
Definition sampleB : Particle.t :=
  Particle.mk (THREE.Vec3 2 0 0) (THREE.Vec3 2 0 0) THREE.zero 1 false THREE.zero.
Definition wholeC : Constraint.t := Constraint.mk 0 1 1 1 false.
Definition brokenC : Constraint.t := Constraint.mk 0 1 1 1 true.

Lemma sample_length :
  THREE.length (THREE.sub (Particle.position sampleB) (Particle.position sampleA)) = 2.
Proof. rewrite length_along_x; simpl; lra. Qed.

(** C1, as stated, fails on a broken constraint: its endpoints are two units
    apart and unpinned (combined inverse mass 2), the stated correction would
    move the first endpoint to x = 0.125, and [satisfy] leaves both endpoints
    where they are. *)
Lemma satisfy_broken_counterexample :
  THREE.length (THREE.sub (Particle.position sampleB) (Particle.position sampleA)) = 2 /\
  effInv sampleA + effInv sampleB = 2 /\
  THREE.addScaledVector (Particle.position sampleA)
    (THREE.sub (Particle.position sampleB) (Particle.position sampleA))
    (effInv sampleA / (effInv sampleA + effInv sampleB)
     * ((2 - Constraint.restDistance brokenC) / 2
        * (Constraint.underRelaxation * Constraint.stiffness brokenC)))
    = THREE.Vec3 0.125 0 0 /\
  Constraint.satisfyPair brokenC sampleA sampleB = (sampleA, sampleB) /\
  Particle.position (Constraint.satisfyPair brokenC sampleA sampleB).1
    = THREE.Vec3 0 0 0 /\
  THREE.Vec3 0 0 0 <> THREE.Vec3 0.125 0 0.
Proof.
  split; [exact sample_length|].
  split; [unfold effInv; simpl; lra|].
  split; [unfold effInv, Constraint.underRelaxation; simpl; vec_eq|].
  split; [reflexivity|]. split; [reflexivity|].
  intros H. injection H as H. lra.
Qed.

(** *** [satisfy] on the store *)

Lemma satisfy_length (c : Constraint.t) (ps : list Particle.t) :
  length (Constraint.satisfy c ps) = length ps.
Proof.
  unfold Constraint.satisfy.
  destruct (ps !! Constraint.p1 c); [|reflexivity].
  destruct (ps !! Constraint.p2 c); [|reflexivity].
  destruct (Constraint.satisfyPair c t t0). now rewrite !length_insert.
Qed.

Lemma satisfy_broken (c : Constraint.t) (ps : list Particle.t) :
  Constraint.broken c = true -> Constraint.satisfy c ps = ps.
Proof.
  intros Hb. unfold Constraint.satisfy.
  destruct (ps !! Constraint.p1 c) as [a|] eqn:Ha; [|reflexivity].
  destruct (ps !! Constraint.p2 c) as [b|] eqn:Hp; [|reflexivity].
  rewrite satisfyPair_broken by exact Hb.
  rewrite (list_insert_id ps _ a Ha). now apply list_insert_id.
Qed.

(* [satisfy] touches no particle other than the two endpoints *)
Lemma satisfy_other (c : Constraint.t) (ps : list Particle.t) (i : nat) :
  i <> Constraint.p1 c -> i <> Constraint.p2 c ->
  Constraint.satisfy c ps !! i = ps !! i.
Proof.
  intros H1 H2. unfold Constraint.satisfy.
  destruct (ps !! Constraint.p1 c); [|reflexivity].
  destruct (ps !! Constraint.p2 c); [|reflexivity].
  destruct (Constraint.satisfyPair c t t0).
  rewrite !list_lookup_insert_ne by congruence. reflexivity.
Qed.

(* [satisfy] writes positions only: every other field of every particle is
   kept; stated for any observation that ignores the position *)
Lemma satisfy_fields {B : Type} (f : Particle.t -> B) (c : Constraint.t)
  (ps : list Particle.t) :
  (forall p v, f (Particle.set_position p v) = f p) ->
  f <$> Constraint.satisfy c ps = f <$> ps.
Proof.
  intros Hf. unfold Constraint.satisfy.
  destruct (ps !! Constraint.p1 c) as [a|] eqn:Ha; [|reflexivity].
  destruct (ps !! Constraint.p2 c) as [b|] eqn:Hp; [|reflexivity].
  destruct (satisfyPair_frame c a b) as ((v1 & E1) & (v2 & E2)).
  destruct (Constraint.satisfyPair c a b) as [a' b']. simpl in E1, E2. subst a' b'.
  destruct (decide (Constraint.p1 c = Constraint.p2 c)) as [E|N].
  - rewrite E in *. rewrite list_insert_insert_eq.
    apply (fmap_insert_same f ps _ b); [exact Hp|apply Hf].
  - rewrite list_fmap_insert, Hf, <- (list_fmap_insert f).
    rewrite (fmap_insert_same f (<[Constraint.p1 c := _]> ps) _ b).
    + apply (fmap_insert_same f ps _ a); [exact Ha|apply Hf].
    + rewrite list_lookup_insert_ne by exact N. exact Hp.
    + reflexivity.
Qed.

(** *** The tearing test of [step] *)

(* the constraint stored at place [j] is broken *)
Definition brokenAt (cs : list Constraint.t) (j : nat) : Prop :=
  exists c, cs !! j = Some c /\ Constraint.broken c = true.

Lemma visit_broken (tf : R) (c : Constraint.t) (ps : list Particle.t) :
  Constraint.broken c = true -> visit tf c ps = (c, ps).
Proof. intros H. unfold visit. now rewrite H. Qed.

Lemma visit_tears (tf : R) (c : Constraint.t) (ps : list Particle.t)
  (a b : Particle.t) :
  Constraint.broken c = false ->
  ps !! Constraint.p1 c = Some a -> ps !! Constraint.p2 c = Some b ->
  Constraint.restDistance c * tf
    < THREE.distanceTo (Particle.position b) (Particle.position a) ->
  visit tf c ps = (Constraint.set_broken c true, ps).
Proof.
  intros Hb Ha Hp Hd. unfold visit. rewrite Hb, Ha, Hp.
  destruct (Rlt_dec _ _); [reflexivity|contradiction].
Qed.

Lemma visit_satisfies (tf : R) (c : Constraint.t) (ps : list Particle.t)
  (a b : Particle.t) :
  Constraint.broken c = false ->
  ps !! Constraint.p1 c = Some a -> ps !! Constraint.p2 c = Some b ->
  THREE.distanceTo (Particle.position b) (Particle.position a)
    <= Constraint.restDistance c * tf ->
  visit tf c ps = (c, Constraint.satisfy c ps).
Proof.
  intros Hb Ha Hp Hd. unfold visit. rewrite Hb, Ha, Hp.
  destruct (Rlt_dec _ _); [lra|reflexivity].
Qed.

(* a visit breaks a whole constraint exactly when it observes an endpoint
   distance above restDistance * tearFactor, and never mends a broken one *)
Lemma visit_broken_iff (tf : R) (c : Constraint.t) (ps : list Particle.t) :
  Constraint.broken (visit tf c ps).1 = true <->
  Constraint.broken c = true \/
  exists a b, ps !! Constraint.p1 c = Some a /\ ps !! Constraint.p2 c = Some b /\
    Constraint.restDistance c * tf
      < THREE.distanceTo (Particle.position b) (Particle.position a).
Proof.
  unfold visit. destruct (Constraint.broken c) eqn:Hb.
  { simpl. rewrite Hb. tauto. }
  destruct (ps !! Constraint.p1 c) as [a|] eqn:Ha;
    [destruct (ps !! Constraint.p2 c) as [b|] eqn:Hp|].
  - destruct (Rlt_dec _ _) as [Hd|Hd]; simpl.
    + split; [|reflexivity]. intros _. right. now exists a, b.
    + rewrite Hb. split; [discriminate|].
      intros [|(a' & b' & Ea & Eb & Hlt)]; [discriminate|]. congruence.
  - simpl. rewrite Hb. split; [discriminate|].
    intros [|(a' & b' & _ & Eb & _)]; discriminate.
  - simpl. rewrite Hb. split; [discriminate|].
    intros [|(a' & b' & Ea & _)]; discriminate.
Qed.

(* a visit changes nothing of the constraint but the flag, and a visit that
   breaks the constraint moves no particle *)
Lemma visit_result (tf : R) (c : Constraint.t) (ps : list Particle.t) :
  visit tf c ps = (Constraint.set_broken c true, ps) \/
  (visit tf c ps).1 = c.
Proof.
  unfold visit. destruct (Constraint.broken c); [now right|].
  destruct (ps !! Constraint.p1 c); [|now right].
  destruct (ps !! Constraint.p2 c); [|now right].
  destruct (Rlt_dec _ _); [now left|now right].
Qed.

Lemma visit_length (tf : R) (c : Constraint.t) (ps : list Particle.t) :
  length (visit tf c ps).2 = length ps.
Proof.
  unfold visit. destruct (Constraint.broken c); [reflexivity|].
  destruct (ps !! Constraint.p1 c); [|reflexivity].
  destruct (ps !! Constraint.p2 c); [|reflexivity].
  destruct (Rlt_dec _ _); [reflexivity|apply satisfy_length].
Qed.

(* the visit of a broken constraint leaves the whole state as it is *)
Lemma visitAt_broken (tf : R) (cs : list Constraint.t) (ps : list Particle.t)
  (j : nat) :
  brokenAt cs j -> visitAt tf (cs, ps) j = (cs, ps).
Proof.
  intros (c & Hc & Hb). unfold visitAt. simpl. rewrite Hc.
  rewrite visit_broken by exact Hb. now rewrite list_insert_id.
Qed.

Lemma visitAt_keeps_broken (tf : R) (st : list Constraint.t * list Particle.t)
  (i j : nat) :
  brokenAt st.1 j -> brokenAt (visitAt tf st i).1 j.
Proof.
  intros Hj. destruct st as [cs ps]. simpl in Hj.
  destruct (decide (i = j)) as [->|N].
  - now rewrite visitAt_broken.
  - unfold visitAt. simpl. destruct (cs !! i) as [c|]; [|exact Hj].
    destruct (visit tf c ps) as [c' ps']. simpl.
    destruct Hj as (cj & Hcj & Hb). exists cj.
    now rewrite list_lookup_insert_ne.
Qed.

Lemma visits_keep_broken (tf : R) (js : list nat)
  (st : list Constraint.t * list Particle.t) (j : nat) :
  brokenAt st.1 j -> brokenAt (fold_left (visitAt tf) js st).1 j.
Proof.
  revert st. induction js as [|i js IH]; intros st H; simpl; [exact H|].
  apply IH. now apply visitAt_keeps_broken.
Qed.

Lemma relaxationPass_keeps_broken (tf : R)
  (st : list Constraint.t * list Particle.t) (i j : nat) :
  brokenAt st.1 j -> brokenAt (relaxationPass tf st i).1 j.
Proof.
  intros H. unfold relaxationPass, reversePass, forwardPass.
  destruct (Nat.eqb _ _); now apply visits_keep_broken.
Qed.

Lemma step_keeps_broken (deltaTime : R) (cl : Cloth) (j : nat) :
  brokenAt (constraints cl) j -> brokenAt (constraints (step deltaTime cl)) j.
Proof.
  intros H. unfold step. destruct (physicsEnabled cl); simpl; [|exact H].
  generalize (map (Particle.integrate deltaTime (damping cl))
                (map (Particle.addForce (gravity cl)) (particles cl))).
  intros ps. generalize (seq 0 (iterations cl)). intros is_.
  assert (G : forall st, brokenAt st.1 j ->
            brokenAt (fold_left (relaxationPass (tearFactor cl)) is_ st).1 j).
  { induction is_ as [|i is_ IH]; intros st Hst; simpl; [exact Hst|].
    apply IH. now apply relaxationPass_keeps_broken. }
  now apply (G (constraints cl, ps)).
Qed.

(** *** The pre-start relaxation keeps pins, constraints and sizes *)

Arguments relaxConstraints : simpl never.
Arguments relaxRound : simpl never.
Arguments applyPreSagOnTopRow : simpl never.
Arguments satisfyAll : simpl never.

Lemma isPinnedAt_fmap (ps qs : list Particle.t) :
  Particle.pinned <$> ps = Particle.pinned <$> qs ->
  forall i, isPinnedAt ps i = isPinnedAt qs i.
Proof.
  intros H i. unfold isPinnedAt.
  assert (E : (Particle.pinned <$> ps) !! i = (Particle.pinned <$> qs) !! i)
    by now rewrite H.
  rewrite !list_lookup_fmap in E.
  destruct (ps !! i), (qs !! i); simpl in E; congruence.
Qed.

Lemma satisfyAll_pinned (cs : list Constraint.t) (ps : list Particle.t) :
  Particle.pinned <$> satisfyAll cs ps = Particle.pinned <$> ps.
Proof.
  unfold satisfyAll. revert ps.
  induction cs as [|c cs IH]; intros ps; simpl; [reflexivity|].
  rewrite IH. destruct (Constraint.broken c); [reflexivity|].
  now apply satisfy_fields.
Qed.

Lemma sagColumn_pinned (top : list nat) (leftCol spanCols : nat)
  (maxSag yBaseline : R) (ps : list Particle.t) (col : nat) :
  Particle.pinned <$> sagColumn top leftCol spanCols maxSag yBaseline ps col
    = Particle.pinned <$> ps.
Proof.
  unfold sagColumn. destruct (top !! col) as [idx|]; [|reflexivity].
  destruct (ps !! idx) as [p|] eqn:Hp; [|reflexivity].
  destruct (Particle.pinned p); [reflexivity|].
  now apply (fmap_insert_same Particle.pinned ps idx p).
Qed.

Lemma sagSpan_pinned (dx : R) (top pinnedCols : list nat)
  (ps : list Particle.t) (a : nat) :
  Particle.pinned <$> sagSpan dx top pinnedCols ps a = Particle.pinned <$> ps.
Proof.
  unfold sagSpan.
  destruct (pinnedCols !! a) as [leftCol|]; [|reflexivity].
  destruct (pinnedCols !! (a + 1)%nat) as [rightCol|]; [|reflexivity].
  destruct (_ <=? 1)%nat; [reflexivity|].
  destruct (top !! leftCol); [|reflexivity].
  destruct (top !! rightCol); [|reflexivity].
  destruct (ps !! n); [|reflexivity].
  destruct (ps !! n0); [|reflexivity].
  apply (fold_left_preserves (fmap Particle.pinned)).
  intros. apply sagColumn_pinned.
Qed.

Lemma applyPreSagOnTopRow_pinned (repeat : nat) (cl : Cloth) :
  Particle.pinned <$> particles (applyPreSagOnTopRow repeat cl)
    = Particle.pinned <$> particles cl.
Proof.
  unfold applyPreSagOnTopRow. destruct (_ <? 2)%nat; [reflexivity|]. simpl.
  apply (fold_left_preserves (fmap Particle.pinned)). intros ps _.
  apply (fold_left_preserves (fmap Particle.pinned)). intros.
  apply sagSpan_pinned.
Qed.

(* what the shaping pass leaves alone: everything but the particles *)
Lemma applyPreSagOnTopRow_frame (repeat : nat) (cl : Cloth) :
  constraints (applyPreSagOnTopRow repeat cl) = constraints cl /\
  physicsEnabled (applyPreSagOnTopRow repeat cl) = physicsEnabled cl /\
  segmentsX (applyPreSagOnTopRow repeat cl) = segmentsX cl.
Proof.
  unfold applyPreSagOnTopRow. destruct (_ <? 2)%nat; repeat split.
Qed.

Lemma relaxRound_frame (cl : Cloth) :
  constraints (relaxRound cl) = constraints cl /\
  physicsEnabled (relaxRound cl) = physicsEnabled cl /\
  segmentsX (relaxRound cl) = segmentsX cl /\
  Particle.pinned <$> particles (relaxRound cl) = Particle.pinned <$> particles cl.
Proof.
  unfold relaxRound. simpl.
  destruct (negb (physicsEnabled cl)).
  - destruct (applyPreSagOnTopRow_frame 3
               (set_particles cl (satisfyAll (constraints cl) (particles cl))))
      as (H1 & H2 & H3).
    rewrite H1, H2, H3, applyPreSagOnTopRow_pinned. simpl.
    repeat split. apply satisfyAll_pinned.
  - simpl. repeat split. apply satisfyAll_pinned.
Qed.

Lemma relaxConstraints_frame (cl : Cloth) :
  constraints (relaxConstraints cl) = constraints cl /\
  physicsEnabled (relaxConstraints cl) = physicsEnabled cl /\
  segmentsX (relaxConstraints cl) = segmentsX cl /\
  Particle.pinned <$> particles (relaxConstraints cl)
    = Particle.pinned <$> particles cl.
Proof.
  unfold relaxConstraints.
  set (cl1 := fold_left (fun c _ => relaxRound c) (seq 0 12) cl).
  assert (H : constraints cl1 = constraints cl /\
              physicsEnabled cl1 = physicsEnabled cl /\
              segmentsX cl1 = segmentsX cl /\
              Particle.pinned <$> particles cl1 = Particle.pinned <$> particles cl).
  { subst cl1. repeat split.
    - apply (fold_left_preserves constraints). intros. apply relaxRound_frame.
    - apply (fold_left_preserves physicsEnabled). intros. apply relaxRound_frame.
    - apply (fold_left_preserves segmentsX). intros. apply relaxRound_frame.
    - apply (fold_left_preserves (fun c => Particle.pinned <$> particles c)).
      intros. apply relaxRound_frame. }
  destruct H as (H1 & H2 & H3 & H4).
  destruct (negb (physicsEnabled cl1)); [|now repeat split].
  destruct (applyPreSagOnTopRow_frame 5 cl1) as (G1 & G2 & G3).
  rewrite G1, G2, G3, applyPreSagOnTopRow_pinned. now repeat split.
Qed.

(** X4. The pre-start relaxation, [relaxConstraints], moves particles and
    nothing else: the constraints with their broken flags, the start flag,
    the grid size and the pin flag of every particle are as before. *)
Lemma relaxConstraints_positions_only (cl : Cloth) :
  constraints (relaxConstraints cl) = constraints cl /\
  physicsEnabled (relaxConstraints cl) = physicsEnabled cl /\
  segmentsX (relaxConstraints cl) = segmentsX cl /\
  forall i, isPinnedAt (particles (relaxConstraints cl)) i
            = isPinnedAt (particles cl) i.
Proof.
  destruct (relaxConstraints_frame cl) as (H1 & H2 & H3 & H4).
  repeat split; try assumption. now apply isPinnedAt_fmap.
Qed.

(** *** togglePin and startSimulation *)

Lemma topRowIndices_seq (segX : nat) : topRowIndices segX = seq 0 (segX + 1).
Proof.
  unfold topRowIndices, _idx. rewrite <- (map_id (seq 0 (segX + 1))) at 2.
  apply map_ext. intros x. lia.
Qed.

(* the indices of the top row are 0 .. segmentsX *)
Lemma includes_topRow (segX : nat) (index : Z) :
  includes (topRowIndices segX) index = true <->
  (0 <= index <= Z.of_nat segX)%Z.
Proof.
  unfold includes. rewrite topRowIndices_seq, existsb_exists. split.
  - intros (i & Hi & E). apply in_seq in Hi. apply Z.eqb_eq in E. lia.
  - intros H. exists (Z.to_nat index). split.
    + apply in_seq. lia.
    + apply Z.eqb_eq. lia.
Qed.

Lemma particleAt_None (ps : list Particle.t) (index : Z) :
  particleAt ps index = None <->
  (index < 0 \/ Z.of_nat (length ps) <= index)%Z.
Proof.
  unfold particleAt. destruct (Z.ltb_spec index 0) as [Hn|Hn].
  - split; [intros _; now left|reflexivity].
  - rewrite lookup_ge_None. lia.
Qed.

(** C9. [togglePin(index)] returns false and changes nothing at all when the
    index is out of range, when it is not an index of the top row, or when the
    simulation has been started.  A call before the start on a top-row index
    flips the pin flag of that particle and of no other, returns the new
    flag, and leaves the constraints and the start flag as they were.  It is
    a total function: every call returns a boolean. *)
Theorem togglePin_contract (index : Z) (cl : Cloth) :
  ((index < 0 \/ Z.of_nat (length (particles cl)) <= index)%Z \/
   includes (topRowIndices (segmentsX cl)) index = false \/
   physicsEnabled cl = true ->
   togglePin index cl = (false, cl)) /\
  ((0 <= index < Z.of_nat (length (particles cl)))%Z ->
   includes (topRowIndices (segmentsX cl)) index = true ->
   physicsEnabled cl = false ->
   let r := togglePin index cl in
   let was := isPinnedAt (particles cl) (Z.to_nat index) in
   r.1 = negb was /\
   isPinnedAt (particles r.2) (Z.to_nat index) = negb was /\
   (forall i, i <> Z.to_nat index ->
      isPinnedAt (particles r.2) i = isPinnedAt (particles cl) i) /\
   physicsEnabled r.2 = false /\
   constraints r.2 = constraints cl).
Proof.
  split.
  - intros H. unfold togglePin.
    destruct (particleAt (particles cl) index) as [p|] eqn:Hp; [|reflexivity].
    destruct H as [H|[H|H]].
    + apply particleAt_None in H. congruence.
    + now rewrite H.
    + rewrite H. now destruct (negb _).
  - intros Hrange Htop Hoff r was. subst r was. unfold togglePin.
    destruct (particleAt (particles cl) index) as [p|] eqn:Hp.
    2:{ apply particleAt_None in Hp. lia. }
    rewrite Htop, Hoff. cbv beta iota zeta delta [negb fst snd].
    unfold particleAt in Hp. destruct (Z.ltb_spec index 0); [lia|].
    set (i := Z.to_nat index) in *.
    set (p' := if Particle.pinned p then Particle.unpin p
               else Particle.pinToCurrent p).
    set (cl1 := set_particles cl (<[i := p']> (particles cl))).
    destruct (relaxConstraints_frame cl1) as (Hc & He & _ & Hpin).
    assert (Hwas : isPinnedAt (particles cl) i = Particle.pinned p)
      by (unfold isPinnedAt; now rewrite Hp).
    assert (Hnew : Particle.pinned p' = negb (Particle.pinned p))
      by (subst p'; now destruct (Particle.pinned p)).
    assert (Hi : isPinnedAt (particles (relaxConstraints cl1)) i
                 = negb (isPinnedAt (particles cl) i)).
    { rewrite (isPinnedAt_fmap _ _ Hpin). subst cl1. simpl. unfold isPinnedAt at 1.
      rewrite list_lookup_insert_eq by (apply lookup_lt_is_Some; eauto).
      now rewrite Hwas. }
    repeat split; try assumption.
    2:{ now rewrite He. }
    intros k Hk. rewrite (isPinnedAt_fmap _ _ Hpin). subst cl1. simpl.
    unfold isPinnedAt. now rewrite list_lookup_insert_ne.
Qed.

Lemma constraints_set_particles (cl : Cloth) (ps : list Particle.t) :
  constraints (set_particles cl ps) = constraints cl.
Proof. reflexivity. Qed.

Lemma constraints_set_physicsEnabled (cl : Cloth) (b : bool) :
  constraints (set_physicsEnabled cl b) = constraints cl.
Proof. reflexivity. Qed.

(** C8. [startSimulation()] returns false and leaves the whole state as it
    is when no particle of the top row is pinned; when one is, it returns
    true and the state it leaves has physics enabled. *)
Theorem startSimulation_contract (cl : Cloth) :
  ((forall idx, In idx (topRowIndices (segmentsX cl)) ->
      isPinnedAt (particles cl) idx = false) ->
   startSimulation cl = (false, cl)) /\
  ((exists idx, In idx (topRowIndices (segmentsX cl)) /\
      isPinnedAt (particles cl) idx = true) ->
   (startSimulation cl).1 = true /\
   physicsEnabled (startSimulation cl).2 = true /\
   constraints (startSimulation cl).2 = constraints cl).
Proof.
  unfold startSimulation. split.
  - intros H.
    destruct (existsb (isPinnedAt (particles cl)) (topRowIndices (segmentsX cl)))
      eqn:E; [|reflexivity].
    apply existsb_exists in E. destruct E as (idx & Hin & Hp).
    rewrite (H idx Hin) in Hp. discriminate.
  - intros H. apply existsb_exists in H. rewrite H.
    cbv beta iota delta [negb fst snd].
    split; [reflexivity|]. split; [reflexivity|].
    cbv zeta.
    rewrite constraints_set_particles, constraints_set_physicsEnabled.
    match goal with |- constraints (applyPreSagOnTopRow 1 ?c) = _ =>
      destruct (applyPreSagOnTopRow_frame 1 c) as (-> & _) end.
    apply (fold_left_preserves constraints). reflexivity.
Qed.

(* the 2 x 2 cloth of the constructor: top row at places 0 and 1, free; the
   row below at places 2 and 3, pinned until the start *)
Definition smallCloth : Cloth := newCloth 2 1 1 1 (-9.81) 0.02 5 1.75.

(* a two-particle cloth whose first top-row particle is a constraint point *)
Definition anchoredCloth : Cloth :=
  mkCloth 2 1 1 0 (THREE.Vec3 0 (-9.81) 0) 0.02 5 1.75
    [Particle.pinToCurrent (Particle.new (-1) 4 0 1); Particle.new 1 4 0 1]
    [addC 0 1 2 1] false.

Lemma smallCloth_length : length (particles smallCloth) = 4%nat.
Proof. reflexivity. Qed.

Lemma togglePin_contract_witness :
  togglePin (-1) smallCloth = (false, smallCloth) /\
  togglePin 4 smallCloth = (false, smallCloth) /\
  togglePin 2 smallCloth = (false, smallCloth) /\
  (togglePin 0 smallCloth).1 = true /\
  isPinnedAt (particles (togglePin 0 smallCloth).2) 0 = true /\
  isPinnedAt (particles (togglePin 0 smallCloth).2) 1 = false.
Proof.
  split; [|split; [|split]].
  - apply (togglePin_contract (-1) smallCloth). left. left. lia.
  - apply (togglePin_contract 4 smallCloth). left. right.
    rewrite smallCloth_length. lia.
  - apply (togglePin_contract 2 smallCloth). right. left. reflexivity.
  - destruct (togglePin_contract 0 smallCloth) as [_ H].
    destruct H as (H1 & H2 & H3 & _).
    + rewrite smallCloth_length. lia.
    + reflexivity.
    + reflexivity.
    + split; [exact H1|]. split; [exact H2|].
      now rewrite (H3 1%nat) by discriminate.
Defined.

Lemma startSimulation_contract_witness :
  startSimulation smallCloth = (false, smallCloth) /\
  (startSimulation anchoredCloth).1 = true /\
  physicsEnabled (startSimulation anchoredCloth).2 = true.
Proof.
  split.
  - apply (startSimulation_contract smallCloth).
    intros idx [<-|[<-|[]]]; reflexivity.
  - destruct (startSimulation_contract anchoredCloth) as [_ H].
    destruct H as (H1 & H2 & _).
    + exists 0%nat. split; [now left|reflexivity].
    + exact (conj H1 H2).
Defined.

(** *** step: the time step *)



(* one free unit mass at the origin, at rest, in a started cloth *)
Definition fallingCloth : Cloth :=
  mkCloth 10 6 0 0 (THREE.Vec3 0 (-9.81) 0) 0.02 5 1.75
    [Particle.mk THREE.zero THREE.zero THREE.zero 1 false THREE.zero] [] true.


(** *** step never moves a pinned particle off its pin *)

(* every pinned particle of [ps] is found unchanged, at its place, in [qs] *)
Definition pinnedKept (ps qs : list Particle.t) : Prop :=
  forall i p, ps !! i = Some p -> Particle.pinned p = true -> qs !! i = Some p.

Lemma pinnedKept_refl (ps : list Particle.t) : pinnedKept ps ps.
Proof. now intros i p H _. Qed.

Lemma pinnedKept_trans (ps qs rs : list Particle.t) :
  pinnedKept ps qs -> pinnedKept qs rs -> pinnedKept ps rs.
Proof. intros H1 H2 i p Hp Hpin. apply H2; [now apply H1|exact Hpin]. Qed.

Lemma pinnedKept_insert (ps : list Particle.t) (j : nat) (a a' : Particle.t) :
  ps !! j = Some a -> (Particle.pinned a = true -> a' = a) ->
  pinnedKept ps (<[j := a']> ps).
Proof.
  intros Ha Hk i p Hp Hpin. destruct (decide (i = j)) as [->|N].
  - rewrite Ha in Hp. injection Hp as <-. rewrite Hk by exact Hpin.
    apply list_lookup_insert_eq. apply lookup_lt_is_Some. eauto.
  - now rewrite list_lookup_insert_ne.
Qed.

(* [satisfy] returns a pinned endpoint as it got it *)
Lemma satisfyPair_pinned (c : Constraint.t) (a b : Particle.t) :
  (Particle.pinned a = true -> (Constraint.satisfyPair c a b).1 = a) /\
  (Particle.pinned b = true -> (Constraint.satisfyPair c a b).2 = b).
Proof.
  unfold Constraint.satisfyPair.
  destruct (Constraint.broken c); [now split|].
  destruct (Req_dec_T _ 0); [now split|].
  destruct (Req_dec_T _ 0); [now split|]. simpl. split; intros H; rewrite H.
  - replace (0 / _ * _) with 0 by (unfold Rdiv; lra).
    rewrite addScaledVector_0. now destruct a.
  - replace (- (0 / _ * _)) with 0 by (unfold Rdiv; lra).
    rewrite addScaledVector_0. now destruct b.
Qed.

Lemma satisfyPair_same (c : Constraint.t) (a : Particle.t) :
  Constraint.satisfyPair c a a = (a, a).
Proof.
  unfold Constraint.satisfyPair. destruct (Constraint.broken c); [reflexivity|].
  rewrite length_sub_self. destruct (Req_dec_T 0 0); [reflexivity|lra].
Qed.

Lemma satisfy_pinnedKept (c : Constraint.t) (ps : list Particle.t) :
  pinnedKept ps (Constraint.satisfy c ps).
Proof.
  unfold Constraint.satisfy.
  destruct (ps !! Constraint.p1 c) as [a|] eqn:Ha; [|apply pinnedKept_refl].
  destruct (ps !! Constraint.p2 c) as [b|] eqn:Hb; [|apply pinnedKept_refl].
  destruct (decide (Constraint.p1 c = Constraint.p2 c)) as [E|N].
  - rewrite E, Hb in Ha. injection Ha as <-. rewrite satisfyPair_same, E.
    rewrite list_insert_insert_eq, (list_insert_id ps _ b Hb).
    apply pinnedKept_refl.
  - destruct (satisfyPair_pinned c a b) as [H1 H2].
    destruct (Constraint.satisfyPair c a b) as [a' b']. simpl in *.
    apply (pinnedKept_trans _ (<[Constraint.p1 c := a']> ps)).
    + now apply (pinnedKept_insert ps _ a).
    + apply (pinnedKept_insert _ _ b);
        [now rewrite list_lookup_insert_ne|exact H2].
Qed.

Lemma visitAt_pinnedKept (tf : R) (st : list Constraint.t * list Particle.t)
  (j : nat) :
  pinnedKept st.2 (visitAt tf st j).2.
Proof.
  destruct st as [cs ps]. unfold visitAt. simpl.
  destruct (cs !! j) as [c|]; [|apply pinnedKept_refl].
  unfold visit. destruct (Constraint.broken c); [apply pinnedKept_refl|].
  destruct (ps !! Constraint.p1 c); [|apply pinnedKept_refl].
  destruct (ps !! Constraint.p2 c); [|apply pinnedKept_refl].
  destruct (Rlt_dec _ _); [apply pinnedKept_refl|apply satisfy_pinnedKept].
Qed.

Lemma visits_pinnedKept (tf : R) (js : list nat)
  (st : list Constraint.t * list Particle.t) :
  pinnedKept st.2 (fold_left (visitAt tf) js st).2.
Proof.
  revert st. induction js as [|j js IH]; intros st; simpl;
    [apply pinnedKept_refl|].
  eapply pinnedKept_trans; [apply visitAt_pinnedKept|apply IH].
Qed.

Lemma relaxation_pinnedKept (tf : R) (rounds : list nat)
  (st : list Constraint.t * list Particle.t) :
  pinnedKept st.2 (fold_left (relaxationPass tf) rounds st).2.
Proof.
  revert st. induction rounds as [|i rounds IH]; intros st; simpl;
    [apply pinnedKept_refl|].
  eapply pinnedKept_trans; [|apply IH].
  unfold relaxationPass, reversePass, forwardPass.
  destruct (Nat.eqb _ _); apply visits_pinnedKept.
Qed.

(** X5. After a [step] of a started cloth, every particle that was pinned is
    at its [pinPosition], with [previous] the same point and no acceleration
    left, whatever the time step, gravity and the relaxation passes did: the
    integration snaps it there and no constraint moves it afterwards. *)
Lemma step_pinned_at_pin (deltaTime : R) (cl : Cloth) (i : nat) (p : Particle.t) :
  physicsEnabled cl = true ->
  particles cl !! i = Some p -> Particle.pinned p = true ->
  exists q, particles (step deltaTime cl) !! i = Some q /\
    Particle.position q = Particle.pinPosition p /\
    Particle.previous q = Particle.pinPosition p /\
    Particle.acceleration q = THREE.zero /\
    Particle.pinned q = true.
Proof.
  intros He Hp Hpin. unfold step. rewrite He. cbv beta iota zeta delta [negb].
  change (particles (set_constraints (set_particles cl ?ps) ?cs)) with ps.
  destruct (integrate_pinned deltaTime (damping cl) p Hpin)
    as (H1 & H2 & H3 & H4 & _ & Hf). cbv zeta in Hf.
  exists (Particle.integrate deltaTime (damping cl) p).
  split; [|now repeat split].
  apply (relaxation_pinnedKept (tearFactor cl) (seq 0 (iterations cl))
           (constraints cl, _)); [|exact H4].
  simpl. rewrite !lookup_map, Hp. simpl. now rewrite Hf.
Qed.

Lemma step_pinned_at_pin_witness :
  exists q, particles (step 0.016 (set_physicsEnabled anchoredCloth true)) !! 0%nat
            = Some q /\
    Particle.position q = THREE.Vec3 (-1) 4 0 /\
    Particle.previous q = THREE.Vec3 (-1) 4 0 /\
    Particle.acceleration q = THREE.zero /\
    Particle.pinned q = true.
Proof.
  apply (step_pinned_at_pin 0.016 (set_physicsEnabled anchoredCloth true) 0%nat
           (Particle.pinToCurrent (Particle.new (-1) 4 0 1))); reflexivity.
Defined.

(** *** A session of commands never mends a constraint *)

Inductive Command : Type :=
| Step (deltaTime : R)
| TogglePin (index : Z)
| StartSimulation
| BreakConstraints (predicate : Constraint.t -> list Particle.t -> bool).

Definition run (cl : Cloth) (cmd : Command) : Cloth :=
  match cmd with
  | Step deltaTime => step deltaTime cl
  | TogglePin index => (togglePin index cl).2
  | StartSimulation => (startSimulation cl).2
  | BreakConstraints predicate => (breakConstraints predicate cl).2
  end.

Lemma togglePin_constraints (index : Z) (cl : Cloth) :
  constraints (togglePin index cl).2 = constraints cl.
Proof.
  unfold togglePin.
  destruct (particleAt (particles cl) index); [|reflexivity].
  destruct (negb _); [reflexivity|].
  destruct (physicsEnabled cl); [reflexivity|].
  cbv beta iota zeta delta [snd].
  match goal with |- constraints (relaxConstraints ?c) = _ =>
    destruct (relaxConstraints_frame c) as (-> & _) end.
  reflexivity.
Qed.

Lemma startSimulation_constraints (cl : Cloth) :
  constraints (startSimulation cl).2 = constraints cl.
Proof.
  unfold startSimulation. destruct (negb _); [reflexivity|].
  cbv beta iota zeta delta [snd].
  rewrite constraints_set_particles, constraints_set_physicsEnabled.
  match goal with |- constraints (applyPreSagOnTopRow 1 ?c) = _ =>
    destruct (applyPreSagOnTopRow_frame 1 c) as (-> & _) end.
  apply (fold_left_preserves constraints). reflexivity.
Qed.

Lemma breakConstraints_keeps_broken
  (predicate : Constraint.t -> list Particle.t -> bool) (cl : Cloth) (j : nat) :
  brokenAt (constraints cl) j ->
  brokenAt (constraints (breakConstraints predicate cl).2) j.
Proof.
  intros (c & Hc & Hb). unfold breakConstraints.
  cbv beta iota zeta delta [snd].
  change (constraints (set_constraints cl ?cs)) with cs.
  exists c. rewrite lookup_map, Hc. simpl. now rewrite Hb.
Qed.

Lemma run_keeps_broken (cmd : Command) (cl : Cloth) (j : nat) :
  brokenAt (constraints cl) j -> brokenAt (constraints (run cl cmd)) j.
Proof.
  intros H. destruct cmd; simpl.
  - now apply step_keeps_broken.
  - now rewrite togglePin_constraints.
  - now rewrite startSimulation_constraints.
  - now apply breakConstraints_keeps_broken.
Qed.

Lemma session_keeps_broken (cmds : list Command) (cl : Cloth) (j : nat) :
  brokenAt (constraints cl) j ->
  brokenAt (constraints (fold_left run cmds cl)) j.
Proof.
  revert cl. induction cmds as [|cmd cmds IH]; intros cl H; simpl; [exact H|].
  apply IH. now apply run_keeps_broken.
Qed.

(** *** The constructor: the grid of particles *)

(* the nested loops, y outer and x inner over a row of [w] places, put the
   element made for (x, y) at place (y - s) * w + x *)
Lemma lookup_rows {A : Type} (f : nat -> nat -> A) (w n s i : nat) :
  (i < n * w)%nat ->
  flat_map (fun y => map (fun x => f x y) (seq 0 w)) (seq s n) !! i
    = Some (f (i mod w) (s + i / w))%nat.
Proof.
  revert s i. induction n as [|n IH]; intros s i Hi; [lia|].
  cbn [seq flat_map].
  assert (Hlen : length (map (fun x => f x s) (seq 0 w)) = w)
    by now rewrite length_map, length_seq.
  destruct (Nat.lt_ge_cases i w) as [Hlt|Hge].
  - rewrite lookup_app_l by lia.
    rewrite lookup_map, lookup_seq_lt by exact Hlt. simpl.
    rewrite Nat.mod_small, Nat.div_small by exact Hlt.
    now rewrite Nat.add_0_r.
  - rewrite lookup_app_r by lia. rewrite Hlen.
    rewrite IH by lia.
    assert (Hm : (i mod w = (i - w) mod w)%nat).
    { replace i with ((i - w) + 1 * w)%nat at 1 by lia.
      apply Nat.Div0.mod_add. }
    assert (Hd : (i / w = (i - w) / w + 1)%nat).
    { replace i with ((i - w) + 1 * w)%nat at 1 by lia.
      apply Nat.div_add. lia. }
    rewrite Hm, Hd. do 2 f_equal. lia.
Qed.

Lemma length_rows {A : Type} (f : nat -> nat -> A) (w n s : nat) :
  length (flat_map (fun y => map (fun x => f x y) (seq 0 w)) (seq s n))
    = (n * w)%nat.
Proof.
  revert s. induction n as [|n IH]; intros s; [reflexivity|].
  cbn [seq flat_map]. rewrite length_app, IH, length_map, length_seq. lia.
Qed.

Lemma gridCoords_lookup (segX segY i : nat) :
  (i < (segY + 1) * (segX + 1))%nat ->
  gridCoords segX segY !! i = Some (i mod (segX + 1), i / (segX + 1))%nat.
Proof.
  intros Hi. unfold gridCoords.
  now rewrite (lookup_rows (fun x y => (x, y)) (segX + 1) (segY + 1) 0 i Hi).
Qed.

Lemma gridCoords_length (segX segY : nat) :
  length (gridCoords segX segY) = ((segY + 1) * (segX + 1))%nat.
Proof. apply (length_rows (fun x y => (x, y))). Qed.

Lemma gridCoords_In (segX segY x y : nat) :
  In (x, y) (gridCoords segX segY) <-> (x <= segX /\ y <= segY)%nat.
Proof.
  unfold gridCoords. rewrite in_flat_map. split.
  - intros (y' & Hy & Hx). apply in_map_iff in Hx. destruct Hx as (x' & E & Hx).
    injection E as <- <-. apply in_seq in Hy. apply in_seq in Hx. lia.
  - intros [Hx Hy]. exists y. split; [apply in_seq; lia|].
    apply in_map_iff. exists x. split; [reflexivity|apply in_seq; lia].
Qed.

(* the place of (x, y) in the array, read back *)
Lemma _idx_mod_div (segX x y : nat) :
  (x <= segX)%nat ->
  ((_idx segX x y) mod (segX + 1) = x /\ (_idx segX x y) / (segX + 1) = y)%nat.
Proof.
  intros Hx. unfold _idx. split.
  - rewrite Nat.add_comm, Nat.Div0.mod_add. apply Nat.mod_small. lia.
  - rewrite Nat.add_comm, Nat.div_add by lia.
    rewrite Nat.div_small by lia. reflexivity.
Qed.

Lemma includes_topRow_nat (segX i : nat) :
  includes (topRowIndices segX) (Z.of_nat i) = (i <=? segX)%nat.
Proof.
  destruct (Nat.leb_spec i segX) as [H|H].
  - apply includes_topRow. lia.
  - apply not_true_is_false. rewrite includes_topRow. lia.
Qed.

(* the particle the constructor leaves at column [x] of row [y]: free in the
   top row, pinned where it stands in every other row *)
Definition gridParticle (w h : R) (segX segY x y : nat) : Particle.t :=
  let p := Particle.new (- w / 2 + INR x * (w / INR segX))
             (4 - INR y * (h / INR segY)) 0 1 in
  if (y =? 0)%nat then p else Particle.pinToCurrent p.

Lemma newCloth_lookup (w h : R) (segX segY : nat) (g d : R) (it : nat) (tf : R)
  (i : nat) :
  (i < (segY + 1) * (segX + 1))%nat ->
  particles (newCloth w h segX segY g d it tf) !! i
    = Some (gridParticle w h segX segY (i mod (segX + 1)) (i / (segX + 1))).
Proof.
  intros Hi. unfold newCloth, _buildGrid.
  cbv beta iota zeta delta [particles set_constraints set_particles segmentsX
    segmentsY width height].
  rewrite list_lookup_imap, lookup_map, gridCoords_lookup by exact Hi.
  cbn [fmap option_fmap option_map]. f_equal.
  rewrite includes_topRow_nat. unfold gridParticle.
  assert (E : (i <=? segX)%nat = (i / (segX + 1) =? 0)%nat).
  { destruct (Nat.leb_spec i segX) as [H|H].
    - rewrite Nat.div_small by lia. reflexivity.
    - symmetry. apply Nat.eqb_neq. intros Hz.
      apply Nat.div_small_iff in Hz; lia. }
  rewrite E. now destruct (_ =? 0)%nat.
Qed.

Lemma newCloth_length (w h : R) (segX segY : nat) (g d : R) (it : nat) (tf : R) :
  length (particles (newCloth w h segX segY g d it tf))
    = ((segY + 1) * (segX + 1))%nat.
Proof.
  unfold newCloth, _buildGrid.
  cbv beta iota zeta delta [particles set_constraints set_particles segmentsX
    segmentsY width height].
  now rewrite length_imap, length_map, gridCoords_length.
Qed.

(** X6. The constructor of [Cloth] lays out (segmentsX + 1) * (segmentsY + 1)
    particles row by row: place i holds the particle of column
    i mod (segmentsX + 1) and row i / (segmentsX + 1), at rest at its grid
    point, with unit inverse mass and no acceleration.  The particles of the
    top row are free, every other particle is pinned where it stands, and the
    physics is off. *)
Lemma newCloth_particles (w h : R) (segX segY : nat) (g d : R) (it : nat)
  (tf : R) :
  let cl := newCloth w h segX segY g d it tf in
  length (particles cl) = ((segY + 1) * (segX + 1))%nat /\
  physicsEnabled cl = false /\
  forall i, (i < (segY + 1) * (segX + 1))%nat ->
    exists p, particles cl !! i = Some p /\
      Particle.position p
        = THREE.Vec3 (- w / 2 + INR (i mod (segX + 1)) * (w / INR segX))
            (4 - INR (i / (segX + 1)) * (h / INR segY)) 0 /\
      Particle.previous p = Particle.position p /\
      Particle.acceleration p = THREE.zero /\
      Particle.inverseMass p = 1 /\
      Particle.pinned p = negb (i <=? segX)%nat /\
      (Particle.pinned p = true -> Particle.pinPosition p = Particle.position p).
Proof.
  intros cl. split; [apply newCloth_length|]. split; [reflexivity|].
  intros i Hi. eexists. split; [now apply newCloth_lookup|].
  unfold gridParticle.
  assert (E : (i / (segX + 1) =? 0)%nat = (i <=? segX)%nat).
  { destruct (Nat.leb_spec i segX) as [H|H].
    - rewrite Nat.div_small by lia. reflexivity.
    - apply Nat.eqb_neq. intros Hz. apply Nat.div_small_iff in Hz; lia. }
  rewrite E. cbv zeta.
  assert (Hm : (if Rlt_dec 0 1 then 1 / 1 else 0) = 1)
    by (destruct (Rlt_dec 0 1); lra).
  destruct (i <=? segX)%nat; simpl; rewrite Hm; repeat split; discriminate.
Qed.

(** *** The constructor: the constraints *)

(* the five kinds of constraint the two pairs of loops push at (x, y) *)
Inductive gridConstraint (segX segY : nat) (dx dy : R) (c : Constraint.t)
  : Prop :=
| structuralX (x y : nat) :
    (x < segX)%nat -> (y <= segY)%nat ->
    c = addC (_idx segX x y) (_idx segX (x + 1) y) dx 1.0 ->
    gridConstraint segX segY dx dy c
| structuralY (x y : nat) :
    (x <= segX)%nat -> (y < segY)%nat ->
    c = addC (_idx segX x y) (_idx segX x (y + 1)) dy 1.0 ->
    gridConstraint segX segY dx dy c
| shearDown (x y : nat) :
    (x < segX)%nat -> (y < segY)%nat ->
    c = addC (_idx segX x y) (_idx segX (x + 1) (y + 1))
          (sqrt (dx * dx + dy * dy)) 1.0 ->
    gridConstraint segX segY dx dy c
| shearUp (x y : nat) :
    (x < segX)%nat -> (y < segY)%nat ->
    c = addC (_idx segX (x + 1) y) (_idx segX x (y + 1))
          (sqrt (dx * dx + dy * dy)) 1.0 ->
    gridConstraint segX segY dx dy c
| bendingY (x y : nat) :
    (x <= segX)%nat -> (y + 1 < segY)%nat ->
    c = addC (_idx segX x y) (_idx segX x (y + 2)) (dy * 2) 0.4 ->
    gridConstraint segX segY dx dy c.

Lemma newCloth_constraints_cases (w h : R) (segX segY : nat) (g d : R)
  (it : nat) (tf : R) (c : Constraint.t) :
  In c (constraints (newCloth w h segX segY g d it tf)) ->
  gridConstraint segX segY (w / INR segX) (h / INR segY) c.
Proof.
  unfold newCloth, _buildGrid.
  cbv beta iota zeta delta [constraints set_constraints set_particles segmentsX
    segmentsY width height].
  intros H. apply in_app_or in H. destruct H as [H|H];
    apply in_flat_map in H; destruct H as ([x y] & Hxy & Hc);
    apply gridCoords_In in Hxy; destruct Hxy as [Hx Hy].
  - unfold structuralAt in Hc.
    apply in_app_or in Hc. destruct Hc as [Hc|Hc].
    { destruct (Nat.ltb_spec x segX); [|contradiction].
      destruct Hc as [<-|[]]. now apply (structuralX _ _ _ _ _ x y). }
    apply in_app_or in Hc. destruct Hc as [Hc|Hc].
    { destruct (Nat.ltb_spec y segY); [|contradiction].
      destruct Hc as [<-|[]]. now apply (structuralY _ _ _ _ _ x y). }
    destruct (Nat.ltb_spec x segX); [|contradiction].
    destruct (Nat.ltb_spec y segY); [|contradiction].
    destruct Hc as [<-|[<-|[]]].
    + now apply (shearDown _ _ _ _ _ x y).
    + now apply (shearUp _ _ _ _ _ x y).
  - unfold bendingAt in Hc.
    destruct (Nat.ltb_spec (y + 1) segY); [|contradiction].
    destruct Hc as [<-|[]]. now apply (bendingY _ _ _ _ _ x y).
Qed.

Lemma newCloth_constraints_complete (w h : R) (segX segY : nat) (g d : R)
  (it : nat) (tf : R) (c : Constraint.t) :
  gridConstraint segX segY (w / INR segX) (h / INR segY) c ->
  In c (constraints (newCloth w h segX segY g d it tf)).
Proof.
  unfold newCloth, _buildGrid.
  cbv beta iota zeta delta [constraints set_constraints set_particles segmentsX
    segmentsY width height].
  intros [x y Hx Hy ->|x y Hx Hy ->|x y Hx Hy ->|x y Hx Hy ->|x y Hx Hy ->];
    apply in_or_app; [left|left|left|left|right];
    apply in_flat_map; exists (x, y);
    (split; [apply gridCoords_In; lia|]);
    unfold structuralAt, bendingAt.
  - apply in_or_app. left.
    rewrite (proj2 (Nat.ltb_lt _ _) Hx). now left.
  - apply in_or_app. right. apply in_or_app. left.
    rewrite (proj2 (Nat.ltb_lt _ _) Hy). now left.
  - apply in_or_app. right. apply in_or_app. right.
    rewrite (proj2 (Nat.ltb_lt _ _) Hx), (proj2 (Nat.ltb_lt _ _) Hy). now left.
  - apply in_or_app. right. apply in_or_app. right.
    rewrite (proj2 (Nat.ltb_lt _ _) Hx), (proj2 (Nat.ltb_lt _ _) Hy).
    right. now left.
  - rewrite (proj2 (Nat.ltb_lt _ _) Hy). now left.
Qed.

(** X7. The constraints the constructor of [Cloth] creates are exactly
    these, with dx = width / segmentsX and dy = height / segmentsY: for each
    place (x, y) of the grid a structural constraint to the right neighbour
    when x < segmentsX (restDistance dx, stiffness 1), one to the neighbour
    below when y < segmentsY (dy, stiffness 1), the two diagonals of the cell
    when both hold (Math.hypot(dx, dy), stiffness 1), and a bending
    constraint to the particle two rows below when y + 1 < segmentsY
    (dy * 2, stiffness 0.4); there is no horizontal bending constraint.
    Each of them is whole and joins two different particles of the grid, the
    first at the lower place, both in range.  The rest distance is this
    nominal spacing, not a distance measured between the two particles. *)
Lemma newCloth_constraints_layout (w h : R) (segX segY : nat) (g d : R)
  (it : nat) (tf : R) :
  let cl := newCloth w h segX segY g d it tf in
  (forall c, In c (constraints cl)
     <-> gridConstraint segX segY (w / INR segX) (h / INR segY) c) /\
  (forall c, In c (constraints cl) ->
     Constraint.broken c = false /\
     (Constraint.p1 c < Constraint.p2 c < length (particles cl))%nat /\
     (Constraint.stiffness c = 1.0 \/ Constraint.stiffness c = 0.4)).
Proof.
  intros cl. split.
  - intros c. split.
    + apply newCloth_constraints_cases.
    + apply newCloth_constraints_complete.
  - intros c Hin. unfold cl. rewrite newCloth_length.
    destruct (newCloth_constraints_cases _ _ _ _ _ _ _ _ _ Hin)
      as [x y Hx Hy ->|x y Hx Hy ->|x y Hx Hy ->|x y Hx Hy ->|x y Hx Hy ->];
      (split; [reflexivity|]);
      (split; [unfold addC, _idx; simpl; nia|]);
      unfold addC; cbn [Constraint.stiffness]; tauto.
Qed.

(** *** A cloth at rest, and the first anchor *)

(* every whole constraint of [cs] finds its two particles in [ps], exactly
   [restDistance] apart *)
Definition atRest (cs : list Constraint.t) (ps : list Particle.t) : Prop :=
  forall c, In c cs -> Constraint.broken c = false ->
    exists a b,
      ps !! Constraint.p1 c = Some a /\ ps !! Constraint.p2 c = Some b /\
      THREE.distanceTo (Particle.position b) (Particle.position a)
        = Constraint.restDistance c.

Lemma set_position_id (p : Particle.t) :
  Particle.set_position p (Particle.position p) = p.
Proof. now destruct p. Qed.

Lemma satisfyPair_at_rest (c : Constraint.t) (a b : Particle.t) :
  THREE.distanceTo (Particle.position b) (Particle.position a)
    = Constraint.restDistance c ->
  Constraint.satisfyPair c a b = (a, b).
Proof.
  intros Hd. rewrite distanceTo_length in Hd. unfold Constraint.satisfyPair.
  destruct (Constraint.broken c); [reflexivity|].
  destruct (Req_dec_T _ 0); [reflexivity|].
  destruct (Req_dec_T _ 0); [reflexivity|].
  rewrite Hd.
  replace ((Constraint.restDistance c - Constraint.restDistance c)
           / Constraint.restDistance c
           * (Constraint.underRelaxation * Constraint.stiffness c)) with 0
    by (unfold Rdiv; lra).
  rewrite !Rmult_0_r, Ropp_0, !addScaledVector_0.
  now rewrite !set_position_id.
Qed.

Lemma satisfy_at_rest (c : Constraint.t) (ps : list Particle.t)
  (a b : Particle.t) :
  ps !! Constraint.p1 c = Some a -> ps !! Constraint.p2 c = Some b ->
  THREE.distanceTo (Particle.position b) (Particle.position a)
    = Constraint.restDistance c ->
  Constraint.satisfy c ps = ps.
Proof.
  intros Ha Hb Hd. unfold Constraint.satisfy. rewrite Ha, Hb.
  rewrite satisfyPair_at_rest by exact Hd.
  rewrite (list_insert_id ps _ a Ha). now apply list_insert_id.
Qed.

Lemma satisfyAll_at_rest (cs : list Constraint.t) (ps : list Particle.t) :
  atRest cs ps -> satisfyAll cs ps = ps.
Proof.
  unfold satisfyAll. induction cs as [|c cs IH]; intros H; [reflexivity|].
  cbn [fold_left]. destruct (Constraint.broken c) eqn:Hb.
  - apply IH. intros c' Hc'. apply H. now right.
  - destruct (H c (or_introl eq_refl) Hb) as (a & b & Ha & Hp & Hd).
    rewrite (satisfy_at_rest c ps a b Ha Hp Hd).
    apply IH. intros c' Hc'. apply H. now right.
Qed.

(* pinning a particle where it stands keeps the cloth at rest *)
Lemma atRest_pinToCurrent (cs : list Constraint.t) (ps : list Particle.t)
  (i : nat) (p : Particle.t) :
  ps !! i = Some p -> atRest cs ps ->
  atRest cs (<[i := Particle.pinToCurrent p]> ps).
Proof.
  intros Hp H c Hc Hb. destruct (H c Hc Hb) as (a & b & Ha & Hq & Hd).
  assert (G : forall k q, ps !! k = Some q ->
            exists q', <[i := Particle.pinToCurrent p]> ps !! k = Some q' /\
                       Particle.position q' = Particle.position q).
  { intros k q Hk. destruct (decide (k = i)) as [->|N].
    - exists (Particle.pinToCurrent p). split.
      + apply list_lookup_insert_eq. apply lookup_lt_is_Some. eauto.
      + rewrite Hp in Hk. now injection Hk as <-.
    - exists q. now rewrite list_lookup_insert_ne. }
  destruct (G _ _ Ha) as (a' & Ha' & Ea). destruct (G _ _ Hq) as (b' & Hb' & Eb).
  exists a', b'. now rewrite Ea, Eb.
Qed.

(* a test that holds for one element at most keeps at most one element *)
Lemma filter_at_most_one (P : nat -> bool) (l : list nat) (i0 : nat) :
  List.NoDup l -> (forall j, In j l -> P j = true -> j = i0) ->
  (length (List.filter P l) < 2)%nat.
Proof.
  induction l as [|a l IH]; intros Hnd H; [simpl; lia|].
  apply List.NoDup_cons_iff in Hnd. destruct Hnd as [Hna Hnd].
  cbn [List.filter]. destruct (P a) eqn:Ha.
  - assert (E : List.filter P l = []).
    { destruct (List.filter P l) as [|j rest] eqn:Ef; [reflexivity|].
      assert (Hj : In j (List.filter P l)) by (rewrite Ef; now left).
      apply filter_In in Hj. destruct Hj as [Hj Pj].
      rewrite (H a (or_introl eq_refl) Ha) in Hna.
      rewrite (H j (or_intror Hj) Pj) in Hj. contradiction. }
    rewrite E. simpl. lia.
  - apply IH; [exact Hnd|]. intros j Hj. apply H. now right.
Qed.

Lemma set_particles_same (cl : Cloth) : set_particles cl (particles cl) = cl.
Proof. now destruct cl. Qed.

(* with fewer than two anchors in the top row the shaping pass returns at
   once *)
Lemma applyPreSagOnTopRow_one_anchor (repeat : nat) (cl : Cloth) (i0 : nat) :
  (forall j, (j <= segmentsX cl)%nat ->
     isPinnedAt (particles cl) j = true -> j = i0) ->
  applyPreSagOnTopRow repeat cl = cl.
Proof.
  intros H. unfold applyPreSagOnTopRow.
  match goal with |- (if (length (List.filter ?P ?l) <? 2)%nat then _ else _) = _ =>
    assert (L : (length (List.filter P l) < 2)%nat) end.
  { apply (filter_at_most_one _ _ i0); [apply List.seq_NoDup|].
    intros j Hj. apply in_seq in Hj.
    rewrite topRowIndices_seq, length_seq in Hj.
    rewrite topRowIndices_seq, lookup_seq_lt by lia. simpl.
    apply H. lia. }
  apply Nat.ltb_lt in L. now rewrite L.
Qed.

(** X8. On a cloth that has not been started, with no particle of the top
    row pinned and every whole constraint exactly at its rest distance, the
    first anchor moves nothing: [togglePin] on a top-row index returns true
    and leaves the state as it was but for the pin of that one particle, set
    at the point where the particle stands.  The twelve relaxation rounds
    change no position, because a constraint at rest corrects by zero, and
    the shaping pass needs two anchors. *)
Lemma togglePin_first_anchor (cl : Cloth) (i : nat) (p : Particle.t) :
  physicsEnabled cl = false ->
  (i <= segmentsX cl)%nat ->
  particles cl !! i = Some p ->
  (forall j, (j <= segmentsX cl)%nat -> isPinnedAt (particles cl) j = false) ->
  atRest (constraints cl) (particles cl) ->
  togglePin (Z.of_nat i) cl
    = (true, set_particles cl (<[i := Particle.pinToCurrent p]> (particles cl))).
Proof.
  intros Hoff0 Hi Hp Hnone Hrest0.
  assert (Hfree : Particle.pinned p = false).
  { specialize (Hnone i Hi). unfold isPinnedAt in Hnone. now rewrite Hp in Hnone. }
  set (cl1 := set_particles cl (<[i := Particle.pinToCurrent p]> (particles cl))).
  assert (Hps1 : particles cl1 = <[i := Particle.pinToCurrent p]> (particles cl))
    by reflexivity.
  assert (Hoff : physicsEnabled cl1 = false) by exact Hoff0.
  assert (Hrest : atRest (constraints cl1) (particles cl1)).
  { rewrite Hps1. now apply atRest_pinToCurrent. }
  assert (Hone : forall j, (j <= segmentsX cl1)%nat ->
            isPinnedAt (particles cl1) j = true -> j = i).
  { intros j Hj. rewrite Hps1. unfold isPinnedAt.
    destruct (decide (j = i)) as [->|N]; [reflexivity|].
    rewrite list_lookup_insert_ne by congruence. intros H.
    specialize (Hnone j Hj). unfold isPinnedAt in Hnone. congruence. }
  assert (Hround : relaxRound cl1 = cl1).
  { unfold relaxRound. cbv zeta.
    rewrite (satisfyAll_at_rest _ _ Hrest), set_particles_same, Hoff.
    cbv beta iota delta [negb]. now apply (applyPreSagOnTopRow_one_anchor 3 cl1 i). }
  assert (Hrelax : relaxConstraints cl1 = cl1).
  { unfold relaxConstraints.
    assert (E : fold_left (fun c _ => relaxRound c) (seq 0 12) cl1 = cl1).
    { generalize (seq 0 12). intros l. induction l as [|x l IH]; [reflexivity|].
      cbn [fold_left]. now rewrite Hround. }
    rewrite E. cbv zeta. rewrite Hoff. cbv beta iota delta [negb].
    now apply (applyPreSagOnTopRow_one_anchor 5 cl1 i). }
  unfold togglePin, particleAt.
  destruct (Z.ltb_spec (Z.of_nat i) 0); [lia|].
  rewrite Nat2Z.id, Hp, includes_topRow_nat.
  destruct (Nat.leb_spec i (segmentsX cl)); [|lia].
  rewrite Hoff0. cbv beta iota zeta delta [negb]. rewrite Hfree. fold cl1.
  rewrite Hrelax. f_equal. unfold isPinnedAt.
  rewrite Hps1, list_lookup_insert_eq by (apply lookup_lt_is_Some; eauto).
  reflexivity.
Qed.

(* one cell of width and height one, as the constructor lays it out: the
   top row free, the row below pinned where it stands, the four sides and
   the two diagonals as constraints *)
Definition restingCell : Cloth :=
  mkCloth 1 1 1 1 (THREE.Vec3 0 (-9.81) 0) 0.02 5 1.75
    [Particle.mk (THREE.Vec3 (-0.5) 4 0) (THREE.Vec3 (-0.5) 4 0) THREE.zero 1
       false THREE.zero;
     Particle.mk (THREE.Vec3 0.5 4 0) (THREE.Vec3 0.5 4 0) THREE.zero 1
       false THREE.zero;
     Particle.mk (THREE.Vec3 (-0.5) 3 0) (THREE.Vec3 (-0.5) 3 0) THREE.zero 1
       true (THREE.Vec3 (-0.5) 3 0);
     Particle.mk (THREE.Vec3 0.5 3 0) (THREE.Vec3 0.5 3 0) THREE.zero 1
       true (THREE.Vec3 0.5 3 0)]
    [addC 0 1 1 1.0; addC 0 2 1 1.0;
     addC 0 3 (sqrt (1 * 1 + 1 * 1)) 1.0; addC 1 2 (sqrt (1 * 1 + 1 * 1)) 1.0;
     addC 1 3 1 1.0; addC 2 3 1 1.0]
    false.

Lemma restingCell_at_rest :
  atRest (constraints restingCell) (particles restingCell).
Proof.
  intros c Hc _. cbn [constraints restingCell] in Hc.
  destruct Hc as [<-|[<-|[<-|[<-|[<-|[<-|[]]]]]]];
    eexists; eexists; (split; [reflexivity|]); (split; [reflexivity|]);
    unfold THREE.distanceTo, THREE.distanceToSquared, addC; simpl;
    first [ f_equal; lra
          | replace (_ + _ + _) with (1 * 1) by lra; apply sqrt_square; lra ].
Qed.

Lemma togglePin_first_anchor_witness :
  togglePin 1 restingCell
    = (true,
       set_particles restingCell
         (<[1%nat := Particle.pinToCurrent
                       (Particle.mk (THREE.Vec3 0.5 4 0) (THREE.Vec3 0.5 4 0)
                          THREE.zero 1 false THREE.zero)]>
            (particles restingCell))).
Proof.
  apply (togglePin_first_anchor restingCell 1).
  - reflexivity.
  - simpl. lia.
  - reflexivity.
  - intros j Hj. simpl in Hj. destruct j as [|[|j]]; [reflexivity|reflexivity|lia].
  - exact restingCell_at_rest.
Defined.

(** *** breakConstraints *)

(* the number of broken constraints *)
Definition brokenCount (cs : list Constraint.t) : nat :=
  length (List.filter Constraint.broken cs).

Lemma brokenCount_break (hit : Constraint.t -> bool) (cs : list Constraint.t) :
  (forall c, hit c = true -> Constraint.broken c = false) ->
  brokenCount (map (fun c => if hit c then Constraint.set_broken c true else c) cs)
    = (brokenCount cs + length (List.filter hit cs))%nat.
Proof.
  intros H. unfold brokenCount. induction cs as [|c cs IH]; [reflexivity|].
  cbn [map List.filter]. destruct (hit c) eqn:Hc.
  - rewrite (H c Hc). cbn [Constraint.broken Constraint.set_broken length].
    rewrite IH. lia.
  - destruct (Constraint.broken c); cbn [length]; rewrite IH; lia.
Qed.

(** X9. [breakConstraints(predicate)] returns the number of constraints it
    has just broken: the count of broken constraints grows by exactly the
    returned number.  It touches no particle, neither the start flag nor the
    number of constraints, and a second call with the same predicate finds
    nothing left to break: it returns 0 and changes nothing. *)
Lemma breakConstraints_count
  (predicate : Constraint.t -> list Particle.t -> bool) (cl : Cloth) :
  let r := breakConstraints predicate cl in
  particles r.2 = particles cl /\
  physicsEnabled r.2 = physicsEnabled cl /\
  length (constraints r.2) = length (constraints cl) /\
  brokenCount (constraints r.2) = (brokenCount (constraints cl) + r.1)%nat /\
  breakConstraints predicate r.2 = (0%nat, r.2).
Proof.
  intros r. subst r. unfold breakConstraints.
  cbv beta iota zeta delta [fst snd].
  change (particles (set_constraints cl ?cs)) with (particles cl).
  change (constraints (set_constraints cl ?cs)) with cs.
  set (hit := fun c => negb (Constraint.broken c) && predicate c (particles cl)).
  set (brk := fun c => if hit c then Constraint.set_broken c true else c).
  split; [reflexivity|]. split; [reflexivity|].
  split; [apply length_map|]. split.
  - apply (brokenCount_break hit). intros c Hc. unfold hit in Hc.
    apply andb_prop in Hc. destruct Hc as [Hc _]. now apply negb_true_iff.
  - assert (Hbrk : forall c, hit (brk c) = false).
    { intros c. unfold brk. destruct (hit c) eqn:Hc; [reflexivity|exact Hc]. }
    assert (E1 : List.filter hit (map brk (constraints cl)) = []).
    { induction (constraints cl) as [|c cs IH]; [reflexivity|].
      cbn [map List.filter]. now rewrite Hbrk. }
    assert (E2 : map brk (map brk (constraints cl)) = map brk (constraints cl)).
    { rewrite map_map. apply map_ext. intros c. unfold brk at 1.
      now rewrite Hbrk. }
    change ((length (List.filter hit (map brk (constraints cl))),
             set_constraints (set_constraints cl (map brk (constraints cl)))
               (map brk (map brk (constraints cl))))
            = (0%nat, set_constraints cl (map brk (constraints cl)))).
    rewrite E1, E2. reflexivity.
Qed.

(** *** applyPreSagOnTopRow: what the shaping pass may move *)

Lemma sagTo_sagTo (p : Particle.t) (v v' : R) :
  sagTo (sagTo p v) v' = sagTo p v'.
Proof. reflexivity. Qed.

(* what the shaping pass can make of the particle at place [i]: the same
   particle, or, if it is a free particle of the top row, the particle with
   the y of [position] and of [previous] set to one value *)
Definition sagged (segX i : nat) (p q : Particle.t) : Prop :=
  q = p \/
  (Particle.pinned p = false /\ (i <= segX)%nat /\ exists v, q = sagTo p v).

Definition saggedStore (segX : nat) (ps qs : list Particle.t) : Prop :=
  forall i p, ps !! i = Some p -> exists q, qs !! i = Some q /\ sagged segX i p q.

Lemma saggedStore_refl (segX : nat) (ps : list Particle.t) :
  saggedStore segX ps ps.
Proof. intros i p H. exists p. split; [exact H|now left]. Qed.

Lemma saggedStore_trans (segX : nat) (ps qs rs : list Particle.t) :
  saggedStore segX ps qs -> saggedStore segX qs rs -> saggedStore segX ps rs.
Proof.
  intros H1 H2 i p Hp. destruct (H1 i p Hp) as (q & Hq & S1).
  destruct (H2 i q Hq) as (r & Hr & S2). exists r. split; [exact Hr|].
  destruct S1 as [->|(Hf & Hi & v & ->)]; [exact S2|].
  destruct S2 as [->|(_ & _ & v' & ->)].
  - right. eauto.
  - right. rewrite sagTo_sagTo. eauto.
Qed.

Lemma saggedStore_fold {X : Type} (segX : nat)
  (f : list Particle.t -> X -> list Particle.t) (xs : list X)
  (ps : list Particle.t) :
  (forall ps x, saggedStore segX ps (f ps x)) ->
  saggedStore segX ps (fold_left f xs ps).
Proof.
  intros Hf. revert ps. induction xs as [|x xs IH]; intros ps;
    [apply saggedStore_refl|].
  cbn [fold_left]. eapply saggedStore_trans; [apply Hf|apply IH].
Qed.

Lemma sagColumn_sagged (segX leftCol spanCols : nat) (maxSag yBaseline : R)
  (ps : list Particle.t) (col : nat) :
  saggedStore segX ps
    (sagColumn (topRowIndices segX) leftCol spanCols maxSag yBaseline ps col).
Proof.
  unfold sagColumn.
  destruct (topRowIndices segX !! col) as [idx|] eqn:Hc; [|apply saggedStore_refl].
  rewrite topRowIndices_seq in Hc. apply lookup_seq in Hc. destruct Hc as [-> Hc].
  destruct (ps !! (0 + col)%nat) as [p|] eqn:Hp; [|apply saggedStore_refl].
  destruct (Particle.pinned p) eqn:Hpin; [apply saggedStore_refl|].
  intros i q Hq. destruct (decide (i = (0 + col)%nat)) as [->|N].
  - rewrite Hp in Hq. injection Hq as <-. eexists. split.
    + apply list_lookup_insert_eq. apply lookup_lt_is_Some. eauto.
    + right. split; [exact Hpin|]. split; [lia|]. eauto.
  - exists q. split; [now rewrite list_lookup_insert_ne|now left].
Qed.

Lemma sagSpan_sagged (segX : nat) (dx : R) (pinnedCols : list nat)
  (ps : list Particle.t) (a : nat) :
  saggedStore segX ps (sagSpan dx (topRowIndices segX) pinnedCols ps a).
Proof.
  unfold sagSpan.
  destruct (pinnedCols !! a) as [leftCol|]; [|apply saggedStore_refl].
  destruct (pinnedCols !! (a + 1)%nat) as [rightCol|]; [|apply saggedStore_refl].
  destruct (_ <=? 1)%nat; [apply saggedStore_refl|].
  destruct (topRowIndices segX !! leftCol); [|apply saggedStore_refl].
  destruct (topRowIndices segX !! rightCol); [|apply saggedStore_refl].
  destruct (ps !! n); [|apply saggedStore_refl].
  destruct (ps !! n0); [|apply saggedStore_refl].
  apply saggedStore_fold. intros. apply sagColumn_sagged.
Qed.

(** X10. The shaping pass [applyPreSagOnTopRow] leaves every particle in its
    place and, of a particle, changes at most the y coordinate of [position]
    and of [previous], both set to one value; it does so only to free
    particles of the top row.  Pinned particles and all rows below the top
    one come out exactly as they went in, for any number of repeats. *)
Lemma applyPreSagOnTopRow_moves (repeat : nat) (cl : Cloth) (i : nat)
  (p : Particle.t) :
  particles cl !! i = Some p ->
  exists q, particles (applyPreSagOnTopRow repeat cl) !! i = Some q /\
    (q = p \/
     (Particle.pinned p = false /\ (i <= segmentsX cl)%nat /\
      exists v, q = sagTo p v)).
Proof.
  revert i p.
  change (saggedStore (segmentsX cl) (particles cl)
            (particles (applyPreSagOnTopRow repeat cl))).
  unfold applyPreSagOnTopRow. destruct (_ <? 2)%nat; [apply saggedStore_refl|].
  cbv zeta. change (particles (set_particles cl ?ps)) with ps.
  apply saggedStore_fold. intros ps _.
  apply saggedStore_fold. intros. apply sagSpan_sagged.
Qed.

Lemma applyPreSagOnTopRow_moves_witness :
  exists q, particles (applyPreSagOnTopRow 3 anchoredCloth) !! 1%nat = Some q /\
    (q = Particle.new 1 4 0 1 \/
     (Particle.pinned (Particle.new 1 4 0 1) = false /\
      (1 <= segmentsX anchoredCloth)%nat /\
      exists v, q = sagTo (Particle.new 1 4 0 1) v)).
Proof.
  apply (applyPreSagOnTopRow_moves 3 anchoredCloth 1 (Particle.new 1 4 0 1)).
  reflexivity.
Defined.

(** *** startSimulation: the release *)

Lemma satisfyRounds_pinned (rounds : list nat) (cl : Cloth) :
  Particle.pinned
    <$> particles
          (fold_left
             (fun c _ => set_particles c (satisfyAll (constraints c) (particles c)))
             rounds cl)
  = Particle.pinned <$> particles cl.
Proof.
  apply (fold_left_preserves (fun c => Particle.pinned <$> particles c)).
  intros c _. apply satisfyAll_pinned.
Qed.

Lemma isPinnedAt_imap (f : nat -> Particle.t -> Particle.t)
  (ps : list Particle.t) (i : nat) :
  isPinnedAt (imap f ps) i
    = match ps !! i with
      | Some p => Particle.pinned (f i p)
      | None => false
      end.
Proof.
  unfold isPinnedAt. rewrite list_lookup_imap. now destruct (ps !! i).
Qed.

(* the pin flags [startSimulation] leaves when it returns true *)
Lemma startSimulation_pins (cl : Cloth) :
  (startSimulation cl).1 = true ->
  length (particles (startSimulation cl).2) = length (particles cl) /\
  forall i,
    isPinnedAt (particles (startSimulation cl).2) i
      = isPinnedAt (particles cl) i && (i <=? segmentsX cl)%nat.
Proof.
  unfold startSimulation.
  destruct (negb (existsb (isPinnedAt (particles cl))
                    (topRowIndices (segmentsX cl)))); [discriminate|].
  intros _. cbv beta iota zeta delta [snd].
  set (cl1 := fold_left _ (seq 0 12) cl).
  set (cl2 := applyPreSagOnTopRow 1 cl1).
  cbv beta iota delta [particles set_particles set_physicsEnabled].
  fold (particles cl2) (particles cl). unfold cl2.
  assert (Hpin : Particle.pinned <$> particles (applyPreSagOnTopRow 1 cl1)
                 = Particle.pinned <$> particles cl).
  { rewrite applyPreSagOnTopRow_pinned. apply satisfyRounds_pinned. }
  split.
  - rewrite length_imap.
    rewrite <- (length_fmap Particle.pinned), Hpin. apply length_fmap.
  - intros i. rewrite isPinnedAt_imap.
    rewrite <- (isPinnedAt_fmap _ _ Hpin i). unfold isPinnedAt.
    destruct (particles (applyPreSagOnTopRow 1 cl1) !! i) as [p|]; [|reflexivity].
    rewrite includes_topRow_nat.
    destruct (i <=? segmentsX cl)%nat; simpl;
      [now rewrite andb_true_r|now rewrite andb_false_r].
Qed.

(** X11. When [startSimulation] returns true it releases the cloth: every
    particle below the top row is unpinned, and the particles of the top row
    keep the pin flag they had, so the anchors are exactly the pinned
    particles of the top row.  No particle is added or removed. *)
Lemma startSimulation_releases (cl : Cloth) :
  (startSimulation cl).1 = true ->
  length (particles (startSimulation cl).2) = length (particles cl) /\
  (forall i, (segmentsX cl < i)%nat ->
     isPinnedAt (particles (startSimulation cl).2) i = false) /\
  (forall i, (i <= segmentsX cl)%nat ->
     isPinnedAt (particles (startSimulation cl).2) i
       = isPinnedAt (particles cl) i).
Proof.
  intros Hr. destruct (startSimulation_pins cl Hr) as [Hl Hp].
  split; [exact Hl|]. split; intros i Hi; rewrite Hp.
  - destruct (Nat.leb_spec i (segmentsX cl)); [lia|apply andb_false_r].
  - destruct (Nat.leb_spec i (segmentsX cl)); [apply andb_true_r|lia].
Qed.

Lemma startSimulation_releases_witness :
  length (particles (startSimulation anchoredCloth).2)
    = length (particles anchoredCloth) /\
  isPinnedAt (particles (startSimulation anchoredCloth).2) 0
    = isPinnedAt (particles anchoredCloth) 0.
Proof.
  destruct (startSimulation_releases anchoredCloth) as (H1 & _ & H3);
    [reflexivity|].
  split; [exact H1|]. apply H3. simpl. lia.
Defined.

(** *** Once started: no new pins, no stop *)

Lemma visit_pinned_flags (tf : R) (c : Constraint.t) (ps : list Particle.t) :
  Particle.pinned <$> (visit tf c ps).2 = Particle.pinned <$> ps.
Proof.
  unfold visit. destruct (Constraint.broken c); [reflexivity|].
  destruct (ps !! Constraint.p1 c); [|reflexivity].
  destruct (ps !! Constraint.p2 c); [|reflexivity].
  destruct (Rlt_dec _ _); [reflexivity|]. now apply satisfy_fields.
Qed.

Lemma visitAt_pinned_flags (tf : R) (st : list Constraint.t * list Particle.t)
  (j : nat) :
  Particle.pinned <$> (visitAt tf st j).2 = Particle.pinned <$> st.2.
Proof.
  unfold visitAt. destruct (st.1 !! j) as [c|]; [|reflexivity].
  pose proof (visit_pinned_flags tf c st.2) as H.
  now destruct (visit tf c st.2).
Qed.

Lemma relaxationPass_pinned_flags (tf : R)
  (st : list Constraint.t * list Particle.t) (i : nat) :
  Particle.pinned <$> (relaxationPass tf st i).2 = Particle.pinned <$> st.2.
Proof.
  unfold relaxationPass, reversePass, forwardPass.
  destruct (Nat.eqb _ _);
    apply (fold_left_preserves (fun st => Particle.pinned <$> st.2));
    intros; apply visitAt_pinned_flags.
Qed.

Lemma integrate_pinned_flag (deltaTime damping : R) (p : Particle.t) :
  Particle.pinned (Particle.integrate deltaTime damping p) = Particle.pinned p.
Proof. unfold Particle.integrate. now destruct (Particle.pinned p) eqn:E. Qed.

Lemma addForce_pinned_flag (force : Vector3) (p : Particle.t) :
  Particle.pinned (Particle.addForce force p) = Particle.pinned p.
Proof. unfold Particle.addForce. now destruct (Req_dec_T _ _). Qed.

(* [step] changes no pin flag and not the start flag *)
Lemma step_pinned_flags (deltaTime : R) (cl : Cloth) :
  Particle.pinned <$> particles (step deltaTime cl)
    = Particle.pinned <$> particles cl /\
  physicsEnabled (step deltaTime cl) = physicsEnabled cl.
Proof.
  unfold step. destruct (physicsEnabled cl) eqn:He;
    cbv beta iota zeta delta [negb]; [|now split].
  split; [|exact He].
  cbv beta iota delta [particles set_constraints set_particles].
  fold (particles cl).
  rewrite (fold_left_preserves (fun st => Particle.pinned <$> st.2)
             (relaxationPass (tearFactor cl)))
    by (intros; apply relaxationPass_pinned_flags).
  cbn [snd]. rewrite <- !list_fmap_compose. apply list_fmap_ext.
  intros i p _. cbn. now rewrite integrate_pinned_flag, addForce_pinned_flag.
Qed.

Lemma togglePin_started (index : Z) (cl : Cloth) :
  physicsEnabled cl = true -> togglePin index cl = (false, cl).
Proof.
  intros He. unfold togglePin.
  destruct (particleAt (particles cl) index); [|reflexivity].
  rewrite He. now destruct (negb _).
Qed.

(* what a command may do to a started cloth *)
Lemma run_started (cmd : Command) (cl : Cloth) :
  physicsEnabled cl = true ->
  physicsEnabled (run cl cmd) = true /\
  length (particles (run cl cmd)) = length (particles cl) /\
  forall i, isPinnedAt (particles (run cl cmd)) i = true ->
            isPinnedAt (particles cl) i = true.
Proof.
  intros He. destruct cmd as [deltaTime|index| |predicate]; cbn [run].
  - destruct (step_pinned_flags deltaTime cl) as [Hp Hs].
    split; [now rewrite Hs|]. split.
    + rewrite <- (length_fmap Particle.pinned), Hp. apply length_fmap.
    + intros i. now rewrite (isPinnedAt_fmap _ _ Hp i).
  - rewrite togglePin_started by exact He. now repeat split.
  - destruct (startSimulation cl).1 eqn:Hr.
    + destruct (startSimulation_pins cl Hr) as [Hl Hp].
      split; [|split; [exact Hl|]].
      * revert Hr. unfold startSimulation. destruct (negb _); [discriminate|].
        reflexivity.
      * intros i. rewrite Hp. intros H. now apply andb_prop in H.
    + assert (E : (startSimulation cl).2 = cl).
      { revert Hr. unfold startSimulation. destruct (negb _); [reflexivity|].
        discriminate. }
      rewrite E. now repeat split.
  - now repeat split.
Qed.

(** X12. Once the simulation has been started nothing stops it and nothing
    pins a particle again: after any sequence of [step], [togglePin],
    [startSimulation] and [breakConstraints] calls the start flag is still
    set, the cloth has the same number of particles, every particle that is
    pinned was pinned at the beginning, and [togglePin] is refused for every
    index. *)
Lemma session_stays_started (cmds : list Command) (cl : Cloth) :
  physicsEnabled cl = true ->
  let cl' := fold_left run cmds cl in
  physicsEnabled cl' = true /\
  length (particles cl') = length (particles cl) /\
  (forall i, isPinnedAt (particles cl') i = true ->
             isPinnedAt (particles cl) i = true) /\
  forall index, togglePin index cl' = (false, cl').
Proof.
  intros He cl'. subst cl'.
  assert (G : physicsEnabled (fold_left run cmds cl) = true /\
              length (particles (fold_left run cmds cl)) = length (particles cl) /\
              forall i, isPinnedAt (particles (fold_left run cmds cl)) i = true ->
                        isPinnedAt (particles cl) i = true).
  { revert cl He. induction cmds as [|cmd cmds IH]; intros cl He;
      [now repeat split|].
    cbn [fold_left]. destruct (run_started cmd cl He) as (H1 & H2 & H3).
    destruct (IH _ H1) as (G1 & G2 & G3).
    split; [exact G1|]. split; [now rewrite G2|].
    intros i Hi. apply H3. now apply G3. }
  destruct G as (G1 & G2 & G3). repeat split; try assumption.
  intros index. now apply togglePin_started.
Qed.

Lemma session_stays_started_witness :
  let cl' :=
    fold_left run [Step 0.016; TogglePin 1; StartSimulation; Step 0.016]
      (set_physicsEnabled anchoredCloth true) in
  physicsEnabled cl' = true /\
  length (particles cl')
    = length (particles (set_physicsEnabled anchoredCloth true)) /\
  (forall i, isPinnedAt (particles cl') i = true ->
             isPinnedAt (particles (set_physicsEnabled anchoredCloth true)) i = true) /\
  forall index, togglePin index cl' = (false, cl').
Proof.
  apply (session_stays_started
           [Step 0.016; TogglePin 1; StartSimulation; Step 0.016]
           (set_physicsEnabled anchoredCloth true)).
  reflexivity.
Defined.

(** *** A torn cloth in free fall *)

(* a free particle with positive mass that is not moving upwards and has no
   upward acceleration pending *)
Definition falling (p : Particle.t) : Prop :=
  Particle.pinned p = false /\ 0 < Particle.inverseMass p /\
  THREE.y (Particle.acceleration p) <= 0 /\
  THREE.y (Particle.position p) <= THREE.y (Particle.previous p).

(* gravity then integration, on one falling particle *)
Lemma fall_once (g : Vector3) (deltaTime damping : R) (p : Particle.t) :
  THREE.y g < 0 -> damping <= 1 -> deltaTime <> 0 -> falling p ->
  let q := Particle.integrate deltaTime damping (Particle.addForce g p) in
  falling q /\
  THREE.y (Particle.position q) < THREE.y (Particle.position p) /\
  Particle.previous q = Particle.position p.
Proof.
  intros Hg Hd Ht (Hfree & Hm & Ha & Hv) q. subst q.
  unfold Particle.addForce. destruct (Req_dec_T _ 0) as [E|_]; [lra|].
  unfold Particle.integrate. simpl. rewrite Hfree.
  assert (H1 : 0 < deltaTime * deltaTime) by nra.
  assert (H2 : THREE.y g * Particle.inverseMass p < 0) by nra.
  assert (H3 : (THREE.y (Particle.position p) - THREE.y (Particle.previous p))
               * (1 - damping) <= 0) by nra.
  assert (H4 : (THREE.y (Particle.acceleration p)
                + THREE.y g * Particle.inverseMass p)
               * (deltaTime * deltaTime) < 0) by nra.
  unfold falling. simpl. repeat split; try assumption; lra.
Qed.

(* the constraint loop of [step] on a cloth whose constraints are all broken *)
Lemma relaxation_all_broken (tf : R) (rounds : list nat)
  (cs : list Constraint.t) (ps : list Particle.t) :
  (forall c, In c cs -> Constraint.broken c = true) ->
  fold_left (relaxationPass tf) rounds (cs, ps) = (cs, ps).
Proof.
  intros Hb.
  assert (V : forall j, visitAt tf (cs, ps) j = (cs, ps)).
  { intros j. destruct (cs !! j) as [c|] eqn:Hc.
    - apply visitAt_broken. exists c. split; [exact Hc|]. apply Hb.
      apply list_elem_of_In. now apply (list_elem_of_lookup_2 cs j).
    - unfold visitAt. cbn [fst]. now rewrite Hc. }
  assert (F : forall js, fold_left (visitAt tf) js (cs, ps) = (cs, ps)).
  { induction js as [|j js IH]; [reflexivity|]. cbn [fold_left]. now rewrite V. }
  induction rounds as [|i rounds IH]; [reflexivity|].
  cbn [fold_left]. unfold relaxationPass at 2, reversePass, forwardPass.
  destruct (Nat.eqb _ _); rewrite F; exact IH.
Qed.

Lemma step_torn (deltaTime : R) (cl : Cloth) :
  physicsEnabled cl = true ->
  (forall c, In c (constraints cl) -> Constraint.broken c = true) ->
  step deltaTime cl
    = set_particles cl
        (map (Particle.integrate deltaTime (damping cl))
           (map (Particle.addForce (gravity cl)) (particles cl))).
Proof.
  intros He Hb. unfold step. rewrite He. cbv beta iota zeta delta [negb].
  rewrite relaxation_all_broken by exact Hb. now destruct cl.
Qed.

(* successive calls of [step], one per time step of the list *)
Definition steps (deltaTimes : list R) (cl : Cloth) : Cloth :=
  fold_left (fun c deltaTime => step deltaTime c) deltaTimes cl.

(** X13. In a started cloth whose constraints are all broken, a free particle
    of positive mass that is not moving upwards falls: with gravity pointing
    down, damping at most 1 and time steps different from zero, after any
    number of [step] calls it is still falling and its height is at most
    what it was, strictly below it after at least one step. *)
Lemma torn_cloth_falls (deltaTimes : list R) (cl : Cloth) (i : nat)
  (p : Particle.t) :
  physicsEnabled cl = true ->
  (forall c, In c (constraints cl) -> Constraint.broken c = true) ->
  THREE.y (gravity cl) < 0 -> damping cl <= 1 ->
  (forall t, In t deltaTimes -> t <> 0) ->
  particles cl !! i = Some p -> falling p ->
  exists q, particles (steps deltaTimes cl) !! i = Some q /\
    falling q /\
    THREE.y (Particle.position q) <= THREE.y (Particle.position p) /\
    (deltaTimes <> [] ->
     THREE.y (Particle.position q) < THREE.y (Particle.position p)).
Proof.
  unfold steps. revert cl p.
  induction deltaTimes as [|t ts IH]; intros cl p He Hb Hg Hd Ht Hp Hf.
  - exists p. cbn [fold_left]. repeat split; try assumption; try apply Hf; [lra|].
    intros N. now contradiction N.
  - cbn [fold_left]. rewrite step_torn by assumption.
    destruct (fall_once (gravity cl) t (damping cl) p Hg Hd
                (Ht t (or_introl eq_refl)) Hf) as (Hq & Hlt & _).
    set (q := Particle.integrate t (damping cl)
                (Particle.addForce (gravity cl) p)) in *.
    destruct (IH (set_particles cl
                    (map (Particle.integrate t (damping cl))
                       (map (Particle.addForce (gravity cl)) (particles cl))))
                 q) as (r & Hr & Hfr & Hle & _);
      try assumption.
    + intros t' Ht'. apply Ht. now right.
    + cbn [particles set_particles]. rewrite !lookup_map, Hp. reflexivity.
    + exists r. split; [exact Hr|]. split; [exact Hfr|]. split; [lra|].
      intros _. lra.
Qed.

Lemma torn_cloth_falls_witness :
  exists q, particles (steps [0.016; 0.016] fallingCloth) !! 0%nat = Some q /\
    falling q /\
    THREE.y (Particle.position q) <= 0 /\
    ([0.016; 0.016] <> [] -> THREE.y (Particle.position q) < 0).
Proof.
  apply (torn_cloth_falls [0.016; 0.016] fallingCloth 0
           (Particle.mk THREE.zero THREE.zero THREE.zero 1 false THREE.zero)).
  - reflexivity.
  - intros c [].
  - simpl. lra.
  - simpl. lra.
  - intros t [<-|[<-|[]]]; lra.
  - reflexivity.
  - unfold falling. simpl. repeat split; lra.
Defined.

(** *** A particle of no mass *)

(** X14. A particle constructed with a mass that is not positive is a static
    body: its inverse mass is 0, [addForce] ignores every force, [integrate]
    leaves it where the constructor put it whatever the time step and the
    damping, and [satisfy] never moves it, being the first or the second
    endpoint of the constraint. *)
Lemma massless_particle_static (x y z mass : R) :
  mass <= 0 ->
  let p := Particle.new x y z mass in
  Particle.inverseMass p = 0 /\
  (forall force, Particle.addForce force p = p) /\
  (forall force deltaTime damping,
     Particle.integrate deltaTime damping (Particle.addForce force p) = p) /\
  (forall c b, (Constraint.satisfyPair c p b).1 = p) /\
  (forall c a, (Constraint.satisfyPair c a p).2 = p).
Proof.
  intros Hm p. subst p. unfold Particle.new.
  destruct (Rlt_dec 0 mass) as [|_]; [lra|].
  assert (Hadd : forall force,
            Particle.addForce force
              (Particle.mk (THREE.Vec3 x y z) (THREE.Vec3 x y z) THREE.zero 0
                 false THREE.zero)
            = Particle.mk (THREE.Vec3 x y z) (THREE.Vec3 x y z) THREE.zero 0
                false THREE.zero).
  { intros force. unfold Particle.addForce. cbn [Particle.inverseMass].
    destruct (Req_dec_T 0 0); [reflexivity|lra]. }
  split; [reflexivity|]. split; [exact Hadd|]. split; [|split].
  - intros force deltaTime damping. rewrite Hadd. unfold Particle.integrate.
    cbn. unfold Particle.set_acceleration, Particle.set_previous,
      Particle.set_position. cbn. f_equal. vec_eq.
  - intros c b. unfold Constraint.satisfyPair.
    destruct (Constraint.broken c); [reflexivity|].
    destruct (Req_dec_T _ 0); [reflexivity|].
    destruct (Req_dec_T _ 0); [reflexivity|].
    cbn [fst Particle.pinned Particle.inverseMass Particle.position].
    replace (0 / _ * _) with 0 by (unfold Rdiv; lra).
    now rewrite addScaledVector_0.
  - intros c a. unfold Constraint.satisfyPair.
    destruct (Constraint.broken c); [reflexivity|].
    destruct (Req_dec_T _ 0); [reflexivity|].
    destruct (Req_dec_T _ 0); [reflexivity|].
    cbn [snd Particle.pinned Particle.inverseMass Particle.position].
    replace (- (0 / _ * _)) with 0 by (unfold Rdiv; lra).
    now rewrite addScaledVector_0.
Qed.

Lemma massless_particle_static_witness :
  Particle.inverseMass (Particle.new 1 4 0 0) = 0 /\
  (forall force, Particle.addForce force (Particle.new 1 4 0 0)
                 = Particle.new 1 4 0 0) /\
  (forall force deltaTime damping,
     Particle.integrate deltaTime damping
       (Particle.addForce force (Particle.new 1 4 0 0))
     = Particle.new 1 4 0 0).
Proof.
  destruct (massless_particle_static 1 4 0 0) as (H1 & H2 & H3 & _); [lra|].
  exact (conj H1 (conj H2 H3)).
Defined.

(** *** step with whole constraints: the time step is the caller's *)












End ClothJsFacts.

(** ** src/main.js *)

Module MainJsFacts.
Import MainJs.

(** *** attachToPivots: the search for the nearest top-row particle *)

(* what the search reads of a particle: its row and its original position *)
Definition gridKey (p : Particle.t) : nat * Vector3 :=
  (Particle.y p, Particle.originalPosition p).

Definition distOriginal (pivotPos : Vector3) (p : Particle.t) : R :=
  THREE.distanceTo (Particle.originalPosition p) pivotPos.

Section NearestSearch.

Variable pivotPos : Vector3.

Lemma nearerTop_key (acc : option (nat * R)) (i : nat)
  (p p' : Particle.t) :
  gridKey p = gridKey p' ->
  nearerTop pivotPos acc (i, p) = nearerTop pivotPos acc (i, p').
Proof.
  unfold gridKey, nearerTop. intros E. injection E as Ey Eo. now rewrite Ey, Eo.
Qed.

Lemma nearest_fold_key (ps ps' : list Particle.t) :
  gridKey <$> ps = gridKey <$> ps' ->
  forall (g : nat -> nat) (acc : option (nat * R)),
    fold_left (nearerTop pivotPos) (imap (fun i => pair (g i)) ps) acc
    = fold_left (nearerTop pivotPos) (imap (fun i => pair (g i)) ps') acc.
Proof.
  revert ps'. induction ps as [|p ps IH]; intros [|p' ps'] E g acc;
    try discriminate; [reflexivity|].
  rewrite !fmap_cons in E.
  assert (Ep : gridKey p = gridKey p')
    by (apply (f_equal head) in E; simpl in E; congruence).
  apply (f_equal tail) in E as Eps. simpl in Eps.
  rewrite !imap_cons. cbn [fold_left].
  rewrite (nearerTop_key acc (g 0%nat) p p' Ep).
  apply (IH ps' Eps (fun i => g (S i))).
Qed.

(* the search does not depend on anything but rows and original positions *)
Lemma nearestTop_key (ps ps' : list Particle.t) :
  gridKey <$> ps = gridKey <$> ps' ->
  nearestTop pivotPos ps = nearestTop pivotPos ps'.
Proof.
  intros E. exact (nearest_fold_key ps ps' E (fun i => i) None).
Qed.

(* the state of the search after the pairs [seen] *)
Definition nearestOf (seen : list (nat * Particle.t))
  (acc : option (nat * R)) : Prop :=
  match acc with
  | None => forall j q, In (j, q) seen -> Particle.y q <> 0%nat
  | Some (i, d) =>
      exists p, In (i, p) seen /\ Particle.y p = 0%nat /\
        d = distOriginal pivotPos p /\
        forall j q, In (j, q) seen -> Particle.y q = 0%nat ->
          d <= distOriginal pivotPos q
  end.

Lemma nearerTop_step (seen : list (nat * Particle.t))
  (acc : option (nat * R)) (ip : nat * Particle.t) :
  nearestOf seen acc ->
  nearestOf (seen ++ [ip]) (nearerTop pivotPos acc ip).
Proof.
  destruct ip as [i p]. unfold nearerTop. fold (distOriginal pivotPos p).
  destruct (Nat.eqb_spec (Particle.y p) 0) as [Hy|Hy].
  - destruct acc as [[i0 d0]|]; simpl.
    + intros (p0 & Hin & Hy0 & Hd & Hmin).
      destruct (Rlt_dec _ _) as [Hlt|Hge]; simpl.
      * exists p. split; [apply in_or_app; right; now left|].
        split; [exact Hy|]. split; [reflexivity|].
        intros j q Hq Hyq. apply in_app_or in Hq.
        destruct Hq as [Hq|[Hq|[]]].
        -- specialize (Hmin j q Hq Hyq). lra.
        -- injection Hq as _ <-. lra.
      * exists p0. split; [apply in_or_app; now left|].
        split; [exact Hy0|]. split; [exact Hd|].
        intros j q Hq Hyq. apply in_app_or in Hq.
        destruct Hq as [Hq|[Hq|[]]].
        -- now apply (Hmin j q).
        -- injection Hq as _ <-. lra.
    + intros Hnone. exists p. split; [apply in_or_app; right; now left|].
      split; [exact Hy|]. split; [reflexivity|].
      intros j q Hq Hyq. apply in_app_or in Hq.
      destruct Hq as [Hq|[Hq|[]]].
      * now destruct (Hnone j q Hq).
      * injection Hq as _ <-. lra.
  - destruct acc as [[i0 d0]|]; simpl.
    + intros (p0 & Hin & Hy0 & Hd & Hmin).
      exists p0. split; [apply in_or_app; now left|].
      split; [exact Hy0|]. split; [exact Hd|].
      intros j q Hq Hyq. apply in_app_or in Hq.
      destruct Hq as [Hq|[Hq|[]]].
      * now apply (Hmin j q).
      * injection Hq as _ <-. contradiction.
    + intros Hnone j q Hq. apply in_app_or in Hq.
      destruct Hq as [Hq|[Hq|[]]].
      * now apply (Hnone j q).
      * injection Hq as _ <-. exact Hy.
Qed.

Lemma nearest_fold (l seen : list (nat * Particle.t))
  (acc : option (nat * R)) :
  nearestOf seen acc ->
  nearestOf (seen ++ l) (fold_left (nearerTop pivotPos) l acc).
Proof.
  revert seen acc. induction l as [|ip l IH]; intros seen acc H; simpl.
  - now rewrite app_nil_r.
  - replace (seen ++ ip :: l) with ((seen ++ [ip]) ++ l)
      by now rewrite <- app_assoc.
    apply IH. now apply nearerTop_step.
Qed.

Lemma In_imap_pair (ps : list Particle.t) (j : nat) (q : Particle.t) :
  In (j, q) (imap pair ps) <-> ps !! j = Some q.
Proof.
  rewrite <- list_elem_of_In, elem_of_lookup_imap. split.
  - intros (i & x & E & H). now injection E as -> ->.
  - intros H. now exists j, q.
Qed.

(* the search returns a top-row particle at least as near, by original
   position, as every top-row particle *)
Lemma nearestTop_spec (ps : list Particle.t) (i : nat) (d : R) :
  nearestTop pivotPos ps = Some (i, d) ->
  exists p, ps !! i = Some p /\ Particle.y p = 0%nat /\
    d = distOriginal pivotPos p /\
    forall j q, ps !! j = Some q -> Particle.y q = 0%nat ->
      d <= distOriginal pivotPos q.
Proof.
  intros H.
  assert (N : nearestOf ([] ++ imap pair ps) (nearestTop pivotPos ps)).
  { apply nearest_fold. intros j q []. }
  rewrite H in N. simpl in N. destruct N as (p & Hin & Hy & Hd & Hmin).
  exists p. split; [now apply In_imap_pair|]. split; [exact Hy|].
  split; [exact Hd|]. intros j q Hq Hyq.
  apply (Hmin j q); [now apply In_imap_pair|exact Hyq].
Qed.

(* it finds nothing only when the list has no top-row particle *)
Lemma nearestTop_None (ps : list Particle.t) :
  nearestTop pivotPos ps = None ->
  forall j q, ps !! j = Some q -> Particle.y q <> 0%nat.
Proof.
  intros H.
  assert (N : nearestOf ([] ++ imap pair ps) (nearestTop pivotPos ps)).
  { apply nearest_fold. intros j q []. }
  rewrite H in N. simpl in N. intros j q Hq. apply (N j q).
  now apply In_imap_pair.
Qed.

(* the search over a list with one more particle at its end *)
Lemma nearestTop_snoc (ps : list Particle.t) (q : Particle.t) :
  nearestTop pivotPos (ps ++ [q])
    = nearerTop pivotPos (nearestTop pivotPos ps) (length ps, q).
Proof.
  unfold nearestTop. rewrite imap_app, fold_left_app. cbn [imap fold_left].
  now rewrite Nat.add_0_r.
Qed.

(* of equally near top-row particles the first in the array is taken: every
   top-row particle before the selected one is strictly farther *)
Lemma nearestTop_first (ps : list Particle.t) (i : nat) (d : R) :
  nearestTop pivotPos ps = Some (i, d) ->
  forall j q, (j < i)%nat -> ps !! j = Some q -> Particle.y q = 0%nat ->
    d < distOriginal pivotPos q.
Proof.
  revert i d. induction ps as [|p ps IH] using rev_ind; intros i d H;
    [discriminate|].
  rewrite nearestTop_snoc in H. unfold nearerTop in H.
  assert (Hlt : forall i0 d0, nearestTop pivotPos ps = Some (i0, d0) ->
            (i0 < length ps)%nat).
  { intros i0 d0 H0. destruct (nearestTop_spec ps i0 d0 H0) as (p0 & Hp0 & _).
    apply lookup_lt_is_Some. eauto. }
  assert (Hold : forall i0 d0, nearestTop pivotPos ps = Some (i0, d0) ->
            forall j q, (j < i0)%nat -> (ps ++ [p]) !! j = Some q ->
              Particle.y q = 0%nat -> d0 < distOriginal pivotPos q).
  { intros i0 d0 H0 j q Hj Hq. specialize (Hlt i0 d0 H0).
    rewrite lookup_app_l in Hq by lia. now apply (IH i0 d0 H0 j q). }
  destruct (Nat.eqb (Particle.y p) 0).
  - destruct (nearestTop pivotPos ps) as [[i0 m]|] eqn:H0.
    + destruct (Rlt_dec _ m) as [Hd|Hd].
      * injection H as <- <-. intros j q Hj Hq Hy.
        rewrite lookup_app_l in Hq by exact Hj.
        destruct (nearestTop_spec ps i0 m H0) as (_ & _ & _ & _ & Hmin).
        specialize (Hmin j q Hq Hy). unfold distOriginal in *. lra.
      * injection H as <- <-. now apply Hold.
    + injection H as <- <-. intros j q Hj Hq Hy.
      rewrite lookup_app_l in Hq by exact Hj.
      destruct (nearestTop_None ps H0 j q Hq). exact Hy.
  - now apply Hold.
Qed.

End NearestSearch.

(** *** attachToPivots: pinning *)

Lemma attachPivot_selected (pivotPos : Vector3) (ps : list Particle.t)
  (i : nat) (d : R) (p : Particle.t) :
  nearestTop pivotPos ps = Some (i, d) -> d < snapDistance ->
  ps !! i = Some p ->
  attachPivot ps pivotPos = <[i := pinTo pivotPos p]> ps.
Proof.
  intros Hn Hd Hp. unfold attachPivot. rewrite Hn.
  destruct (Rlt_dec _ _); [|contradiction]. now rewrite Hp.
Qed.

(* an anchor with no top-row particle within the snap distance binds nothing *)
Lemma attachPivot_out_of_range (pivotPos : Vector3) (ps : list Particle.t) :
  (forall i d, nearestTop pivotPos ps = Some (i, d) -> snapDistance <= d) ->
  attachPivot ps pivotPos = ps.
Proof.
  intros H. unfold attachPivot.
  destruct (nearestTop pivotPos ps) as [[i d]|]; [|reflexivity].
  specialize (H i d eq_refl). destruct (Rlt_dec _ _); [lra|reflexivity].
Qed.

(* one anchor writes one particle at most *)
Lemma attachPivot_one (pivotPos : Vector3) (ps : list Particle.t) :
  exists i, forall j, j <> i -> attachPivot ps pivotPos !! j = ps !! j.
Proof.
  unfold attachPivot.
  destruct (nearestTop pivotPos ps) as [[i d]|]; [|now exists 0%nat].
  exists i. intros j Hj.
  destruct (Rlt_dec _ _); [|reflexivity].
  destruct (ps !! i); [|reflexivity].
  now rewrite list_lookup_insert_ne.
Qed.

Lemma attachPivot_key (pivotPos : Vector3) (ps : list Particle.t) :
  gridKey <$> attachPivot ps pivotPos = gridKey <$> ps.
Proof.
  unfold attachPivot.
  destruct (nearestTop pivotPos ps) as [[i d]|]; [|reflexivity].
  destruct (Rlt_dec _ _); [|reflexivity].
  destruct (ps !! i) as [p|] eqn:Hp; [|reflexivity].
  now apply (fmap_insert_same gridKey ps i p).
Qed.

Lemma clearPins_key (ps : list Particle.t) :
  gridKey <$> clearPins ps = gridKey <$> ps.
Proof.
  unfold clearPins. induction ps as [|p ps IH]; [reflexivity|].
  simpl. f_equal. exact IH.
Qed.

Lemma clearPins_lookup (ps : list Particle.t) (i : nat) (q : Particle.t) :
  clearPins ps !! i = Some q -> Particle.pinned q = false.
Proof.
  unfold clearPins. rewrite lookup_map.
  destruct (ps !! i); simpl; [|discriminate]. now intros [= <-].
Qed.

(* what holds of the particle list after the anchors [pivots] are processed,
   starting from the cleared copy of [ps] *)
Definition attached (ps : list Particle.t) (pivots : list Vector3)
  (r : list Particle.t) : Prop :=
  gridKey <$> r = gridKey <$> ps /\
  (forall i q, r !! i = Some q -> Particle.pinned q = true ->
     exists pivotPos d, In pivotPos pivots /\
       nearestTop pivotPos ps = Some (i, d) /\ d < snapDistance /\
       Particle.position q = pivotPos /\
       Particle.previousPosition q = pivotPos) /\
  (forall pivotPos i d, In pivotPos pivots ->
     nearestTop pivotPos ps = Some (i, d) -> d < snapDistance ->
     exists q, r !! i = Some q /\ Particle.pinned q = true).

Lemma attached_clear (ps : list Particle.t) : attached ps [] (clearPins ps).
Proof.
  split; [apply clearPins_key|]. split.
  - intros i q Hq Hp. apply clearPins_lookup in Hq. congruence.
  - intros pivotPos i d [].
Qed.

Lemma attached_step (ps : list Particle.t) (pivots : list Vector3)
  (r : list Particle.t) (pivotPos : Vector3) :
  attached ps pivots r ->
  attached ps (pivots ++ [pivotPos]) (attachPivot r pivotPos).
Proof.
  intros (Hk & Hpin & Hsel).
  assert (Hn : nearestTop pivotPos r = nearestTop pivotPos ps)
    by now apply nearestTop_key.
  destruct (nearestTop pivotPos ps) as [[i d]|] eqn:Hps.
  - destruct (Rlt_dec d snapDistance) as [Hd|Hd].
    + destruct (nearestTop_spec pivotPos r i d Hn) as (p & Hp & _).
      rewrite (attachPivot_selected pivotPos r i d p Hn Hd Hp).
      split; [|split].
      * rewrite <- Hk. now apply (fmap_insert_same gridKey r i p).
      * intros j q Hq Hqp. destruct (decide (j = i)) as [->|Nj].
        -- rewrite list_lookup_insert_eq in Hq by (apply lookup_lt_is_Some; eauto).
           injection Hq as <-. exists pivotPos, d.
           split; [apply in_or_app; right; now left|]. now repeat split.
        -- rewrite list_lookup_insert_ne in Hq by congruence.
           destruct (Hpin j q Hq Hqp) as (pv & d' & Hin & Hrest).
           exists pv, d'. split; [apply in_or_app; now left|exact Hrest].
      * intros pv j d' Hin Hnj Hd'.
        destruct (decide (j = i)) as [->|Nj].
        -- exists (pinTo pivotPos p). split; [|reflexivity].
           apply list_lookup_insert_eq. apply lookup_lt_is_Some; eauto.
        -- rewrite list_lookup_insert_ne by congruence.
           apply in_app_or in Hin. destruct Hin as [Hin|[<-|[]]].
           ++ now apply (Hsel pv j d').
           ++ congruence.
    + rewrite attachPivot_out_of_range.
      2:{ intros i' d' E. rewrite Hn in E. injection E as <- <-. lra. }
      split; [exact Hk|]. split.
      * intros j q Hq Hqp. destruct (Hpin j q Hq Hqp) as (pv & d' & Hin & Hrest).
        exists pv, d'. split; [apply in_or_app; now left|exact Hrest].
      * intros pv j d' Hin Hnj Hd'.
        apply in_app_or in Hin. destruct Hin as [Hin|[<-|[]]].
        -- now apply (Hsel pv j d').
        -- rewrite Hps in Hnj. injection Hnj as <- <-. contradiction.
  - rewrite attachPivot_out_of_range.
    2:{ intros i' d' E. rewrite Hn in E. discriminate. }
    split; [exact Hk|]. split.
    + intros j q Hq Hqp. destruct (Hpin j q Hq Hqp) as (pv & d' & Hin & Hrest).
      exists pv, d'. split; [apply in_or_app; now left|exact Hrest].
    + intros pv j d' Hin Hnj Hd'.
      apply in_app_or in Hin. destruct Hin as [Hin|[<-|[]]].
      * now apply (Hsel pv j d').
      * rewrite Hps in Hnj. discriminate.
Qed.

Lemma attached_fold (ps : list Particle.t) (pivots done : list Vector3)
  (r : list Particle.t) :
  attached ps done r ->
  attached ps (done ++ pivots) (fold_left attachPivot pivots r).
Proof.
  revert done r. induction pivots as [|pv pivots IH]; intros done r H; simpl.
  - now rewrite app_nil_r.
  - replace (done ++ pv :: pivots) with ((done ++ [pv]) ++ pivots)
      by now rewrite <- app_assoc.
    apply IH. now apply attached_step.
Qed.

Lemma attachToPivotsOn_attached (pivots : list Vector3) (ps : list Particle.t) :
  attached ps pivots (attachToPivotsOn pivots ps).
Proof.
  unfold attachToPivotsOn.
  apply (attached_fold ps pivots [] (clearPins ps)). apply attached_clear.
Qed.

Lemma key_lookup (r ps : list Particle.t) (i : nat) (q p : Particle.t) :
  gridKey <$> r = gridKey <$> ps -> r !! i = Some q -> ps !! i = Some p ->
  Particle.y q = Particle.y p /\
  Particle.originalPosition q = Particle.originalPosition p.
Proof.
  intros E Hq Hp.
  assert (H : (gridKey <$> r) !! i = (gridKey <$> ps) !! i) by now rewrite E.
  rewrite !list_lookup_fmap, Hq, Hp in H. simpl in H.
  unfold gridKey in H. split; congruence.
Qed.

(** C7. One run of anchor resolution, [attachToPivotsOn pivots ps], on any
    particle list and any anchors.
    - Whatever the pin flags were before, a particle is pinned afterwards only
      if it is in the top row (y = 0) and some anchor of the run selected it:
      it is the top-row particle nearest to that anchor, nearer than the snap
      distance 0.5, and its position and previousPosition are that anchor's
      point.  So no interior-row particle is ever pinned, and with no anchor
      no particle is pinned.
    - Every anchor whose nearest top-row particle is nearer than 0.5 has that
      particle pinned at the end.
    - One anchor writes one particle at most: the selected one, which gets
      the pin flag and the anchor's point as position and previousPosition;
      an anchor with no top-row particle nearer than 0.5 changes nothing.
    - The selected particle is a top-row particle at least as near as every
      other top-row particle. *)
Theorem attachToPivots_contract (pivots : list Vector3) (ps : list Particle.t) :
  let r := attachToPivotsOn pivots ps in
  (forall i q, r !! i = Some q -> Particle.pinned q = true ->
     Particle.y q = 0%nat /\
     exists pivotPos d, In pivotPos pivots /\
       nearestTop pivotPos ps = Some (i, d) /\ d < snapDistance /\
       Particle.position q = pivotPos /\
       Particle.previousPosition q = pivotPos) /\
  (forall i q, r !! i = Some q -> Particle.y q <> 0%nat ->
     Particle.pinned q = false) /\
  (pivots = [] -> forall i q, r !! i = Some q -> Particle.pinned q = false) /\
  (forall pivotPos i d, In pivotPos pivots ->
     nearestTop pivotPos ps = Some (i, d) -> d < snapDistance ->
     exists q, r !! i = Some q /\ Particle.pinned q = true) /\
  (forall pivotPos qs i d p,
     nearestTop pivotPos qs = Some (i, d) -> d < snapDistance ->
     qs !! i = Some p ->
     attachPivot qs pivotPos = <[i := pinTo pivotPos p]> qs /\
     Particle.pinned (pinTo pivotPos p) = true /\
     Particle.position (pinTo pivotPos p) = pivotPos /\
     Particle.previousPosition (pinTo pivotPos p) = pivotPos) /\
  (forall pivotPos qs,
     (forall i d, nearestTop pivotPos qs = Some (i, d) -> snapDistance <= d) ->
     attachPivot qs pivotPos = qs) /\
  (forall pivotPos qs,
     exists i, forall j, j <> i -> attachPivot qs pivotPos !! j = qs !! j) /\
  (forall pivotPos qs i d,
     nearestTop pivotPos qs = Some (i, d) ->
     exists p, qs !! i = Some p /\ Particle.y p = 0%nat /\
       d = THREE.distanceTo (Particle.originalPosition p) pivotPos /\
       forall j q, qs !! j = Some q -> Particle.y q = 0%nat ->
         d <= THREE.distanceTo (Particle.originalPosition q) pivotPos).
Proof.
  intros r. destruct (attachToPivotsOn_attached pivots ps) as (Hk & Hpin & Hsel).
  fold r in Hk, Hpin, Hsel.
  assert (Htop : forall i q, r !! i = Some q -> Particle.pinned q = true ->
            Particle.y q = 0%nat /\
            exists pivotPos d, In pivotPos pivots /\
              nearestTop pivotPos ps = Some (i, d) /\ d < snapDistance /\
              Particle.position q = pivotPos /\
              Particle.previousPosition q = pivotPos).
  { intros i q Hq Hqp. destruct (Hpin i q Hq Hqp) as (pv & d & Hin & Hn & Hrest).
    split; [|now exists pv, d].
    destruct (nearestTop_spec pv ps i d Hn) as (p & Hp & Hy & _).
    destruct (key_lookup r ps i q p Hk Hq Hp) as [Ey _]. congruence. }
  split; [exact Htop|]. split; [|split; [|split; [|split; [|split; [|split]]]]].
  - intros i q Hq Hy. destruct (Particle.pinned q) eqn:Hp; [|reflexivity].
    destruct (Htop i q Hq Hp) as [Hy0 _]. contradiction.
  - intros -> i q Hq. destruct (Particle.pinned q) eqn:Hp; [|reflexivity].
    destruct (Htop i q Hq Hp) as [_ (pv & d & [] & _)].
  - exact Hsel.
  - intros pv qs i d p Hn Hd Hp. split; [|now repeat split].
    now apply (attachPivot_selected pv qs i d p).
  - exact attachPivot_out_of_range.
  - exact attachPivot_one.
  - exact nearestTop_spec.
Qed.

(* two top-row particles and one of the row below.  The first has been cut
   away (inactive) and has drifted far from its place in the grid; the
   second sits, at the moment, exactly on the anchor. *)
Definition driftedTop : Particle.t :=
  Particle.mk (THREE.Vec3 5 (-3) 0) (THREE.Vec3 5 (-3) 0) (THREE.Vec3 0 0 0)
    THREE.zero THREE.zero 0.1 false 0 0 0 false 1.
Definition otherTop : Particle.t :=
  Particle.mk (THREE.Vec3 0.1 0 0) (THREE.Vec3 0.1 0 0) (THREE.Vec3 1 0 0)
    THREE.zero THREE.zero 0.1 true 1 1 0 true 1.
Definition belowTop : Particle.t :=
  Particle.mk (THREE.Vec3 0.1 0 0) (THREE.Vec3 0.1 0 0) (THREE.Vec3 0.1 0 0)
    THREE.zero THREE.zero 0.1 true 2 0 1 true 1.
Definition anchor : Vector3 := THREE.Vec3 0.1 0 0.
Definition anchorSample : list Particle.t := [driftedTop; otherTop; belowTop].

Lemma anchor_distances :
  distOriginal anchor driftedTop = 0.1 /\ distOriginal anchor otherTop = 0.9.
Proof.
  unfold distOriginal. rewrite !distanceTo_along_x by reflexivity. simpl.
  split; unfold Rabs; destruct (Rcase_abs _); lra.
Qed.

Lemma anchor_nearest :
  nearestTop anchor anchorSample = Some (0%nat, distOriginal anchor driftedTop).
Proof.
  destruct anchor_distances as [H0 H1]. unfold distOriginal in *. simpl in H0, H1.
  unfold nearestTop, anchorSample. simpl. rewrite H0, H1.
  destruct (Rlt_dec 0.9 0.1); [lra|]. reflexivity.
Qed.

Lemma attachToPivots_contract_witness :
  exists q, attachToPivotsOn [anchor] anchorSample !! 0%nat = Some q /\
            Particle.pinned q = true.
Proof.
  destruct (attachToPivots_contract [anchor] anchorSample) as (_ & _ & _ & H & _).
  apply (H anchor 0%nat (distOriginal anchor driftedTop)).
  - now left.
  - exact anchor_nearest.
  - destruct anchor_distances as [-> _]. unfold snapDistance. lra.
Defined.

(** C10. Anchor resolution selects the nearest top-row particle by the
    distance from the anchor to the particle's originalPosition, whatever the
    current positions and the active flags are.
    - The search gives the same answer on any two particle lists that agree
      on rows and original positions, whatever every other field is.
    - What it returns is a particle of the top row (y = 0) together with the
      distance from its original position to the anchor, and no top-row
      particle, active or not, has its original position nearer to the
      anchor; of equally near ones the first in the array is taken.
    - It returns nothing only when the list has no top-row particle.
    - It never reads the active flag: the selected particle, active or not,
      gets the pin flag and the anchor's point when that distance is below
      0.5, and its active flag stays what it was.
    - So after a whole run a particle is pinned only if it is that nearest
      top-row particle for one of the anchors, at the anchor's point. *)
Theorem attachToPivots_rest_grid :
  (forall pivotPos ps ps',
     gridKey <$> ps = gridKey <$> ps' ->
     nearestTop pivotPos ps = nearestTop pivotPos ps') /\
  (forall pivotPos ps (f : Particle.t -> Particle.t),
     (forall p, Particle.y (f p) = Particle.y p /\
                Particle.originalPosition (f p) = Particle.originalPosition p) ->
     nearestTop pivotPos (f <$> ps) = nearestTop pivotPos ps) /\
  (forall pivotPos ps i d,
     nearestTop pivotPos ps = Some (i, d) ->
     exists p, ps !! i = Some p /\ Particle.y p = 0%nat /\
       d = THREE.distanceTo (Particle.originalPosition p) pivotPos /\
       (forall j q, ps !! j = Some q -> Particle.y q = 0%nat ->
          d <= THREE.distanceTo (Particle.originalPosition q) pivotPos) /\
       (forall j q, (j < i)%nat -> ps !! j = Some q -> Particle.y q = 0%nat ->
          d < THREE.distanceTo (Particle.originalPosition q) pivotPos)) /\
  (forall pivotPos ps,
     nearestTop pivotPos ps = None ->
     forall j q, ps !! j = Some q -> Particle.y q <> 0%nat) /\
  (forall pivotPos ps i d p,
     nearestTop pivotPos ps = Some (i, d) -> d < snapDistance ->
     ps !! i = Some p ->
     attachPivot ps pivotPos !! i = Some (pinTo pivotPos p) /\
     Particle.pinned (pinTo pivotPos p) = true /\
     Particle.position (pinTo pivotPos p) = pivotPos /\
     Particle.previousPosition (pinTo pivotPos p) = pivotPos /\
     Particle.active (pinTo pivotPos p) = Particle.active p) /\
  (forall pivots ps i q,
     attachToPivotsOn pivots ps !! i = Some q -> Particle.pinned q = true ->
     exists pivotPos p, In pivotPos pivots /\ ps !! i = Some p /\
       Particle.y p = 0%nat /\
       THREE.distanceTo (Particle.originalPosition p) pivotPos < snapDistance /\
       (forall j r, ps !! j = Some r -> Particle.y r = 0%nat ->
          THREE.distanceTo (Particle.originalPosition p) pivotPos
            <= THREE.distanceTo (Particle.originalPosition r) pivotPos) /\
       Particle.position q = pivotPos /\
       Particle.previousPosition q = pivotPos /\
       Particle.originalPosition q = Particle.originalPosition p).
Proof.
  split; [exact nearestTop_key|]. split; [|split; [|split; [|split]]].
  - intros pv ps f Hf. apply nearestTop_key.
    rewrite <- list_fmap_compose. apply list_fmap_ext.
    intros i p _. simpl. unfold gridKey. destruct (Hf p) as [-> ->]. reflexivity.
  - intros pv ps i d Hn.
    destruct (nearestTop_spec pv ps i d Hn) as (p & Hp & Hy & Hd & Hmin).
    exists p. split; [exact Hp|]. split; [exact Hy|]. split; [exact Hd|].
    split; [exact Hmin|]. exact (nearestTop_first pv ps i d Hn).
  - exact nearestTop_None.
  - intros pv ps i d p Hn Hd Hp.
    rewrite (attachPivot_selected pv ps i d p Hn Hd Hp).
    split; [|now repeat split].
    apply list_lookup_insert_eq. apply lookup_lt_is_Some. eauto.
  - intros pivots ps i q Hq Hpin.
    destruct (attachToPivotsOn_attached pivots ps) as (Hk & Hsel & _).
    destruct (Hsel i q Hq Hpin) as (pv & d & Hin & Hn & Hd & Hpos & Hprev).
    destruct (nearestTop_spec pv ps i d Hn) as (p & Hp & Hy & Ed & Hmin).
    destruct (key_lookup _ ps i q p Hk Hq Hp) as [_ Eo].
    exists pv, p. unfold distOriginal in Ed, Hmin. rewrite <- Ed.
    repeat split; assumption.
Qed.

(* in [anchorSample] the anchor takes the particle that was cut away and has
   drifted to (5, -3, 0), because its original position is 0.1 from the
   anchor, and not the active particle that sits on the anchor but whose
   original position is 0.9 away; the particle taken is in the top row and
   no top-row particle has its original position nearer *)
Lemma attachToPivots_rest_grid_witness :
  attachPivot anchorSample anchor !! 0%nat = Some (pinTo anchor driftedTop) /\
  Particle.active driftedTop = false /\
  Particle.position driftedTop = THREE.Vec3 5 (-3) 0 /\
  Particle.pinned (pinTo anchor driftedTop) = true /\
  Particle.position (pinTo anchor driftedTop) = anchor /\
  Particle.active (pinTo anchor driftedTop) = false /\
  exists p, anchorSample !! 0%nat = Some p /\ Particle.y p = 0%nat /\
    forall j q, anchorSample !! j = Some q -> Particle.y q = 0%nat ->
      distOriginal anchor driftedTop
        <= THREE.distanceTo (Particle.originalPosition q) anchor.
Proof.
  destruct attachToPivots_rest_grid as (_ & _ & S & _ & H & _).
  destruct (H anchor anchorSample 0%nat (distOriginal anchor driftedTop) driftedTop)
    as (H1 & H2 & H3 & _ & H5).
  - exact anchor_nearest.
  - destruct anchor_distances as [-> _]. unfold snapDistance. lra.
  - reflexivity.
  - destruct (S anchor anchorSample 0%nat (distOriginal anchor driftedTop)
                anchor_nearest) as (p & Hp & Hy & _ & Hmin & _).
    split; [exact H1|]. split; [reflexivity|]. split; [reflexivity|].
    split; [exact H2|]. split; [exact H3|]. split; [exact H5|].
    exists p. split; [exact Hp|]. split; [exact Hy|exact Hmin].
Defined.

(** *** The tearing test of satisfyConstraints *)

(* the constraint stored at place [j] is inactive *)
Definition inactiveAt (cs : list Constraint.t) (j : nat) : Prop :=
  exists c, cs !! j = Some c /\ Constraint.active c = false.

Lemma physics_visit_inactive (prm : Params) (c : Constraint.t)
  (ps : list Particle.t) :
  Constraint.active c = false -> visit prm c ps = (c, ps).
Proof.
  intros H. unfold visit.
  destruct (ps !! Constraint.p1 c); [|reflexivity].
  destruct (ps !! Constraint.p2 c); [|reflexivity].
  now rewrite H.
Qed.

Lemma physics_visit_tears (prm : Params) (c : Constraint.t)
  (ps : list Particle.t) (a b : Particle.t) :
  Constraint.active c = true ->
  ps !! Constraint.p1 c = Some a -> ps !! Constraint.p2 c = Some b ->
  Particle.active a = true -> Particle.active b = true ->
  let currentLength :=
    THREE.length (THREE.sub (Particle.position b) (Particle.position a)) in
  0 < currentLength ->
  Constraint.restLength c * effectiveTearThreshold prm a b < currentLength ->
  visit prm c ps = (Constraint.set_active c false, ps).
Proof.
  intros Hc Ha Hb Haa Hba cur Hpos Hlt. subst cur. unfold visit.
  rewrite Ha, Hb, Hc, Haa, Hba. simpl.
  destruct (Rlt_dec 0 _); [|contradiction].
  destruct (Rlt_dec _ _); [reflexivity|contradiction].
Qed.

(* a visit deactivates an active constraint exactly when its two particles
   are active and the positive length it observes is above
   restLength * effectiveTearThreshold; it never reactivates one *)
Lemma physics_visit_inactive_iff (prm : Params) (c : Constraint.t)
  (ps : list Particle.t) :
  Constraint.active (visit prm c ps).1 = false <->
  Constraint.active c = false \/
  exists a b, ps !! Constraint.p1 c = Some a /\ ps !! Constraint.p2 c = Some b /\
    Particle.active a = true /\ Particle.active b = true /\
    0 < THREE.length (THREE.sub (Particle.position b) (Particle.position a)) /\
    Constraint.restLength c * effectiveTearThreshold prm a b
      < THREE.length (THREE.sub (Particle.position b) (Particle.position a)).
Proof.
  destruct (Constraint.active c) eqn:Hc.
  2:{ rewrite physics_visit_inactive by exact Hc. simpl. rewrite Hc. tauto. }
  unfold visit.
  destruct (ps !! Constraint.p1 c) as [a|] eqn:Ha;
    [destruct (ps !! Constraint.p2 c) as [b|] eqn:Hb|].
  - rewrite Hc. simpl.
    destruct (Particle.active a) eqn:Haa; simpl.
    2:{ rewrite Hc. split; [discriminate|].
        intros [|(a' & b' & Ea & Eb & Ha' & _)]; [discriminate|]. congruence. }
    destruct (Particle.active b) eqn:Hba; simpl.
    2:{ rewrite Hc. split; [discriminate|].
        intros [|(a' & b' & Ea & Eb & _ & Hb' & _)]; [discriminate|]. congruence. }
    destruct (Rlt_dec 0 _) as [Hpos|Hpos].
    2:{ simpl. rewrite Hc. split; [discriminate|].
        intros [|(a' & b' & Ea & Eb & _ & _ & Hp & _)]; [discriminate|].
        congruence. }
    destruct (Rlt_dec _ _) as [Hlt|Hlt].
    + simpl. split; [|reflexivity]. intros _. right. exists a, b. tauto.
    + destruct (correct c a b). simpl. rewrite Hc. split; [discriminate|].
      intros [|(a' & b' & Ea & Eb & _ & _ & _ & Hl)]; [discriminate|].
      congruence.
  - simpl. rewrite Hc. split; [discriminate|].
    intros [|(a' & b' & _ & Eb & _)]; discriminate.
  - simpl. rewrite Hc. split; [discriminate|].
    intros [|(a' & b' & Ea & _)]; discriminate.
Qed.

(* with cut factors at most one, a length above restLength * tearThreshold
   is above the effective threshold as well *)
Lemma physics_visit_tears_past_tearThreshold (prm : Params) (c : Constraint.t)
  (ps : list Particle.t) (a b : Particle.t) :
  Constraint.active c = true ->
  ps !! Constraint.p1 c = Some a -> ps !! Constraint.p2 c = Some b ->
  Particle.active a = true -> Particle.active b = true ->
  0 <= Constraint.restLength c -> 0 <= tearThreshold prm ->
  Particle.cutFactor a <= 1 ->
  Constraint.restLength c * tearThreshold prm
    < THREE.length (THREE.sub (Particle.position b) (Particle.position a)) ->
  visit prm c ps = (Constraint.set_active c false, ps).
Proof.
  intros Hc Ha Hb Haa Hba Hr Ht Hcf Hlt.
  assert (Hm : Rmin (Particle.cutFactor a) (Particle.cutFactor b) <= 1)
    by (pose proof (Rmin_l (Particle.cutFactor a) (Particle.cutFactor b)); lra).
  assert (Hrt : 0 <= Constraint.restLength c * tearThreshold prm)
    by now apply Rmult_le_pos.
  apply (physics_visit_tears prm c ps a b); try assumption.
  - lra.
  - unfold effectiveTearThreshold. cbv zeta.
    rewrite <- Rmult_assoc.
    eapply Rle_lt_trans; [|exact Hlt].
    rewrite <- (Rmult_1_r (Constraint.restLength c * tearThreshold prm)) at 2.
    now apply Rmult_le_compat_l.
Qed.

Lemma physics_visitAt_inactive (prm : Params) (cs : list Constraint.t)
  (ps : list Particle.t) (j : nat) :
  inactiveAt cs j -> visitAt prm (cs, ps) j = (cs, ps).
Proof.
  intros (c & Hc & Hb). unfold visitAt. simpl. rewrite Hc.
  rewrite physics_visit_inactive by exact Hb. now rewrite list_insert_id.
Qed.

Lemma physics_visitAt_keeps_inactive (prm : Params)
  (st : list Constraint.t * list Particle.t) (i j : nat) :
  inactiveAt st.1 j -> inactiveAt (visitAt prm st i).1 j.
Proof.
  intros Hj. destruct st as [cs ps]. simpl in Hj.
  destruct (decide (i = j)) as [->|N].
  - now rewrite physics_visitAt_inactive.
  - unfold visitAt. simpl. destruct (cs !! i) as [c|]; [|exact Hj].
    destruct (visit prm c ps) as [c' ps']. simpl.
    destruct Hj as (cj & Hcj & Hb). exists cj.
    now rewrite list_lookup_insert_ne.
Qed.

Lemma satisfyConstraints_keeps_inactive (s : ClothPhysics) (j : nat) :
  inactiveAt (constraints s) j ->
  inactiveAt (constraints (satisfyConstraints s)) j.
Proof.
  intros H. unfold satisfyConstraints, satisfyConstraintsOn.
  cbv zeta. change (constraints (set_constraints ?x ?cs)) with cs.
  generalize (seq 0 (length (constraints s, particles s).1)). intros js.
  assert (G : forall st, inactiveAt st.1 j ->
            inactiveAt (fold_left (visitAt (params s)) js st).1 j).
  { induction js as [|i js IH]; intros st Hst; simpl; [exact Hst|].
    apply IH. now apply physics_visitAt_keeps_inactive. }
  now apply G.
Qed.

(** *** The correction of satisfyConstraints *)

(* the solver of main.js reads no mass: an endpoint counts 1 when it is
   free and 0 when it is pinned *)
Definition weight (p : Particle.t) : R := if Particle.pinned p then 0 else 1.

Lemma set_position_same (p : Particle.t) :
  Particle.set_position p (Particle.position p) = p.
Proof. now destruct p. Qed.

(* the correction, written with the shares of the two endpoints *)
Lemma physics_correct_shares (c : Constraint.t) (a b : Particle.t) :
  let diff := THREE.sub (Particle.position b) (Particle.position a) in
  let currentLength := THREE.length diff in
  let k := (currentLength - Constraint.restLength c) / currentLength
           * Constraint.stiffness c in
  currentLength <> 0 ->
  (weight a + weight b = 0 -> correct c a b = (a, b)) /\
  (weight a + weight b <> 0 ->
   correct c a b
   = (Particle.set_position a
        (THREE.addScaledVector (Particle.position a) diff
           (weight a / (weight a + weight b) * k)),
      Particle.set_position b
        (THREE.addScaledVector (Particle.position b) diff
           (- (weight b / (weight a + weight b) * k))))).
Proof.
  intros diff cur k Hcur.
  assert (Hk : (1 - Constraint.restLength c / cur) * Constraint.stiffness c = k)
    by (subst k; field; exact Hcur).
  unfold correct, weight. fold diff. fold cur. rewrite Hk.
  clear Hk. clearbody k. clear Hcur. clearbody diff.
  destruct (Particle.pinned a), (Particle.pinned b); simpl; split;
    try (intros H; exfalso; lra); intros _; try reflexivity.
  - f_equal.
    + rewrite <- (set_position_same a) at 1. f_equal.
      destruct (Particle.position a), diff. vec_eq.
    + f_equal. destruct (Particle.position b), diff.
      unfold THREE.sub, THREE.multiplyScalar, THREE.addScaledVector. simpl.
      f_equal; lra.
  - f_equal.
    + f_equal. destruct (Particle.position a), diff.
      unfold THREE.add, THREE.multiplyScalar, THREE.addScaledVector. simpl.
      f_equal; lra.
    + rewrite <- (set_position_same b) at 1. f_equal.
      destruct (Particle.position b), diff. vec_eq.
  - f_equal; f_equal.
    + destruct (Particle.position a), diff.
      unfold THREE.add, THREE.multiplyScalar, THREE.addScaledVector. simpl.
      f_equal; lra.
    + destruct (Particle.position b), diff.
      unfold THREE.sub, THREE.multiplyScalar, THREE.addScaledVector. simpl.
      f_equal; lra.
Qed.

(* the visit of a constraint that is active between two active particles,
   of positive length and not over-stretched: the correction is applied *)
Lemma physics_visit_corrects (prm : Params) (c : Constraint.t)
  (ps : list Particle.t) (a b : Particle.t) :
  Constraint.active c = true ->
  ps !! Constraint.p1 c = Some a -> ps !! Constraint.p2 c = Some b ->
  Particle.active a = true -> Particle.active b = true ->
  let currentLength :=
    THREE.length (THREE.sub (Particle.position b) (Particle.position a)) in
  0 < currentLength ->
  currentLength <= Constraint.restLength c * effectiveTearThreshold prm a b ->
  visit prm c ps
  = (c, <[Constraint.p2 c := (correct c a b).2]>
          (<[Constraint.p1 c := (correct c a b).1]> ps)).
Proof.
  intros Hc Ha Hb Haa Hba cur Hpos Hle. subst cur. unfold visit.
  rewrite Ha, Hb, Hc, Haa, Hba. simpl.
  destruct (Rlt_dec 0 _); [|contradiction].
  destruct (Rlt_dec _ _); [lra|].
  now destruct (correct c a b).
Qed.

(* a constraint of zero length is left alone *)
Lemma physics_visit_zero_length (prm : Params) (c : Constraint.t)
  (ps : list Particle.t) (a b : Particle.t) :
  ps !! Constraint.p1 c = Some a -> ps !! Constraint.p2 c = Some b ->
  THREE.length (THREE.sub (Particle.position b) (Particle.position a)) = 0 ->
  visit prm c ps = (c, ps).
Proof.
  intros Ha Hb Hz. unfold visit. rewrite Ha, Hb, Hz.
  destruct (_ || _); [reflexivity|].
  destruct (Rlt_dec 0 0); [lra|reflexivity].
Qed.

(** *** update never moves a pinned particle *)

(* every pinned particle of [ps] is found unchanged, at its place, in [qs] *)
Definition keepsPinned (ps qs : list Particle.t) : Prop :=
  forall i p, ps !! i = Some p -> Particle.pinned p = true -> qs !! i = Some p.

Lemma keepsPinned_refl (ps : list Particle.t) : keepsPinned ps ps.
Proof. now intros i p H _. Qed.

Lemma keepsPinned_trans (ps qs rs : list Particle.t) :
  keepsPinned ps qs -> keepsPinned qs rs -> keepsPinned ps rs.
Proof. intros H1 H2 i p Hp Hpin. apply H2; [now apply H1|exact Hpin]. Qed.

Lemma keepsPinned_map (f : Particle.t -> Particle.t) (ps : list Particle.t) :
  (forall p, Particle.pinned p = true -> f p = p) -> keepsPinned ps (map f ps).
Proof.
  intros Hf i p Hp Hpin. rewrite lookup_map, Hp. simpl. now rewrite Hf.
Qed.

Lemma keepsPinned_insert (ps : list Particle.t) (j : nat) (a a' : Particle.t) :
  ps !! j = Some a -> (Particle.pinned a = true -> a' = a) ->
  keepsPinned ps (<[j := a']> ps).
Proof.
  intros Ha Hk i p Hp Hpin. destruct (decide (i = j)) as [->|N].
  - rewrite Ha in Hp. injection Hp as <-. rewrite Hk by exact Hpin.
    apply list_lookup_insert_eq. apply lookup_lt_is_Some. eauto.
  - now rewrite list_lookup_insert_ne.
Qed.

Lemma verlet_pinned (deltaTime : R) (p : Particle.t) :
  Particle.pinned p = true -> verlet deltaTime p = p.
Proof. intros H. unfold verlet. now rewrite H. Qed.

Lemma applyForce_pinned (prm : Params) (time : R) (rnd : Random) (k : nat)
  (p : Particle.t) :
  Particle.pinned p = true -> applyForce prm time rnd k p = (k, p).
Proof. intros H. unfold applyForce. now rewrite H. Qed.

Lemma applyForces_keepsPinned (prm : Params) (time : R) (rnd : Random)
  (ps : list Particle.t) (k : nat) :
  keepsPinned ps (applyForces prm time rnd k ps).2.
Proof.
  revert k. induction ps as [|p ps IH]; intros k; [apply keepsPinned_refl|].
  simpl. pose proof (applyForce_pinned prm time rnd k p) as Hp.
  destruct (applyForce prm time rnd k p) as [k1 p'].
  specialize (IH k1).
  destruct (applyForces prm time rnd k1 ps) as [k2 rest']. simpl in *.
  intros [|i] q Hq Hpin; simpl in *.
  - injection Hq as <-. specialize (Hp Hpin). now injection Hp as _ <-.
  - now apply IH.
Qed.

Lemma correct_pinned (c : Constraint.t) (a b : Particle.t) :
  (Particle.pinned a = true -> (correct c a b).1 = a) /\
  (Particle.pinned b = true -> (correct c a b).2 = b).
Proof.
  unfold correct. destruct (Particle.pinned a), (Particle.pinned b); simpl;
    split; intros H; try discriminate; reflexivity.
Qed.

Lemma physics_visit_keepsPinned (prm : Params) (c : Constraint.t)
  (ps : list Particle.t) :
  keepsPinned ps (visit prm c ps).2.
Proof.
  unfold visit.
  destruct (ps !! Constraint.p1 c) as [a|] eqn:Ha; [|apply keepsPinned_refl].
  destruct (ps !! Constraint.p2 c) as [b|] eqn:Hb; [|apply keepsPinned_refl].
  destruct (_ || _); [apply keepsPinned_refl|].
  destruct (Rlt_dec 0 _) as [Hpos|]; [|apply keepsPinned_refl].
  destruct (Rlt_dec _ _); [apply keepsPinned_refl|].
  destruct (correct_pinned c a b) as [H1 H2].
  destruct (correct c a b) as [a' b']. simpl in *.
  apply (keepsPinned_trans _ (<[Constraint.p1 c := a']> ps)).
  - now apply (keepsPinned_insert ps _ a).
  - destruct (decide (Constraint.p1 c = Constraint.p2 c)) as [E|N].
    + exfalso. rewrite E, Hb in Ha. injection Ha as <-.
      rewrite length_sub_self in *. lra.
    + apply (keepsPinned_insert _ _ b);
        [now rewrite list_lookup_insert_ne|exact H2].
Qed.

Lemma physics_visitAt_keepsPinned (prm : Params)
  (st : list Constraint.t * list Particle.t) (j : nat) :
  keepsPinned st.2 (visitAt prm st j).2.
Proof.
  destruct st as [cs ps]. unfold visitAt. simpl.
  destruct (cs !! j) as [c|]; [|apply keepsPinned_refl].
  pose proof (physics_visit_keepsPinned prm c ps) as H.
  now destruct (visit prm c ps).
Qed.

Lemma satisfyConstraints_keepsPinned (s : ClothPhysics) :
  keepsPinned (particles s) (particles (satisfyConstraints s)).
Proof.
  unfold satisfyConstraints, satisfyConstraintsOn. cbv zeta.
  change (particles (set_constraints (set_particles s ?ps) ?cs)) with ps.
  generalize (seq 0 (length (constraints s, particles s).1)). intros js.
  assert (G : forall st, keepsPinned st.2 (fold_left (visitAt (params s)) js st).2).
  { induction js as [|j js IH]; intros st; simpl; [apply keepsPinned_refl|].
    eapply keepsPinned_trans; [apply physics_visitAt_keepsPinned|apply IH]. }
  apply (G (constraints s, particles s)).
Qed.

Lemma rounds_keepsPinned (rounds : list nat) (s : ClothPhysics) :
  keepsPinned (particles s)
    (particles (fold_left (fun st _ => satisfyConstraints st) rounds s)).
Proof.
  revert s. induction rounds as [|r rounds IH]; intros s; simpl;
    [apply keepsPinned_refl|].
  eapply keepsPinned_trans; [apply satisfyConstraints_keepsPinned|apply IH].
Qed.

Lemma update_keepsPinned (deltaTime : R) (rnd : Random) (k : nat)
  (s : ClothPhysics) :
  keepsPinned (attachToPivotsOn (pivotPoints s) (particles s))
    (particles (update deltaTime rnd k s).2).
Proof.
  unfold update. cbv zeta.
  change (particles (attachToPivots (set_time s ?t)))
    with (attachToPivotsOn (pivotPoints s) (particles s)).
  pose proof (applyForces_keepsPinned
                (params (attachToPivots (set_time s (time s + clampDeltaTime deltaTime))))
                (time (attachToPivots (set_time s (time s + clampDeltaTime deltaTime))))
                rnd (attachToPivotsOn (pivotPoints s) (particles s)) k) as HF.
  destruct (applyForces _ _ rnd k (attachToPivotsOn (pivotPoints s) (particles s)))
    as [k' ps3].
  cbv beta iota delta [snd]. simpl in HF.
  eapply keepsPinned_trans; [exact HF|].
  eapply keepsPinned_trans;
    [apply (keepsPinned_map (verlet (clampDeltaTime deltaTime)));
     intros p Hp; now apply verlet_pinned|].
  match goal with
  | |- keepsPinned _ (particles (fold_left _ ?rounds ?s4)) =>
      exact (rounds_keepsPinned rounds s4)
  end.
Qed.

(** X3. After [update], every particle that anchor resolution pinned in this
    tick is exactly as anchor resolution left it: at its anchor's point, with
    previousPosition the same point, whatever the time step, the forces and
    the constraints did to the rest of the cloth. *)
Lemma update_pinned_at_anchor (deltaTime : R) (rnd : Random) (k : nat)
  (s : ClothPhysics) (i : nat) (q : Particle.t) :
  attachToPivotsOn (pivotPoints s) (particles s) !! i = Some q ->
  Particle.pinned q = true ->
  particles (update deltaTime rnd k s).2 !! i = Some q /\
  exists pivotPos, In pivotPos (pivotPoints s) /\
    Particle.position q = pivotPos /\ Particle.previousPosition q = pivotPos.
Proof.
  intros Hq Hpin. split.
  - now apply (update_keepsPinned deltaTime rnd k s i q).
  - destruct (attachToPivotsOn_attached (pivotPoints s) (particles s))
      as (_ & H & _).
    destruct (H i q Hq Hpin) as (pv & d & Hin & _ & _ & Hp & Hpp).
    now exists pv.
Qed.

(* the particles of [anchorSample] under the one anchor *)
Definition anchoredState : ClothPhysics :=
  mkClothPhysics 1 1 1 1 [anchor] defaultParams anchorSample [] ∅ 0.

Lemma anchoredState_attached :
  attachToPivotsOn [anchor] anchorSample !! 0%nat
  = Some (pinTo anchor (Particle.set_pinned driftedTop false)).
Proof.
  unfold attachToPivotsOn. cbn [fold_left].
  rewrite (attachPivot_selected anchor (clearPins anchorSample) 0%nat
             (distOriginal anchor driftedTop)
             (Particle.set_pinned driftedTop false)).
  - reflexivity.
  - rewrite (nearestTop_key anchor _ anchorSample (clearPins_key anchorSample)).
    exact anchor_nearest.
  - destruct anchor_distances as [-> _]. unfold snapDistance. lra.
  - reflexivity.
Qed.

Lemma update_pinned_at_anchor_witness :
  particles (update 0.016 (fun _ => 0) 0 anchoredState).2 !! 0%nat
  = Some (pinTo anchor (Particle.set_pinned driftedTop false)) /\
  exists pivotPos, In pivotPos [anchor] /\
    Particle.position (pinTo anchor (Particle.set_pinned driftedTop false))
      = pivotPos /\
    Particle.previousPosition (pinTo anchor (Particle.set_pinned driftedTop false))
      = pivotPos.
Proof.
  apply (update_pinned_at_anchor 0.016 (fun _ => 0) 0%nat anchoredState 0%nat).
  - exact anchoredState_attached.
  - reflexivity.
Defined.

(** *** Every command keeps an inactive constraint inactive *)

Lemma cutOrganicConstraint_keeps_inactive (ps : list Particle.t)
  (c : Constraint.t) :
  Constraint.active c = false ->
  Constraint.active (cutOrganicConstraint ps c) = false.
Proof.
  intros H. unfold cutOrganicConstraint.
  destruct (ps !! Constraint.p1 c); [|exact H].
  destruct (ps !! Constraint.p2 c); [|exact H].
  destruct (_ || _); [reflexivity|].
  destruct (_ || _); exact H.
Qed.

Lemma cutSegmentConstraint_inactive (start end_ : Vector3) (radius : R)
  (ps : list Particle.t) (c : Constraint.t) :
  Constraint.active c = false -> cutSegmentConstraint start end_ radius ps c = c.
Proof. intros H. unfold cutSegmentConstraint. now rewrite H. Qed.

Lemma cutOrganic_constraints (center : Vector3) (radius : R) (rnd : Random)
  (k : nat) (s : ClothPhysics) :
  constraints (cutOrganic center radius rnd k s).2
    = map (cutOrganicConstraint (particles (cutOrganic center radius rnd k s).2))
        (constraints s).
Proof.
  unfold cutOrganic. destruct (cutOrganicParticles _ _ _ _ _ _ _) as [[k' ps'] cut'].
  reflexivity.
Qed.

Lemma cutOrganic_keeps_inactive (center : Vector3) (radius : R) (rnd : Random)
  (k : nat) (s : ClothPhysics) (j : nat) :
  inactiveAt (constraints s) j ->
  inactiveAt (constraints (cutOrganic center radius rnd k s).2) j.
Proof.
  intros (c & Hc & Hb). rewrite cutOrganic_constraints.
  eexists. rewrite lookup_map, Hc. split; [reflexivity|].
  now apply cutOrganicConstraint_keeps_inactive.
Qed.

Lemma cutAlongSegment_keeps_inactive (start end_ : Vector3) (radius : R)
  (s : ClothPhysics) (j : nat) :
  inactiveAt (constraints s) j ->
  inactiveAt (constraints (cutAlongSegment start end_ radius s)) j.
Proof.
  intros (c & Hc & Hb). unfold cutAlongSegment.
  destruct (Rlt_dec _ _); [now exists c|].
  destruct (cutSegmentParticles _ _ _ _ _) as [ps' cut'].
  change (constraints (set_constraints ?x ?cs)) with cs.
  exists c. rewrite lookup_map, Hc. simpl.
  now rewrite cutSegmentConstraint_inactive.
Qed.

Lemma update_keeps_inactive (deltaTime : R) (rnd : Random) (k : nat)
  (s : ClothPhysics) (j : nat) :
  inactiveAt (constraints s) j ->
  inactiveAt (constraints (update deltaTime rnd k s).2) j.
Proof.
  intros H. unfold update. cbv zeta.
  destruct (applyForces _ _ _ _ _) as [k' ps3].
  cbv beta iota delta [snd].
  match goal with
  | |- inactiveAt (constraints (fold_left _ _ ?s4)) j =>
      assert (H4 : inactiveAt (constraints s4) j) by exact H;
      generalize dependent s4
  end.
  generalize (seq 0 4). intros rounds.
  induction rounds as [|r rounds IH]; intros s4 H4; simpl; [exact H4|].
  apply IH. now apply satisfyConstraints_keeps_inactive.
Qed.

Inductive Command : Type :=
| Update (deltaTime : R)
| AttachToPivots
| CutOrganic (center : Vector3) (radius : R)
| CutAlongSegment (start end_ : Vector3) (radius : R).

(* a command run on the state and the cursor of the random source *)
Definition run (rnd : Random) (st : nat * ClothPhysics) (cmd : Command)
  : nat * ClothPhysics :=
  match cmd with
  | Update deltaTime => update deltaTime rnd st.1 st.2
  | AttachToPivots => (st.1, attachToPivots st.2)
  | CutOrganic center radius => cutOrganic center radius rnd st.1 st.2
  | CutAlongSegment start end_ radius =>
      (st.1, cutAlongSegment start end_ radius st.2)
  end.

Lemma physics_session_keeps_inactive (rnd : Random) (cmds : list Command)
  (st : nat * ClothPhysics) (j : nat) :
  inactiveAt (constraints st.2) j ->
  inactiveAt (constraints (fold_left (run rnd) cmds st).2) j.
Proof.
  revert st. induction cmds as [|cmd cmds IH]; intros st H; simpl; [exact H|].
  apply IH. destruct cmd; simpl.
  - now apply update_keeps_inactive.
  - exact H.
  - now apply cutOrganic_keeps_inactive.
  - now apply cutAlongSegment_keeps_inactive.
Qed.

(** *** update: the time step *)






(** *** The stiffness the cuts set *)





Lemma cutAlongSegment_degenerate (start end_ : Vector3) (radius : R)
  (s : ClothPhysics) :
  THREE.length (THREE.sub end_ start) < 1e-6 ->
  cutAlongSegment start end_ radius s = s.
Proof.
  intros H. unfold cutAlongSegment. destruct (Rlt_dec _ _); [reflexivity|lra].
Qed.

(* a horizontal edge of the cloth crossed in its middle by a vertical stroke
   of the cutter: the endpoints lie 1.3 from the stroke, outside the radius
   1 and inside the shell 1.6 *)
Definition cutStart : Vector3 := THREE.Vec3 0 (-1) 0.
Definition cutEnd : Vector3 := THREE.Vec3 0 1 0.
Definition leftP : Particle.t :=
  Particle.mk (THREE.Vec3 (-1.3) 0 0) (THREE.Vec3 (-1.3) 0 0)
    (THREE.Vec3 (-1.3) 0 0) THREE.zero THREE.zero 0.1 false 0 0 0 true 1.
Definition rightP : Particle.t :=
  Particle.mk (THREE.Vec3 1.3 0 0) (THREE.Vec3 1.3 0 0)
    (THREE.Vec3 1.3 0 0) THREE.zero THREE.zero 0.1 false 1 1 0 true 1.
Definition edgeLR : Constraint.t := Constraint.mk 0 1 2.6 0.85 0.85 true.
Definition crossedState : ClothPhysics :=
  mkClothPhysics 2.6 1 1 0 [] defaultParams [leftP; rightP] [edgeLR] ∅ 0.

Ltac eval_minmax :=
  unfold THREE.clamp;
  repeat match goal with
         | |- context [Rmin ?a ?b] =>
             first [ rewrite (Rmin_left a b) by lra
                   | rewrite (Rmin_right a b) by lra ]
         | |- context [Rmax ?a ?b] =>
             first [ rewrite (Rmax_left a b) by lra
                   | rewrite (Rmax_right a b) by lra ]
         end;
  try lra.






(** *** Two segment cuts, in either order *)

(* what the particle loop of the segment cut does to one particle *)
Definition markSeg (start end_ : Vector3) (radius : R) (p : Particle.t)
  : Particle.t :=
  (cutSegmentParticle start end_ radius ∅ p).1.

Lemma cutSegmentParticle_fst (start end_ : Vector3) (radius : R)
  (cut : gset nat) (p : Particle.t) :
  (cutSegmentParticle start end_ radius cut p).1 = markSeg start end_ radius p.
Proof.
  unfold markSeg, cutSegmentParticle. cbv zeta.
  destruct (negb _); [reflexivity|].
  destruct (Rle_dec _ _); [reflexivity|].
  destruct (Rle_dec _ _); reflexivity.
Qed.

Lemma cutSegmentParticles_fst (start end_ : Vector3) (radius : R)
  (ps : list Particle.t) (cut : gset nat) :
  (cutSegmentParticles start end_ radius cut ps).1
    = map (markSeg start end_ radius) ps.
Proof.
  revert cut. induction ps as [|p ps IH]; intros cut; [reflexivity|].
  simpl. pose proof (cutSegmentParticle_fst start end_ radius cut p) as Hp.
  destruct (cutSegmentParticle start end_ radius cut p) as [p' cut1].
  specialize (IH cut1).
  destruct (cutSegmentParticles start end_ radius cut1 ps) as [rest' cut2].
  simpl in *. now rewrite Hp, IH.
Qed.

Lemma cutAlongSegment_particles (start end_ : Vector3) (radius : R)
  (s : ClothPhysics) :
  1e-6 <= THREE.length (THREE.sub end_ start) ->
  particles (cutAlongSegment start end_ radius s)
    = map (markSeg start end_ radius) (particles s).
Proof.
  intros H. unfold cutAlongSegment. destruct (Rlt_dec _ _); [lra|].
  pose proof (cutSegmentParticles_fst start end_ radius (particles s)
                (cutParticles s)) as Hp.
  destruct (cutSegmentParticles _ _ _ _ _) as [ps' cut']. exact Hp.
Qed.

Lemma markSeg_position (start end_ : Vector3) (radius : R) (p : Particle.t) :
  Particle.position (markSeg start end_ radius p) = Particle.position p.
Proof.
  unfold markSeg, cutSegmentParticle. cbv zeta.
  destruct (negb _); [reflexivity|].
  destruct (Rle_dec _ _); [reflexivity|].
  destruct (Rle_dec _ _); reflexivity.
Qed.

(* the segment cut never raises a cut factor and never reactivates *)
Lemma markSeg_monotone (start end_ : Vector3) (radius : R) (p : Particle.t) :
  Particle.cutFactor (markSeg start end_ radius p) <= Particle.cutFactor p /\
  (Particle.active p = false ->
   Particle.active (markSeg start end_ radius p) = false).
Proof.
  unfold markSeg, cutSegmentParticle. cbv zeta.
  destruct (Particle.active p) eqn:Ha; simpl.
  2:{ rewrite Ha. split; [lra|reflexivity]. }
  destruct (Rle_dec _ _); simpl; [split; [lra|discriminate]|].
  destruct (Rle_dec _ _); simpl; [|split; [lra|discriminate]].
  split; [apply Rmin_l|discriminate].
Qed.

(* whether the constraint loop of the segment cut deactivates a constraint
   between the particles [a] and [b] *)
Definition segmentHit (start end_ : Vector3) (radius : R) (a b : Particle.t)
  : bool :=
  (if Rle_dec (edgeDistance start end_ (Particle.position a) (Particle.position b))
        radius then true else false)
  || negb (Particle.active a) || negb (Particle.active b).

Lemma cutSegmentConstraint_on (start end_ : Vector3) (radius : R)
  (ps : list Particle.t) (c : Constraint.t) (a b : Particle.t) :
  ps !! Constraint.p1 c = Some a -> ps !! Constraint.p2 c = Some b ->
  Constraint.active c = true ->
  cutSegmentConstraint start end_ radius ps c
    = if segmentHit start end_ radius a b then Constraint.set_active c false
      else Constraint.set_stiffness c (softened c a b).
Proof.
  intros Ha Hb Hc. unfold cutSegmentConstraint, segmentHit.
  now rewrite Hc, Ha, Hb.
Qed.

Lemma cutSegmentConstraint_missing (start end_ : Vector3) (radius : R)
  (ps : list Particle.t) (c : Constraint.t) :
  ps !! Constraint.p1 c = None \/ ps !! Constraint.p2 c = None ->
  cutSegmentConstraint start end_ radius ps c = c.
Proof.
  intros H. unfold cutSegmentConstraint. destruct (negb _); [reflexivity|].
  destruct H as [-> | ->]; [reflexivity|].
  now destruct (ps !! Constraint.p1 c).
Qed.


Section TwoSegmentCuts.

Variables (s1 e1 : Vector3) (r1 : R) (s2 e2 : Vector3) (r2 : R).





End TwoSegmentCuts.



(** *** cutOrganic on a concrete cloth *)

(* Math.random() returning 0 at every call: no particle is displaced *)
Definition zeroRandom : Random := fun _ => 0.

(* two neighbours of a row, 1.05 and 1.8 to the right of the first cut *)
Definition nearP : Particle.t :=
  Particle.mk (THREE.Vec3 1.05 0 0) (THREE.Vec3 1.05 0 0) (THREE.Vec3 1.05 0 0)
    THREE.zero THREE.zero 0.1 false 0 0 0 true 1.
Definition farP : Particle.t :=
  Particle.mk (THREE.Vec3 1.8 0 0) (THREE.Vec3 1.8 0 0) (THREE.Vec3 1.8 0 0)
    THREE.zero THREE.zero 0.1 false 1 1 0 true 1.
Definition edgeNF : Constraint.t := Constraint.mk 0 1 0.75 0.85 0.85 true.
Definition rowState : ClothPhysics :=
  mkClothPhysics 1.8 1 1 0 [] defaultParams [nearP; farP] [edgeNF] ∅ 0.
Definition firstCenter : Vector3 := THREE.Vec3 0 0 0.
Definition secondCenter : Vector3 := THREE.Vec3 (-0.4) 0 0.

(* the planar distance of cutOrganic for a particle level with the centre *)
Lemma planar_distance (dx dz : R) : dz = 0 -> sqrt (dx * dx + dz * dz) = Rabs dx.
Proof.
  intros ->. replace (dx * dx + 0 * 0) with (Rsqr dx) by (unfold Rsqr; lra).
  apply sqrt_Rsqr_abs.
Qed.

Lemma Rabs_pos_val (x : R) : 0 <= x -> Rabs x = x.
Proof. intros H. apply Rabs_pos_eq. exact H. Qed.

(* a particle of the shell that is not displaced *)
Lemma cutOrganicParticle_shell (center : Vector3) (radius : R)
  (shape : list (R * R)) (rnd : Random) (k : nat) (cut : gset nat)
  (p : Particle.t) (d f : R) :
  THREE.z (Particle.position p) - THREE.z center = 0 ->
  Rabs (THREE.x (Particle.position p) - THREE.x center) = d ->
  radius <= d < radius * 1.5 -> rnd k <= 0.5 ->
  Rmax 0.2 (1 - (1 - (d - radius) / (radius * 0.5))) = f ->
  cutOrganicParticle center radius shape rnd k cut p
    = (S k, Particle.set_cutFactor p f, cut).
Proof.
  intros Hz Hd Hr Hk Hf. unfold cutOrganicParticle. cbv zeta.
  rewrite (planar_distance _ _ Hz), Hd, Hf.
  destruct (Rlt_dec d (radius * 1.5)); [|lra].
  destruct (Rlt_dec d radius); [lra|].
  destruct (Rlt_dec 0.5 (rnd k)); [lra|]. reflexivity.
Qed.

(* a particle outside the shell *)
Lemma cutOrganicParticle_outside (center : Vector3) (radius : R)
  (shape : list (R * R)) (rnd : Random) (k : nat) (cut : gset nat)
  (p : Particle.t) (d : R) :
  THREE.z (Particle.position p) - THREE.z center = 0 ->
  Rabs (THREE.x (Particle.position p) - THREE.x center) = d ->
  radius * 1.5 <= d ->
  cutOrganicParticle center radius shape rnd k cut p = (k, p, cut).
Proof.
  intros Hz Hd Hr. unfold cutOrganicParticle. cbv zeta.
  rewrite (planar_distance _ _ Hz), Hd.
  destruct (Rlt_dec d (radius * 1.5)); [lra|]. reflexivity.
Qed.

Lemma first_cut :
  cutOrganic firstCenter 1 zeroRandom 0 rowState
  = (17%nat,
     mkClothPhysics 1.8 1 1 0 [] defaultParams
       [Particle.set_cutFactor nearP 0.2; farP]
       [Constraint.set_stiffness edgeNF 0.425] ∅ 0).
Proof.
  unfold cutOrganic, rowState. simpl.
  rewrite (cutOrganicParticle_shell firstCenter 1 _ zeroRandom 16 ∅ nearP 1.05 0.2);
    [| simpl; lra | simpl; rewrite Rabs_pos_val; lra | lra
     | unfold zeroRandom; lra | eval_minmax ].
  rewrite (cutOrganicParticle_outside firstCenter 1 _ zeroRandom 17 ∅ farP 1.8);
    [| simpl; lra | simpl; rewrite Rabs_pos_val; lra | lra ].
  unfold set_constraints, set_cutParticles, set_particles. simpl.
  do 3 f_equal. unfold cutOrganicConstraint. simpl.
  destruct (Rlt_dec 0.2 1); [|lra]. simpl.
  unfold Constraint.set_stiffness, softened, minFactor. simpl. f_equal.
  eval_minmax.
Qed.

Lemma second_cut :
  cutOrganic secondCenter 1 zeroRandom 17 (cutOrganic firstCenter 1 zeroRandom 0 rowState).2
  = (34%nat,
     mkClothPhysics 1.8 1 1 0 [] defaultParams
       [Particle.set_cutFactor nearP 0.9; farP]
       [Constraint.set_stiffness edgeNF 0.765] ∅ 0).
Proof.
  rewrite first_cut. unfold cutOrganic. simpl.
  rewrite (cutOrganicParticle_shell secondCenter 1 _ zeroRandom 33 ∅
             (Particle.set_cutFactor nearP 0.2) 1.45 0.9);
    [| simpl; lra | simpl; rewrite Rabs_pos_val; lra | lra
     | unfold zeroRandom; lra | eval_minmax ].
  rewrite (cutOrganicParticle_outside secondCenter 1 _ zeroRandom 34 ∅ farP 2.2);
    [| simpl; lra | simpl; rewrite Rabs_pos_val; lra | lra ].
  unfold set_constraints, set_cutParticles, set_particles. simpl.
  do 3 f_equal. unfold cutOrganicConstraint. simpl.
  destruct (Rlt_dec 0.9 1); [|lra]. simpl.
  unfold Constraint.set_stiffness, softened, minFactor. simpl. f_equal.
  eval_minmax.
Qed.


(** C5: the point/radius cut raises a cut factor.  A first cut of radius 1
    at the origin leaves the particle at x = 1.05 with cut factor 0.2; a
    second cut of the same radius centred at x = -0.4, whose shell the
    particle is in as well, sets its cut factor to 0.9, and the stiffness of
    its constraint goes from 0.425 back up to 0.765. *)
Theorem cutOrganic_raises_cutFactor :
  particles (cutOrganic firstCenter 1 zeroRandom 0 rowState).2
    = [Particle.set_cutFactor nearP 0.2; farP] /\
  particles
    (cutOrganic secondCenter 1 zeroRandom 17
       (cutOrganic firstCenter 1 zeroRandom 0 rowState).2).2
    = [Particle.set_cutFactor nearP 0.9; farP] /\
  constraints
    (cutOrganic secondCenter 1 zeroRandom 17
       (cutOrganic firstCenter 1 zeroRandom 0 rowState).2).2
    = [Constraint.set_stiffness edgeNF 0.765].
Proof.
  rewrite second_cut, first_cut. repeat split.
Qed.

(** *** What the cuts never undo *)

(** X2. [cutAlongSegment] never raises the cut factor of a particle, never
    reactivates a particle and moves none. *)
Lemma cutAlongSegment_monotone (start end_ : Vector3) (radius : R)
  (s : ClothPhysics) (i : nat) (p : Particle.t) :
  particles s !! i = Some p ->
  exists p', particles (cutAlongSegment start end_ radius s) !! i = Some p' /\
    Particle.cutFactor p' <= Particle.cutFactor p /\
    (Particle.active p = false -> Particle.active p' = false) /\
    Particle.position p' = Particle.position p.
Proof.
  intros Hp.
  destruct (Rlt_dec (THREE.length (THREE.sub end_ start)) 1e-6) as [D|N].
  - rewrite cutAlongSegment_degenerate by exact D. exists p.
    repeat split; [exact Hp|lra|tauto].
  - rewrite cutAlongSegment_particles by lra. rewrite lookup_map, Hp. simpl.
    eexists. split; [reflexivity|].
    destruct (markSeg_monotone start end_ radius p) as [H1 H2].
    split; [exact H1|]. split; [exact H2|]. apply markSeg_position.
Qed.

Lemma cutAlongSegment_monotone_witness :
  exists p', particles (cutAlongSegment cutStart cutEnd 1 crossedState) !! 0%nat
             = Some p' /\
    Particle.cutFactor p' <= Particle.cutFactor leftP /\
    (Particle.active leftP = false -> Particle.active p' = false) /\
    Particle.position p' = Particle.position leftP.
Proof.
  apply (cutAlongSegment_monotone cutStart cutEnd 1 crossedState 0 leftP).
  reflexivity.
Defined.

(** *** The point/radius cut, twice with the same arguments *)

(* the distance cutOrganic measures: in the x-z plane, to the centre *)
Definition planar (center position : Vector3) : R :=
  let dx := THREE.x position - THREE.x center in
  let dz := THREE.z position - THREE.z center in
  sqrt (dx * dx + dz * dz).

(* the random displacement pushes a particle away from the centre *)
Lemma push_outward (center position : Vector3) (m : R) :
  0 <= m ->
  planar center position
  <= planar center
       (THREE.add position
          (THREE.multiplyScalar
             (THREE.normalize (THREE.sub position center)) m)).
Proof.
  intros Hm. unfold planar. cbv zeta. apply sqrt_le_1_alt.
  unfold THREE.normalize, THREE.divideScalar.
  set (L := if Req_dec_T (THREE.length (THREE.sub position center)) 0
            then 1 else THREE.length (THREE.sub position center)).
  assert (HL : 0 < L).
  { subst L. destruct (Req_dec_T _ _) as [|N]; [lra|].
    pose proof (length_nonneg (THREE.sub position center)). lra. }
  assert (Hi : 0 < 1 / L) by (apply Rdiv_lt_0_compat; lra).
  set (f := 1 + 1 / L * m).
  assert (Hf : 1 <= f) by (subst f; nra).
  destruct position as [px py pz], center as [cx cy cz]. simpl.
  replace (px + (px - cx) * (1 / L) * m - cx) with (f * (px - cx))
    by (subst f; ring).
  replace (pz + (pz - cz) * (1 / L) * m - cz) with (f * (pz - cz))
    by (subst f; ring).
  assert (H1 : 1 <= f * f) by nra.
  set (u := (px - cx) * (px - cx) + (pz - cz) * (pz - cz)).
  assert (H2 : 0 <= u).
  { subst u. pose proof (Rle_0_sqr (px - cx)). pose proof (Rle_0_sqr (pz - cz)).
    unfold Rsqr in *. lra. }
  replace (f * (px - cx) * (f * (px - cx)) + f * (pz - cz) * (f * (pz - cz)))
    with (f * f * u) by (subst u; ring).
  assert (H3 : 0 <= (f * f - 1) * u) by (apply Rmult_le_pos; lra).
  lra.
Qed.

(* one visit of the particle loop: the active flag it leaves, and where the
   particle is afterwards *)
Lemma cutOrganicParticle_effect (center : Vector3) (radius : R)
  (shape : list (R * R)) (rnd : Random) (k : nat) (cut : gset nat)
  (p : Particle.t) :
  0 <= rnd (S k) ->
  let p' := (cutOrganicParticle center radius shape rnd k cut p).1.2 in
  let d := planar center (Particle.position p) in
  (d < radius -> Particle.active p' = false /\
                 Particle.position p' = Particle.position p) /\
  (radius <= d -> Particle.active p' = Particle.active p /\
                  d <= planar center (Particle.position p')).
Proof.
  intros Hr. cbv zeta. unfold cutOrganicParticle. cbv zeta.
  fold (planar center (Particle.position p)).
  set (d := planar center (Particle.position p)).
  assert (Hd : 0 <= d) by apply sqrt_pos.
  destruct (Rlt_dec d (radius * 1.5)) as [H15|H15].
  - destruct (Rlt_dec d radius) as [H1|H1]; simpl.
    + split; [intros _; now split|lra].
    + split; [lra|]. intros _.
      destruct (Rlt_dec 0.5 (rnd k)); simpl.
      * split; [reflexivity|]. apply push_outward. lra.
      * split; [reflexivity|]. fold d. lra.
  - simpl. split; [lra|]. intros _. split; [reflexivity|]. fold d. lra.
Qed.

Lemma cutOrganicParticle_again (center : Vector3) (radius : R)
  (shape shape' : list (R * R)) (rnd rnd' : Random) (k k' : nat)
  (cut cut' : gset nat) (p : Particle.t) :
  0 <= rnd (S k) -> 0 <= rnd' (S k') ->
  let p1 := (cutOrganicParticle center radius shape rnd k cut p).1.2 in
  let p2 := (cutOrganicParticle center radius shape' rnd' k' cut' p1).1.2 in
  Particle.active p2 = Particle.active p1.
Proof.
  intros Hr Hr'. cbv zeta.
  destruct (cutOrganicParticle_effect center radius shape rnd k cut p Hr)
    as [Hin Hout]. cbv zeta in Hin, Hout.
  set (p1 := (cutOrganicParticle center radius shape rnd k cut p).1.2) in *.
  destruct (cutOrganicParticle_effect center radius shape' rnd' k' cut' p1 Hr')
    as [Hin' Hout']. cbv zeta in Hin', Hout'.
  destruct (Rlt_dec (planar center (Particle.position p)) radius) as [H|H].
  - destruct (Hin H) as [Ha Hp]. rewrite Hp in Hin'.
    destruct (Hin' H) as [Ha' _]. congruence.
  - destruct (Hout ltac:(lra)) as [_ Hd].
    now destruct (Hout' ltac:(lra)) as [Ha' _].
Qed.

(* draws of Math.random() are never negative *)
Definition nonnegative (rnd : Random) : Prop := forall n, 0 <= rnd n.

Lemma cutOrganicParticles_again (center : Vector3) (radius : R)
  (shape shape' : list (R * R)) (rnd rnd' : Random) (ps : list Particle.t) :
  nonnegative rnd -> nonnegative rnd' ->
  forall (k k' : nat) (cut cut' : gset nat),
    let ps1 := (cutOrganicParticles center radius shape rnd k cut ps).1.2 in
    let ps2 := (cutOrganicParticles center radius shape' rnd' k' cut' ps1).1.2 in
    map Particle.active ps2 = map Particle.active ps1.
Proof.
  intros Hr Hr'. induction ps as [|p ps IH]; intros k k' cut cut'; [reflexivity|].
  cbv zeta. simpl.
  pose proof (fun k' cut' =>
    cutOrganicParticle_again center radius shape shape' rnd rnd' k k' cut cut' p
      (Hr (S k)) (Hr' (S k'))) as Hp.
  cbv zeta in Hp.
  destruct (cutOrganicParticle center radius shape rnd k cut p) as [[k1 p1] cut1].
  specialize (IH k1). cbv zeta in IH.
  destruct (cutOrganicParticles center radius shape rnd k1 cut1 ps)
    as [[k2 ps1] cut2] eqn:E1.
  simpl in *.
  specialize (Hp k' cut').
  destruct (cutOrganicParticle center radius shape' rnd' k' cut' p1)
    as [[k1' p2] cut1'].
  specialize (IH k1' cut1 cut1'). rewrite E1 in IH. simpl in IH.
  destruct (cutOrganicParticles center radius shape' rnd' k1' cut1' ps1)
    as [[k2' ps2] cut2'].
  simpl in *. now rewrite Hp, IH.
Qed.

(** X1. Calling [cutOrganic] a second time with the same centre and radius
    leaves the active flag of every particle as the first call left it,
    whatever the draws of the two calls are (a draw is never negative): the
    set of active particles of C5 is the same after one call and after
    two. *)
Lemma cutOrganic_again (center : Vector3) (radius : R) (rnd rnd' : Random)
  (k k' : nat) (s : ClothPhysics) :
  nonnegative rnd -> nonnegative rnd' ->
  map Particle.active
    (particles (cutOrganic center radius rnd' k'
                  (cutOrganic center radius rnd k s).2).2)
  = map Particle.active (particles (cutOrganic center radius rnd k s).2).
Proof.
  intros Hr Hr'. unfold cutOrganic.
  pose proof (cutOrganicParticles_again center radius
                (cutShape center radius rnd k) (cutShape center radius rnd' k')
                rnd rnd' (particles s) Hr Hr' (k + 16)%nat (k' + 16)%nat
                (cutParticles s)) as H.
  cbv zeta in H.
  destruct (cutOrganicParticles center radius (cutShape center radius rnd k)
              rnd (k + 16) (cutParticles s) (particles s)) as [[k1 ps1] cut1].
  simpl in *. specialize (H cut1).
  destruct (cutOrganicParticles center radius (cutShape center radius rnd' k')
              rnd' (k' + 16) cut1 ps1) as [[k2 ps2] cut2].
  exact H.
Qed.

Lemma cutOrganic_again_witness :
  map Particle.active
    (particles (cutOrganic firstCenter 1 zeroRandom 17
                  (cutOrganic firstCenter 1 zeroRandom 0 rowState).2).2)
  = map Particle.active
      (particles (cutOrganic firstCenter 1 zeroRandom 0 rowState).2).
Proof.
  apply (cutOrganic_again firstCenter 1 zeroRandom zeroRandom 0 17 rowState);
    intros n; unfold zeroRandom; lra.
Defined.

(** *** What update leaves of a particle and of a constraint *)

(* an observation of a particle that reads none of the fields the update
   loop writes: position, previousPosition, velocity, force and pinned *)
Definition ignoresMotion {B : Type} (f : Particle.t -> B) : Prop :=
  (forall p v, f (Particle.set_position p v) = f p) /\
  (forall p v, f (Particle.set_previousPosition p v) = f p) /\
  (forall p v, f (Particle.set_velocity p v) = f p) /\
  (forall p v, f (Particle.set_force p v) = f p) /\
  (forall p b, f (Particle.set_pinned p b) = f p).

(* update(deltaTime) with its stages named *)
Lemma update_stages (deltaTime : R) (rnd : Random) (k : nat) (s : ClothPhysics) :
  let dt := clampDeltaTime deltaTime in
  let ps2 := attachToPivotsOn (pivotPoints s) (particles s) in
  let r := applyForces (params s) (time s + dt) rnd k ps2 in
  update deltaTime rnd k s
  = (r.1,
     fold_left (fun st _ => satisfyConstraints st) (seq 0 4)
       (set_particles (set_time s (time s + dt)) (map (verlet dt) r.2))).
Proof.
  intros dt ps2 r. subst r ps2 dt. unfold update, attachToPivots. cbv zeta.
  cbn [params time particles pivotPoints set_particles set_time].
  now destruct (applyForces _ _ rnd k _).
Qed.

Section Observation.

Context {B : Type} (f : Particle.t -> B) (Hf : ignoresMotion f).

Lemma attachPivot_obs (ps : list Particle.t) (pivotPos : Vector3) :
  f <$> attachPivot ps pivotPos = f <$> ps.
Proof.
  destruct Hf as (H1 & H2 & _ & _ & H5). unfold attachPivot.
  destruct (nearestTop pivotPos ps) as [[i d]|]; [|reflexivity].
  destruct (Rlt_dec _ _); [|reflexivity].
  destruct (ps !! i) as [p|] eqn:Hp; [|reflexivity].
  apply (fmap_insert_same f ps i p _ Hp). unfold pinTo. now rewrite H2, H1, H5.
Qed.

Lemma attachToPivotsOn_obs (pivots : list Vector3) (ps : list Particle.t) :
  f <$> attachToPivotsOn pivots ps = f <$> ps.
Proof.
  destruct Hf as (_ & _ & _ & _ & H5). unfold attachToPivotsOn.
  rewrite (fold_left_preserves (fmap f) attachPivot)
    by (intros; apply attachPivot_obs).
  unfold clearPins. change (map ?g ps) with (g <$> ps).
  rewrite <- list_fmap_compose. apply list_fmap_ext. intros i p _. apply H5.
Qed.

Lemma applyForces_obs (prm : Params) (time : R) (rnd : Random) (k : nat)
  (ps : list Particle.t) :
  f <$> (applyForces prm time rnd k ps).2 = f <$> ps.
Proof.
  destruct Hf as (_ & _ & _ & H4 & _).
  revert k. induction ps as [|p ps IH]; intros k; [reflexivity|].
  cbn [applyForces].
  assert (Hp : f (applyForce prm time rnd k p).2 = f p).
  { unfold applyForce. destruct (_ && _); [apply H4|reflexivity]. }
  destruct (applyForce prm time rnd k p) as [k1 p']. specialize (IH k1).
  destruct (applyForces prm time rnd k1 ps) as [k2 rest'].
  cbn [snd] in *. rewrite !fmap_cons. now rewrite Hp, IH.
Qed.

Lemma verlet_obs (deltaTime : R) (ps : list Particle.t) :
  f <$> map (verlet deltaTime) ps = f <$> ps.
Proof.
  destruct Hf as (H1 & H2 & H3 & _ & _).
  change (map ?g ps) with (g <$> ps).
  rewrite <- list_fmap_compose. apply list_fmap_ext. intros i p _. cbn.
  unfold verlet. destruct (_ && _); [|reflexivity]. now rewrite H3, H2, H1.
Qed.

Lemma correct_obs (c : Constraint.t) (a b : Particle.t) :
  f (correct c a b).1 = f a /\ f (correct c a b).2 = f b.
Proof.
  destruct Hf as (H1 & _). unfold correct.
  destruct (Particle.pinned a), (Particle.pinned b); cbn; now rewrite ?H1.
Qed.

Lemma physics_visit_obs (prm : Params) (c : Constraint.t)
  (ps : list Particle.t) :
  f <$> (visit prm c ps).2 = f <$> ps.
Proof.
  unfold visit.
  destruct (ps !! Constraint.p1 c) as [a|] eqn:Ha; [|reflexivity].
  destruct (ps !! Constraint.p2 c) as [b|] eqn:Hb; [|reflexivity].
  destruct (_ || _); [reflexivity|].
  destruct (Rlt_dec 0 _) as [Hpos|]; [|reflexivity].
  destruct (Rlt_dec _ _); [reflexivity|].
  destruct (correct_obs c a b) as [E1 E2].
  destruct (correct c a b) as [a' b']. cbn [fst snd] in *.
  destruct (decide (Constraint.p1 c = Constraint.p2 c)) as [E|N].
  - exfalso. rewrite E, Hb in Ha. injection Ha as <-.
    rewrite length_sub_self in Hpos. lra.
  - rewrite (fmap_insert_same f (<[Constraint.p1 c := a']> ps) _ b b').
    + now apply (fmap_insert_same f ps _ a a').
    + now rewrite list_lookup_insert_ne.
    + exact E2.
Qed.

Lemma physics_visitAt_obs (prm : Params)
  (st : list Constraint.t * list Particle.t) (j : nat) :
  f <$> (visitAt prm st j).2 = f <$> st.2.
Proof.
  unfold visitAt. destruct (st.1 !! j) as [c|]; [|reflexivity].
  pose proof (physics_visit_obs prm c st.2) as H.
  now destruct (visit prm c st.2).
Qed.

Lemma satisfyConstraints_obs (s : ClothPhysics) :
  f <$> particles (satisfyConstraints s) = f <$> particles s.
Proof.
  unfold satisfyConstraints, satisfyConstraintsOn. cbv zeta.
  cbn [particles set_constraints set_particles].
  apply (fold_left_preserves (fun st => f <$> st.2) (visitAt (params s))).
  intros. apply physics_visitAt_obs.
Qed.

Lemma update_obs (deltaTime : R) (rnd : Random) (k : nat) (s : ClothPhysics) :
  f <$> particles (update deltaTime rnd k s).2 = f <$> particles s.
Proof.
  rewrite update_stages. cbv zeta. cbn [snd].
  rewrite (fold_left_preserves (fun st => f <$> particles st)
             (fun st (_ : nat) => satisfyConstraints st))
    by (intros; apply satisfyConstraints_obs).
  cbn [particles set_particles].
  now rewrite verlet_obs, applyForces_obs, attachToPivotsOn_obs.
Qed.

End Observation.

(* what identifies a particle, with its rest position, its mass and its
   damage *)
Definition identity (p : Particle.t)
  : nat * nat * nat * Vector3 * R * bool * R :=
  (Particle.index p, Particle.x p, Particle.y p, Particle.originalPosition p,
   Particle.mass p, Particle.active p, Particle.cutFactor p).

(* a constraint but for its active flag *)
Definition wiring (c : Constraint.t) : nat * nat * R * R * R :=
  (Constraint.p1 c, Constraint.p2 c, Constraint.restLength c,
   Constraint.stiffness c, Constraint.baseStiffness c).

Lemma identity_ignoresMotion : ignoresMotion identity.
Proof. now repeat split. Qed.

Lemma physics_visit_wiring (prm : Params) (c : Constraint.t)
  (ps : list Particle.t) :
  wiring (visit prm c ps).1 = wiring c.
Proof.
  unfold visit.
  destruct (ps !! Constraint.p1 c) as [a|]; [|reflexivity].
  destruct (ps !! Constraint.p2 c) as [b|]; [|reflexivity].
  destruct (_ || _); [reflexivity|].
  destruct (Rlt_dec 0 _); [|reflexivity].
  destruct (Rlt_dec _ _); [reflexivity|]. now destruct (correct c a b).
Qed.

Lemma physics_visitAt_wiring (prm : Params)
  (st : list Constraint.t * list Particle.t) (j : nat) :
  wiring <$> (visitAt prm st j).1 = wiring <$> st.1.
Proof.
  unfold visitAt. destruct (st.1 !! j) as [c|] eqn:Hc; [|reflexivity].
  pose proof (physics_visit_wiring prm c st.2) as H.
  destruct (visit prm c st.2) as [c' ps']. cbn [fst] in *.
  now apply (fmap_insert_same wiring st.1 j c c').
Qed.

Lemma satisfyConstraints_wiring (s : ClothPhysics) :
  wiring <$> constraints (satisfyConstraints s) = wiring <$> constraints s.
Proof.
  unfold satisfyConstraints, satisfyConstraintsOn. cbv zeta.
  cbn [constraints set_constraints set_particles].
  apply (fold_left_preserves (fun st => wiring <$> st.1) (visitAt (params s))).
  intros. apply physics_visitAt_wiring.
Qed.

(* the cursor of the random source after the force loop *)
Lemma applyForces_cursor (prm : Params) (time : R) (rnd : Random) (k : nat)
  (ps : list Particle.t) :
  (k <= (applyForces prm time rnd k ps).1 <= k + length ps)%nat.
Proof.
  revert k. induction ps as [|p ps IH]; intros k; [simpl; lia|].
  cbn [applyForces].
  assert (Hp : (k <= (applyForce prm time rnd k p).1 <= S k)%nat).
  { unfold applyForce. destruct (_ && _); simpl; lia. }
  destruct (applyForce prm time rnd k p) as [k1 p']. specialize (IH k1).
  destruct (applyForces prm time rnd k1 ps) as [k2 rest'].
  cbn [fst length] in *. lia.
Qed.

(* what update keeps: the settings, the set of cut particles, the identity
   of every particle and the wiring of every constraint *)
Lemma update_keeps (deltaTime : R) (rnd : Random) (k : nat) (s : ClothPhysics) :
  let r := update deltaTime rnd k s in
  time r.2 = time s + clampDeltaTime deltaTime /\
  pivotPoints r.2 = pivotPoints s /\
  params r.2 = params s /\
  cutParticles r.2 = cutParticles s /\
  identity <$> particles r.2 = identity <$> particles s /\
  wiring <$> constraints r.2 = wiring <$> constraints s.
Proof.
  intros r.
  assert (Hid : identity <$> particles r.2 = identity <$> particles s)
    by apply (update_obs identity identity_ignoresMotion).
  subst r. rewrite update_stages in *. cbv zeta in *. cbn [fst snd] in *.
  set (ps2 := attachToPivotsOn (pivotPoints s) (particles s)) in *.
  set (r := applyForces (params s) (time s + clampDeltaTime deltaTime) rnd k ps2) in *.
  set (s4 := set_particles (set_time s (time s + clampDeltaTime deltaTime))
               (map (verlet (clampDeltaTime deltaTime)) r.2)) in *.
  set (rounds := fold_left (fun st (_ : nat) => satisfyConstraints st) (seq 0 4)) in *.
  assert (E5 : time (rounds s4) = time s4)
    by (apply (fold_left_preserves time); reflexivity).
  assert (E6 : pivotPoints (rounds s4) = pivotPoints s4)
    by (apply (fold_left_preserves pivotPoints); reflexivity).
  assert (E7 : params (rounds s4) = params s4)
    by (apply (fold_left_preserves params); reflexivity).
  assert (E8 : cutParticles (rounds s4) = cutParticles s4)
    by (apply (fold_left_preserves cutParticles); reflexivity).
  assert (Hw : wiring <$> constraints (rounds s4) = wiring <$> constraints s4).
  { apply (fold_left_preserves (fun st => wiring <$> constraints st)).
    intros. apply satisfyConstraints_wiring. }
  rewrite E5, E6, E7, E8, Hw. now repeat split.
Qed.

(** X15. [update] moves particles and may tear constraints, and that is all
    it does: the clock advances by the clamped time step; the pivot points,
    the physics parameters and the set of cut particles are untouched; no
    particle is added or removed, and none changes its index, grid
    coordinates, rest position, mass, active flag or cut factor; no
    constraint is added or removed, and none changes its endpoints, rest
    length, stiffness or base stiffness.  The force loop draws one random
    number per particle at most. *)
Lemma update_frame (deltaTime : R) (rnd : Random) (k : nat) (s : ClothPhysics) :
  let r := update deltaTime rnd k s in
  time r.2 = time s + clampDeltaTime deltaTime /\
  pivotPoints r.2 = pivotPoints s /\
  params r.2 = params s /\
  cutParticles r.2 = cutParticles s /\
  identity <$> particles r.2 = identity <$> particles s /\
  wiring <$> constraints r.2 = wiring <$> constraints s /\
  length (particles r.2) = length (particles s) /\
  length (constraints r.2) = length (constraints s) /\
  (k <= r.1 <= k + length (particles s))%nat.
Proof.
  intros r.
  destruct (update_keeps deltaTime rnd k s) as (H1 & H2 & H3 & H4 & H5 & H6).
  fold r in H1, H2, H3, H4, H5, H6.
  do 6 (split; [assumption|]).
  split; [rewrite <- (length_fmap identity), H5; apply length_fmap|].
  split; [rewrite <- (length_fmap wiring), H6; apply length_fmap|].
  subst r. rewrite update_stages. cbv zeta. cbn [fst].
  pose proof (applyForces_cursor (params s)
                (time s + clampDeltaTime deltaTime) rnd k
                (attachToPivotsOn (pivotPoints s) (particles s))) as [Hlo Hhi].
  assert (L : length (attachToPivotsOn (pivotPoints s) (particles s))
              = length (particles s)).
  { rewrite <- (length_fmap identity).
    rewrite (attachToPivotsOn_obs identity identity_ignoresMotion).
    apply length_fmap. }
  lia.
Qed.

(** *** update and the particles that were cut out *)

(* every inactive particle of [ps] is found unchanged, at its place, in [qs] *)
Definition keepsInactive (ps qs : list Particle.t) : Prop :=
  forall i p, ps !! i = Some p -> Particle.active p = false -> qs !! i = Some p.

Lemma keepsInactive_refl (ps : list Particle.t) : keepsInactive ps ps.
Proof. now intros i p H _. Qed.

Lemma keepsInactive_trans (ps qs rs : list Particle.t) :
  keepsInactive ps qs -> keepsInactive qs rs -> keepsInactive ps rs.
Proof. intros H1 H2 i p Hp Hin. apply H2; [now apply H1|exact Hin]. Qed.

Lemma keepsInactive_insert (ps : list Particle.t) (j : nat) (a a' : Particle.t) :
  ps !! j = Some a -> Particle.active a = true ->
  keepsInactive ps (<[j := a']> ps).
Proof.
  intros Ha Hact i p Hp Hin. destruct (decide (i = j)) as [->|N].
  - rewrite Ha in Hp. injection Hp as <-. congruence.
  - now rewrite list_lookup_insert_ne.
Qed.

Lemma applyForces_keepsInactive (prm : Params) (time : R) (rnd : Random)
  (ps : list Particle.t) (k : nat) :
  keepsInactive ps (applyForces prm time rnd k ps).2.
Proof.
  revert k. induction ps as [|p ps IH]; intros k; [apply keepsInactive_refl|].
  cbn [applyForces].
  assert (Hp : Particle.active p = false -> (applyForce prm time rnd k p).2 = p).
  { intros H. unfold applyForce. now rewrite H, andb_false_r. }
  destruct (applyForce prm time rnd k p) as [k1 p']. specialize (IH k1).
  destruct (applyForces prm time rnd k1 ps) as [k2 rest']. cbn [snd] in *.
  intros [|i] q Hq Hin; cbn in *.
  - injection Hq as <-. now rewrite Hp.
  - now apply IH.
Qed.

Lemma verlet_keepsInactive (deltaTime : R) (ps : list Particle.t) :
  keepsInactive ps (map (verlet deltaTime) ps).
Proof.
  intros i p Hp Hin. rewrite lookup_map, Hp. cbn. unfold verlet.
  now rewrite Hin, andb_false_r.
Qed.

Lemma physics_visit_keepsInactive (prm : Params) (c : Constraint.t)
  (ps : list Particle.t) :
  keepsInactive ps (visit prm c ps).2.
Proof.
  unfold visit.
  destruct (ps !! Constraint.p1 c) as [a|] eqn:Ha; [|apply keepsInactive_refl].
  destruct (ps !! Constraint.p2 c) as [b|] eqn:Hb; [|apply keepsInactive_refl].
  destruct (Constraint.active c); [|apply keepsInactive_refl].
  destruct (Particle.active a) eqn:Haa; [|apply keepsInactive_refl].
  destruct (Particle.active b) eqn:Hba; [|apply keepsInactive_refl].
  cbn [negb orb].
  destruct (Rlt_dec 0 _) as [Hpos|]; [|apply keepsInactive_refl].
  destruct (Rlt_dec _ _); [apply keepsInactive_refl|].
  destruct (correct c a b) as [a' b']. cbn [snd].
  apply (keepsInactive_trans _ (<[Constraint.p1 c := a']> ps)).
  - now apply (keepsInactive_insert ps _ a).
  - destruct (decide (Constraint.p1 c = Constraint.p2 c)) as [E|N].
    + exfalso. rewrite E, Hb in Ha. injection Ha as <-.
      rewrite length_sub_self in Hpos. lra.
    + apply (keepsInactive_insert _ _ b); [|exact Hba].
      now rewrite list_lookup_insert_ne.
Qed.

Lemma satisfyConstraints_keepsInactive (s : ClothPhysics) :
  keepsInactive (particles s) (particles (satisfyConstraints s)).
Proof.
  unfold satisfyConstraints, satisfyConstraintsOn. cbv zeta.
  cbn [particles set_constraints set_particles].
  generalize (seq 0 (length (constraints s, particles s).1)). intros js.
  assert (G : forall st,
            keepsInactive st.2 (fold_left (visitAt (params s)) js st).2).
  { induction js as [|j js IH]; intros st; cbn [fold_left];
      [apply keepsInactive_refl|].
    eapply keepsInactive_trans; [|apply IH].
    destruct st as [cs ps]. unfold visitAt. cbn [fst snd].
    destruct (cs !! j) as [c|]; [|apply keepsInactive_refl].
    pose proof (physics_visit_keepsInactive (params s) c ps) as H.
    now destruct (visit (params s) c ps). }
  apply (G (constraints s, particles s)).
Qed.

Lemma rounds_keepsInactive (rounds : list nat) (s : ClothPhysics) :
  keepsInactive (particles s)
    (particles (fold_left (fun st _ => satisfyConstraints st) rounds s)).
Proof.
  revert s. induction rounds as [|r rounds IH]; intros s; cbn [fold_left];
    [apply keepsInactive_refl|].
  eapply keepsInactive_trans; [apply satisfyConstraints_keepsInactive|apply IH].
Qed.

(* what anchor resolution makes of the particle at a place: the particle
   with its pin cleared, or that particle snapped to one of the anchors *)
Definition resolved (pivots : list Vector3) (p q : Particle.t) : Prop :=
  q = Particle.set_pinned p false \/
  exists pivotPos, In pivotPos pivots /\
    q = pinTo pivotPos (Particle.set_pinned p false).

Lemma attachToPivotsOn_resolved (pivots : list Vector3) (ps : list Particle.t)
  (i : nat) (p : Particle.t) :
  ps !! i = Some p ->
  exists q, attachToPivotsOn pivots ps !! i = Some q /\ resolved pivots p q.
Proof.
  intros Hp. unfold attachToPivotsOn.
  assert (G : forall more done r,
            (exists q, r !! i = Some q /\ resolved done p q) ->
            exists q, fold_left attachPivot more r !! i = Some q /\
                      resolved (done ++ more) p q).
  { induction more as [|pv more IH]; intros done r H; cbn [fold_left].
    - now rewrite app_nil_r.
    - replace (done ++ pv :: more) with ((done ++ [pv]) ++ more)
        by now rewrite <- app_assoc.
      apply IH. destruct H as (q & Hq & Hres).
      assert (Hweak : resolved (done ++ [pv]) p q).
      { destruct Hres as [->|(pv' & Hin & ->)]; [now left|].
        right. exists pv'. split; [apply in_or_app; now left|reflexivity]. }
      unfold attachPivot.
      destruct (nearestTop pv r) as [[j d]|]; [|now exists q].
      destruct (Rlt_dec _ _); [|now exists q].
      destruct (r !! j) as [pj|] eqn:Hj; [|now exists q].
      destruct (decide (i = j)) as [->|N].
      + rewrite Hq in Hj. injection Hj as <-.
        exists (pinTo pv q). split.
        * apply list_lookup_insert_eq. apply lookup_lt_is_Some. eauto.
        * right. exists pv. split; [apply in_or_app; right; now left|].
          destruct Hres as [->|(pv' & _ & ->)]; reflexivity.
      + exists q. now rewrite list_lookup_insert_ne. }
  apply (G pivots [] (clearPins ps)).
  exists (Particle.set_pinned p false). split; [|now left].
  unfold clearPins. now rewrite lookup_map, Hp.
Qed.

(** X16. A particle that has been cut out (inactive) is not simulated any
    more, but it is still anchored: after [update] it is the particle it was
    with its pin flag cleared, or that particle pinned at one of the pivot
    points, which anchor resolution selects by rest position without looking
    at the active flag.  Gravity, wind, integration and the constraint
    passes never move it. *)
Lemma update_inactive_particle (deltaTime : R) (rnd : Random) (k : nat)
  (s : ClothPhysics) (i : nat) (p : Particle.t) :
  particles s !! i = Some p -> Particle.active p = false ->
  exists q, particles (update deltaTime rnd k s).2 !! i = Some q /\
    (q = Particle.set_pinned p false \/
     exists pivotPos, In pivotPos (pivotPoints s) /\
       q = pinTo pivotPos (Particle.set_pinned p false)).
Proof.
  intros Hp Hin.
  destruct (attachToPivotsOn_resolved (pivotPoints s) (particles s) i p Hp)
    as (q & Hq & Hres).
  exists q. split; [|exact Hres].
  assert (Hqa : Particle.active q = false).
  { destruct Hres as [->|(pv & _ & ->)]; exact Hin. }
  rewrite update_stages. cbv zeta. cbn [snd].
  apply rounds_keepsInactive; [|exact Hqa].
  cbn [particles set_particles].
  apply verlet_keepsInactive; [|exact Hqa].
  now apply applyForces_keepsInactive.
Qed.

Definition cutOutState : ClothPhysics :=
  mkClothPhysics 1 1 1 1 [anchor] defaultParams
    [Particle.set_active driftedTop false; otherTop] [] ∅ 0.

Lemma update_inactive_particle_witness :
  exists q, particles (update 0.016 (fun _ => 0) 0 cutOutState).2 !! 0%nat = Some q /\
    (q = Particle.set_pinned (Particle.set_active driftedTop false) false \/
     exists pivotPos, In pivotPos (pivotPoints cutOutState) /\
       q = pinTo pivotPos
             (Particle.set_pinned (Particle.set_active driftedTop false) false)).
Proof.
  apply (update_inactive_particle 0.016 (fun _ => 0) 0 cutOutState 0
           (Particle.set_active driftedTop false)); reflexivity.
Defined.

(** *** init: the particles *)

Lemma set_constraints_same (s : ClothPhysics) :
  set_constraints s (constraints s) = s.
Proof. now destruct s. Qed.

(* addConstraint and the loops of createConstraints write the constraint
   array and nothing else *)
Lemma addConstraint_writes (index1 index2 : nat) (stiffness : R)
  (s : ClothPhysics) :
  exists cs, addConstraint index1 index2 stiffness s = set_constraints s cs.
Proof.
  unfold addConstraint.
  destruct (particles s !! index1), (particles s !! index2);
    first [ eexists; reflexivity
          | exists (constraints s); now rewrite set_constraints_same ].
Qed.

Lemma createConstraintsAt_writes (s : ClothPhysics) (xy : nat * nat) :
  exists cs, createConstraintsAt s xy = set_constraints s cs.
Proof.
  assert (W : forall (b : bool) i1 i2 st t,
            (exists cs, t = set_constraints s cs) ->
            exists cs, (if b then addConstraint i1 i2 st t else t)
                       = set_constraints s cs).
  { intros b i1 i2 st t (cs & ->). destruct b; [|now exists cs].
    destruct (addConstraint_writes i1 i2 st (set_constraints s cs)) as (cs' & ->).
    now exists cs'. }
  destruct xy as [x y]. unfold createConstraintsAt. cbv zeta.
  apply W. apply W.
  destruct (_ && _).
  - apply (W true). apply (W true). apply W. apply W.
    exists (constraints s). now rewrite set_constraints_same.
  - apply W. apply W. exists (constraints s). now rewrite set_constraints_same.
Qed.

Lemma createConstraints_writes (s : ClothPhysics) :
  exists cs, createConstraints s = set_constraints s cs.
Proof.
  unfold createConstraints.
  generalize (ClothJs.gridCoords (segmentsX s) (segmentsY s)). intros l.
  assert (G : forall t, (exists cs, t = set_constraints s cs) ->
            exists cs, fold_left createConstraintsAt l t = set_constraints s cs).
  { induction l as [|xy l IH]; intros t H; [exact H|].
    cbn [fold_left]. apply IH. destruct H as (cs & ->).
    destruct (createConstraintsAt_writes (set_constraints s cs) xy) as (cs' & ->).
    now exists cs'. }
  apply G. now exists [].
Qed.

Lemma init_particles_eq (s : ClothPhysics) :
  particles (init s)
  = attachToPivotsOn (pivotPoints s)
      (map (newParticle s) (ClothJs.gridCoords (segmentsX s) (segmentsY s))).
Proof.
  unfold init. cbv zeta.
  match goal with |- particles (createConstraints ?t) = _ =>
    destruct (createConstraints_writes t) as (cs & ->) end.
  reflexivity.
Qed.

Lemma init_settings (s : ClothPhysics) :
  cutParticles (init s) = ∅ /\ time (init s) = time s /\
  pivotPoints (init s) = pivotPoints s /\ params (init s) = params s /\
  segmentsX (init s) = segmentsX s /\ segmentsY (init s) = segmentsY s /\
  width (init s) = width s /\ height (init s) = height s.
Proof.
  unfold init. cbv zeta.
  match goal with |- context [createConstraints ?t] =>
    destruct (createConstraints_writes t) as (cs & ->) end.
  now repeat split.
Qed.

(* the rest position of the particle of column [x] and row [y] *)
Definition restPoint (s : ClothPhysics) (x y : nat) : Vector3 :=
  THREE.Vec3 (INR x * (width s / INR (segmentsX s)) - width s / 2)
    (- INR y * (height s / INR (segmentsY s)) + height s / 2) 0.

Lemma grid_lookup (s : ClothPhysics) (i : nat) :
  (i < (segmentsY s + 1) * (segmentsX s + 1))%nat ->
  map (newParticle s) (ClothJs.gridCoords (segmentsX s) (segmentsY s)) !! i
  = Some (newParticle s (i mod (segmentsX s + 1), i / (segmentsX s + 1))%nat).
Proof.
  intros Hi. now rewrite lookup_map, ClothJsFacts.gridCoords_lookup.
Qed.

Lemma init_length (s : ClothPhysics) :
  length (particles (init s)) = ((segmentsY s + 1) * (segmentsX s + 1))%nat.
Proof.
  rewrite init_particles_eq.
  rewrite <- (length_fmap identity),
    (attachToPivotsOn_obs identity identity_ignoresMotion), length_fmap.
  now rewrite length_map, ClothJsFacts.gridCoords_length.
Qed.

(* the particle init leaves at place [i] *)
Lemma init_grid (s : ClothPhysics) (i : nat) :
  (i < (segmentsY s + 1) * (segmentsX s + 1))%nat ->
  exists p, particles (init s) !! i = Some p /\
    Particle.index p = i /\
    Particle.x p = (i mod (segmentsX s + 1))%nat /\
    Particle.y p = (i / (segmentsX s + 1))%nat /\
    Particle.active p = true /\ Particle.cutFactor p = 1 /\
    Particle.mass p = mass (params s) /\
    Particle.originalPosition p
      = restPoint s (i mod (segmentsX s + 1)) (i / (segmentsX s + 1)) /\
    (Particle.pinned p = false ->
     Particle.position p = Particle.originalPosition p /\
     Particle.previousPosition p = Particle.originalPosition p) /\
    (Particle.pinned p = true ->
     Particle.y p = 0%nat /\
     exists pivotPos, In pivotPos (pivotPoints s) /\
       Particle.position p = pivotPos /\
       Particle.previousPosition p = pivotPos /\
       THREE.distanceTo (Particle.originalPosition p) pivotPos < snapDistance).
Proof.
  rewrite init_particles_eq.
  set (grid := map (newParticle s)
                 (ClothJs.gridCoords (segmentsX s) (segmentsY s))).
  intros Hi. pose proof (grid_lookup s i Hi) as Hg. fold grid in Hg.
  set (p0 := newParticle s (i mod (segmentsX s + 1), i / (segmentsX s + 1))%nat)
    in *.
  destruct (attachToPivotsOn_resolved (pivotPoints s) grid i p0 Hg)
    as (q & Hq & Hres).
  exists q. split; [exact Hq|].
  assert (Hid : identity q = identity p0).
  { destruct Hres as [->|(pv & _ & ->)]; reflexivity. }
  unfold identity in Hid. injection Hid as E1 E2 E3 E4 E5 E6 E7.
  rewrite E1, E2, E3, E4, E5, E6, E7.
  split.
  { symmetry. rewrite Nat.mul_comm. apply Nat.div_mod_eq. }
  do 6 (split; [first [reflexivity|lra]|]). split.
  - intros Hfree. destruct Hres as [->|(pv & _ & ->)]; [now split|discriminate].
  - intros Hpin.
    destruct (attachToPivotsOn_attached (pivotPoints s) grid) as (_ & H & _).
    destruct (H i q Hq Hpin) as (pv & d & Hin & Hn & Hd & Hp & Hpp).
    destruct (nearestTop_spec pv grid i d Hn) as (p' & Hp' & Hy & Ed & _).
    rewrite Hg in Hp'. injection Hp' as <-.
    split; [exact Hy|]. exists pv. repeat split; try assumption.
    rewrite Ed in Hd. exact Hd.
Qed.

(** X17. [init] lays the cloth out afresh, whatever the state was: there are
    (segmentsX + 1) * (segmentsY + 1) particles; the particle at place i has
    index i, column i mod (segmentsX + 1) and row i / (segmentsX + 1), is
    active with cut factor 1 and has its rest position at its grid point; a
    particle that is not pinned stands at rest at that point, a pinned one is
    a top-row particle nearer than 0.5 to the pivot point it stands on.  The
    set of cut particles is emptied; the clock is not reset. *)
Lemma init_particles (s : ClothPhysics) :
  length (particles (init s))
    = ((segmentsY s + 1) * (segmentsX s + 1))%nat /\
  cutParticles (init s) = ∅ /\
  time (init s) = time s /\
  forall i, (i < (segmentsY s + 1) * (segmentsX s + 1))%nat ->
    exists p, particles (init s) !! i = Some p /\
      Particle.index p = i /\
      Particle.x p = (i mod (segmentsX s + 1))%nat /\
      Particle.y p = (i / (segmentsX s + 1))%nat /\
      Particle.active p = true /\ Particle.cutFactor p = 1 /\
      Particle.mass p = mass (params s) /\
      Particle.originalPosition p
        = restPoint s (i mod (segmentsX s + 1)) (i / (segmentsX s + 1)) /\
      (Particle.pinned p = false ->
       Particle.position p = Particle.originalPosition p /\
       Particle.previousPosition p = Particle.originalPosition p) /\
      (Particle.pinned p = true ->
       Particle.y p = 0%nat /\
       exists pivotPos, In pivotPos (pivotPoints s) /\
         Particle.position p = pivotPos /\
         Particle.previousPosition p = pivotPos /\
         THREE.distanceTo (Particle.originalPosition p) pivotPos < snapDistance).
Proof.
  destruct (init_settings s) as (Hc & Ht & _).
  split; [apply init_length|]. split; [exact Hc|]. split; [exact Ht|].
  apply init_grid.
Qed.

(** *** init: the constraints *)

(* a constraint as addConstraint makes it, over the particles [ps] *)
Definition fresh (ps : list Particle.t) (c : Constraint.t) : Prop :=
  Constraint.active c = true /\
  Constraint.stiffness c = Constraint.baseStiffness c /\
  (Constraint.p1 c < Constraint.p2 c)%nat /\
  exists a b,
    ps !! Constraint.p1 c = Some a /\ ps !! Constraint.p2 c = Some b /\
    Constraint.restLength c
      = THREE.distanceTo (Particle.position a) (Particle.position b).

Definition allFresh (s : ClothPhysics) : Prop :=
  Forall (fresh (particles s)) (constraints s).

(* the three stiffnesses createConstraints passes to addConstraint:
   structural, shear and bending *)
Definition graded (prm : Params) (c : Constraint.t) : Prop :=
  Constraint.baseStiffness c = stiffness prm \/
  Constraint.baseStiffness c = stiffness prm * 0.7 \/
  Constraint.baseStiffness c = bendingStiffness prm.

Definition allGraded (s : ClothPhysics) : Prop :=
  Forall (graded (params s)) (constraints s).

Lemma addConstraint_graded (index1 index2 : nat) (stiffness : R)
  (s : ClothPhysics) :
  graded (params s) (Constraint.mk index1 index2 0 stiffness stiffness true) ->
  allGraded s -> allGraded (addConstraint index1 index2 stiffness s).
Proof.
  intros Hg H. unfold addConstraint.
  destruct (particles s !! index1) as [a|]; [|exact H].
  destruct (particles s !! index2) as [b|]; [|exact H].
  unfold allGraded. cbn [params constraints set_constraints].
  apply Forall_app. split; [exact H|].
  apply Forall_cons. split; [exact Hg|apply Forall_nil_2].
Qed.

Lemma addConstraint_params (index1 index2 : nat) (stiffness : R)
  (s : ClothPhysics) :
  params (addConstraint index1 index2 stiffness s) = params s.
Proof.
  unfold addConstraint.
  now destruct (particles s !! index1), (particles s !! index2).
Qed.

Lemma createConstraintsAt_graded (s : ClothPhysics) (xy : nat * nat) :
  allGraded s ->
  allGraded (createConstraintsAt s xy) /\
  params (createConstraintsAt s xy) = params s.
Proof.
  intros H. destruct xy as [x y]. unfold createConstraintsAt. cbv zeta.
  assert (W : forall (b : bool) i1 i2 st t,
            graded (params s) (Constraint.mk i1 i2 0 st st true) ->
            allGraded t /\ params t = params s ->
            allGraded (if b then addConstraint i1 i2 st t else t) /\
            params (if b then addConstraint i1 i2 st t else t) = params s).
  { intros b i1 i2 st t Hg [Ht Hp]. destruct b; [|now split].
    rewrite addConstraint_params. split; [|exact Hp].
    apply addConstraint_graded; [now rewrite Hp|exact Ht]. }
  apply W; [right; now right|]. apply W; [right; now right|].
  destruct (_ && _).
  - apply (W true); [right; now left|]. apply (W true); [right; now left|].
    apply W; [now left|]. apply W; [now left|]. now split.
  - apply W; [now left|]. apply W; [now left|]. now split.
Qed.

Lemma createConstraints_graded (s : ClothPhysics) :
  allGraded (createConstraints s) /\ params (createConstraints s) = params s.
Proof.
  unfold createConstraints.
  generalize (ClothJs.gridCoords (segmentsX s) (segmentsY s)). intros l.
  assert (G : forall t, allGraded t /\ params t = params s ->
            allGraded (fold_left createConstraintsAt l t) /\
            params (fold_left createConstraintsAt l t) = params s).
  { induction l as [|xy l IH]; intros t H; [exact H|].
    cbn [fold_left]. apply IH. destruct H as [H Hp].
    destruct (createConstraintsAt_graded t xy H) as [H1 H2].
    split; [exact H1|now rewrite H2]. }
  apply G. split; [apply Forall_nil_2|reflexivity].
Qed.

Lemma addConstraint_fresh (index1 index2 : nat) (stiffness : R)
  (s : ClothPhysics) :
  (index1 < index2)%nat -> allFresh s ->
  allFresh (addConstraint index1 index2 stiffness s).
Proof.
  intros Hlt H. unfold addConstraint.
  destruct (particles s !! index1) as [a|] eqn:Ha; [|exact H].
  destruct (particles s !! index2) as [b|] eqn:Hb; [|exact H].
  unfold allFresh. cbn [particles constraints set_constraints].
  apply Forall_app. split; [exact H|].
  apply Forall_cons. split; [|apply Forall_nil_2].
  unfold fresh. cbn. repeat split; try assumption. now exists a, b.
Qed.

Lemma createConstraintsAt_fresh (s : ClothPhysics) (xy : nat * nat) :
  allFresh s -> allFresh (createConstraintsAt s xy).
Proof.
  intros H. destruct xy as [x y]. unfold createConstraintsAt. cbv zeta.
  destruct (Nat.ltb_spec x (segmentsX s));
    destruct (Nat.ltb_spec y (segmentsY s));
    destruct (Nat.ltb_spec x (segmentsX s - 1));
    destruct (Nat.ltb_spec y (segmentsY s - 1));
    cbn [andb];
    repeat (apply addConstraint_fresh; [lia|]); exact H.
Qed.

Lemma createConstraints_fresh (s : ClothPhysics) :
  allFresh (createConstraints s).
Proof.
  unfold createConstraints.
  generalize (ClothJs.gridCoords (segmentsX s) (segmentsY s)). intros l.
  assert (G : forall t, allFresh t -> allFresh (fold_left createConstraintsAt l t)).
  { induction l as [|xy l IH]; intros t H; [exact H|].
    cbn [fold_left]. apply IH. now apply createConstraintsAt_fresh. }
  apply G. apply Forall_nil_2.
Qed.

Lemma init_fresh (s : ClothPhysics) : allFresh (init s).
Proof. unfold init. apply createConstraints_fresh. Qed.

Lemma init_graded (s : ClothPhysics) :
  Forall (graded (params s)) (constraints (init s)).
Proof.
  unfold init. cbv zeta.
  match goal with |- Forall _ (constraints (createConstraints ?t)) =>
    destruct (createConstraints_graded t) as [G E] end.
  unfold allGraded in G. now rewrite E in G.
Qed.

(** X18. Every constraint that [init] creates is active, has its stiffness
    equal to its base stiffness, joins two different particles of the cloth
    (the first at the lower place) and has for rest length the distance of
    its two particles as they stand after anchor resolution: a particle that
    a pivot point has pulled away from its grid point is joined to its
    neighbours at the length it is pulled to.  Its base stiffness is the
    structural stiffness, 0.7 times that (shear), or the bending
    stiffness. *)
Lemma init_constraints (s : ClothPhysics) (c : Constraint.t) :
  In c (constraints (init s)) ->
  Constraint.active c = true /\
  Constraint.stiffness c = Constraint.baseStiffness c /\
  (Constraint.p1 c < Constraint.p2 c)%nat /\
  (exists a b,
     particles (init s) !! Constraint.p1 c = Some a /\
     particles (init s) !! Constraint.p2 c = Some b /\
     Constraint.restLength c
       = THREE.distanceTo (Particle.position a) (Particle.position b)) /\
  (Constraint.baseStiffness c = stiffness (params s) \/
   Constraint.baseStiffness c = stiffness (params s) * 0.7 \/
   Constraint.baseStiffness c = bendingStiffness (params s)).
Proof.
  intros Hin. apply list_elem_of_In in Hin.
  pose proof (init_fresh s) as H. pose proof (init_graded s) as G.
  unfold allFresh in H. rewrite Forall_forall in H.
  rewrite Forall_forall in G.
  destruct (H c Hin) as (H1 & H2 & H3 & H4).
  repeat split; try assumption. now apply G.
Qed.

(** *** A cloth in equilibrium *)

Lemma length_sub_swap (a b : Vector3) :
  THREE.length (THREE.sub a b) = THREE.length (THREE.sub b a).
Proof.
  unfold THREE.length, THREE.lengthSq, THREE.sub. simpl. f_equal. ring.
Qed.

(* a constraint at its rest length exerts no correction *)
Lemma correct_at_rest (c : Constraint.t) (a b : Particle.t) :
  Constraint.restLength c
    = THREE.distanceTo (Particle.position a) (Particle.position b) ->
  0 < THREE.length (THREE.sub (Particle.position b) (Particle.position a)) ->
  correct c a b = (a, b).
Proof.
  intros Hr Hpos. rewrite distanceTo_length, length_sub_swap in Hr.
  unfold correct. rewrite Hr.
  set (L := THREE.length (THREE.sub (Particle.position b) (Particle.position a)))
    in *.
  replace ((1 - L / L) * Constraint.stiffness c) with 0 by (field; lra).
  assert (Z1 : forall v d, THREE.add v (THREE.multiplyScalar
                 (THREE.multiplyScalar d 0) 0.5) = v)
    by (intros [] []; vec_eq).
  assert (Z2 : forall v d, THREE.sub v (THREE.multiplyScalar
                 (THREE.multiplyScalar d 0) 0.5) = v)
    by (intros [] []; vec_eq).
  assert (Z3 : forall v d, THREE.add v (THREE.multiplyScalar d 0) = v)
    by (intros [] []; vec_eq).
  assert (Z4 : forall v d, THREE.sub v (THREE.multiplyScalar d 0) = v)
    by (intros [] []; vec_eq).
  rewrite Z1, Z2, Z3, Z4, !set_position_same.
  now destruct (Particle.pinned a), (Particle.pinned b).
Qed.

(* the visit of a fresh constraint between undamaged particles *)
Lemma physics_visit_at_rest (prm : Params) (c : Constraint.t)
  (ps : list Particle.t) :
  1 <= tearThreshold prm -> fresh ps c ->
  (forall p, In p ps -> Particle.cutFactor p = 1) ->
  visit prm c ps = (c, ps).
Proof.
  intros Ht (_ & _ & _ & a & b & Ha & Hb & Hr) Hcf. unfold visit.
  rewrite Ha, Hb. destruct (_ || _); [reflexivity|].
  destruct (Rlt_dec 0 _) as [Hpos|]; [|reflexivity].
  assert (Ea : Particle.cutFactor a = 1).
  { apply Hcf. apply list_elem_of_In.
    exact (list_elem_of_lookup_2 ps (Constraint.p1 c) a Ha). }
  assert (Eb : Particle.cutFactor b = 1).
  { apply Hcf. apply list_elem_of_In.
    exact (list_elem_of_lookup_2 ps (Constraint.p2 c) b Hb). }
  destruct (Rlt_dec _ _) as [Htear|_].
  - exfalso. unfold effectiveTearThreshold in Htear. cbv zeta in Htear.
    rewrite Ea, Eb, Rmin_left in Htear by lra.
    rewrite Hr, distanceTo_length, length_sub_swap in Htear. nra.
  - rewrite (correct_at_rest c a b Hr Hpos).
    rewrite (list_insert_id ps _ a Ha). now rewrite (list_insert_id ps _ b Hb).
Qed.

Lemma satisfyConstraints_at_rest (s : ClothPhysics) :
  1 <= tearThreshold (params s) -> allFresh s ->
  (forall p, In p (particles s) -> Particle.cutFactor p = 1) ->
  satisfyConstraints s = s.
Proof.
  intros Ht Hf Hcf. unfold satisfyConstraints, satisfyConstraintsOn. cbv zeta.
  assert (V : forall j, visitAt (params s) (constraints s, particles s) j
                        = (constraints s, particles s)).
  { intros j. unfold visitAt. cbn [fst snd].
    destruct (constraints s !! j) as [c|] eqn:Hc; [|reflexivity].
    rewrite physics_visit_at_rest; [now rewrite list_insert_id|exact Ht| |exact Hcf].
    unfold allFresh in Hf. rewrite Forall_forall in Hf. apply Hf.
    now apply (list_elem_of_lookup_2 _ j). }
  assert (F : forall js, fold_left (visitAt (params s)) js
                           (constraints s, particles s)
                         = (constraints s, particles s)).
  { induction js as [|j js IH]; [reflexivity|]. cbn [fold_left]. now rewrite V. }
  rewrite F. now destruct s.
Qed.

(** X19. A cloth fresh from [init] is in equilibrium with its constraints:
    with a tear threshold of at least 1 (it is 2.8), [satisfyConstraints]
    applied to it tears nothing and moves nothing, for any number of
    passes, whatever pivot points pulled particles out of the grid before
    the constraints were measured. *)
Lemma init_equilibrium (rounds : nat) (s : ClothPhysics) :
  1 <= tearThreshold (params s) ->
  fold_left (fun st _ => satisfyConstraints st) (seq 0 rounds) (init s) = init s.
Proof.
  intros Ht.
  assert (E : satisfyConstraints (init s) = init s).
  { apply satisfyConstraints_at_rest.
    - destruct (init_settings s) as (_ & _ & _ & -> & _). exact Ht.
    - apply init_fresh.
    - intros p Hp. apply list_elem_of_In, list_elem_of_lookup_1 in Hp.
      destruct Hp as (i & Hi).
      assert (Hlt : (i < (segmentsY s + 1) * (segmentsX s + 1))%nat).
      { rewrite <- init_length. apply lookup_lt_is_Some. eauto. }
      destruct (init_grid s i Hlt) as (q & Hq & _ & _ & _ & _ & Hcf & _).
      rewrite Hi in Hq. now injection Hq as <-. }
  generalize (seq 0 rounds). intros l.
  induction l as [|x l IH]; [reflexivity|]. cbn [fold_left]. now rewrite E.
Qed.

(* the application of main.js: new ClothPhysics(5, 5, 30, 30, pivotManager)
   with the three default pivot points, before its constructor calls init *)
Definition blankCloth : ClothPhysics :=
  mkClothPhysics 5 5 30 30 (PivotPointManager.pivotPoints PivotPointManager.new)
    defaultParams [] [] ∅ 0.

(* a cloth of one cell hanging from no pivot point *)
Definition tinyCloth : ClothPhysics :=
  mkClothPhysics 1 1 1 1 [] defaultParams [] [] ∅ 0.

Lemma init_equilibrium_witness :
  fold_left (fun st _ => satisfyConstraints st) (seq 0 4) (init blankCloth)
  = init blankCloth.
Proof.
  apply (init_equilibrium 4 blankCloth). unfold blankCloth, defaultParams.
  cbn [params tearThreshold]. lra.
Defined.

(** *** init: every pair of neighbours is joined *)

(* a constraint of base stiffness [st] joins the places [i1] and [i2] *)
Definition joined (s : ClothPhysics) (i1 i2 : nat) (st : R) : Prop :=
  exists c, In c (constraints s) /\
    Constraint.p1 c = i1 /\ Constraint.p2 c = i2 /\
    Constraint.baseStiffness c = st.

(* the constraints createConstraints owes the particle of column [x] and
   row [y]: to its right and lower neighbours, along both diagonals of the
   cell below right, and to the particles two columns and two rows further *)
Definition neighboursJoined (s u : ClothPhysics) (x y : nat) : Prop :=
  let w := (segmentsX s + 1)%nat in
  let index := (y * w + x)%nat in
  let k := stiffness (params s) in
  ((x < segmentsX s)%nat -> joined u index (index + 1) k) /\
  ((y < segmentsY s)%nat -> joined u index (index + w) k) /\
  ((x < segmentsX s)%nat -> (y < segmentsY s)%nat ->
   joined u index (index + w + 1) (k * 0.7) /\
   joined u (index + 1) (index + w) (k * 0.7)) /\
  ((x + 1 < segmentsX s)%nat ->
   joined u index (index + 2) (bendingStiffness (params s))) /\
  ((y + 1 < segmentsY s)%nat ->
   joined u index (index + 2 * w) (bendingStiffness (params s))).

Lemma neighboursJoined_mono (s u u' : ClothPhysics) (x y : nat) :
  (forall a b st, joined u a b st -> joined u' a b st) ->
  neighboursJoined s u x y -> neighboursJoined s u' x y.
Proof.
  intros M (H1 & H2 & H3 & H4 & H5). unfold neighboursJoined. cbv zeta.
  repeat split; intros; apply M; first [now apply H1 | now apply H2
    | now apply H3 | now apply H4 | now apply H5].
Qed.

(* addConstraint on a state over the particles and settings of [s] *)
Lemma addConstraint_over (s : ClothPhysics) (cs : list Constraint.t)
  (index1 index2 : nat) (stiffness : R) :
  (index1 < length (particles s))%nat -> (index2 < length (particles s))%nat ->
  exists c,
    addConstraint index1 index2 stiffness (set_constraints s cs)
      = set_constraints s (cs ++ [c]) /\
    Constraint.p1 c = index1 /\ Constraint.p2 c = index2 /\
    Constraint.baseStiffness c = stiffness.
Proof.
  intros H1 H2. unfold addConstraint. cbn [particles set_constraints].
  apply lookup_lt_is_Some in H1. destruct H1 as (a & ->).
  apply lookup_lt_is_Some in H2. destruct H2 as (b & ->).
  eexists. split; [reflexivity|]. now repeat split.
Qed.

(* one conditional call of addConstraint: the constraints so far are kept,
   and a call that is made adds the constraint asked for *)
Lemma addConstraint_when (s : ClothPhysics) (cs : list Constraint.t)
  (b : bool) (index1 index2 : nat) (stiffness : R) :
  (b = true -> (index1 < length (particles s))%nat /\
               (index2 < length (particles s))%nat) ->
  exists cs',
    (if b then addConstraint index1 index2 stiffness (set_constraints s cs)
     else set_constraints s cs) = set_constraints s cs' /\
    (forall c, In c cs -> In c cs') /\
    (b = true -> exists c, In c cs' /\ Constraint.p1 c = index1 /\
       Constraint.p2 c = index2 /\ Constraint.baseStiffness c = stiffness).
Proof.
  intros H. destruct b.
  - destruct (H eq_refl) as [H1 H2].
    destruct (addConstraint_over s cs index1 index2 stiffness H1 H2)
      as (c & -> & Hc).
    exists (cs ++ [c]). split; [reflexivity|]. split.
    + intros c' Hc'. apply in_or_app. now left.
    + intros _. exists c. split; [apply in_or_app; right; now left|exact Hc].
  - exists cs. split; [reflexivity|]. split; [tauto|discriminate].
Qed.

Lemma createConstraintsAt_joins (s : ClothPhysics) (cs : list Constraint.t)
  (x y : nat) :
  length (particles s) = ((segmentsY s + 1) * (segmentsX s + 1))%nat ->
  (x <= segmentsX s)%nat -> (y <= segmentsY s)%nat ->
  exists cs',
    createConstraintsAt (set_constraints s cs) (x, y) = set_constraints s cs' /\
    (forall c, In c cs -> In c cs') /\
    neighboursJoined s (set_constraints s cs') x y.
Proof.
  intros Hlen Hx Hy. unfold createConstraintsAt. cbv zeta.
  cbn [segmentsX segmentsY params set_constraints].
  set (w := (segmentsX s + 1)%nat). set (index := (y * w + x)%nat).
  assert (Hw : length (particles s) = ((segmentsY s + 1) * w)%nat) by exact Hlen.
  destruct (addConstraint_when s cs (x <? segmentsX s)%nat index (index + 1)
              (stiffness (params s))) as (cs1 & -> & K1 & J1).
  { intros H. apply Nat.ltb_lt in H. subst index. nia. }
  destruct (addConstraint_when s cs1 (y <? segmentsY s)%nat index (index + w)
              (stiffness (params s))) as (cs2 & -> & K2 & J2).
  { intros H. apply Nat.ltb_lt in H. subst index. nia. }
  destruct (addConstraint_when s cs2
              ((x <? segmentsX s)%nat && (y <? segmentsY s)%nat)
              index (index + w + 1) (stiffness (params s) * 0.7))
    as (cs3 & E3 & K3 & J3).
  { intros H. apply andb_prop in H. destruct H as [H1 H2].
    apply Nat.ltb_lt in H1. apply Nat.ltb_lt in H2. subst index. nia. }
  destruct (addConstraint_when s cs3
              ((x <? segmentsX s)%nat && (y <? segmentsY s)%nat)
              (index + 1) (index + w) (stiffness (params s) * 0.7))
    as (cs4 & E4 & K4 & J4).
  { intros H. apply andb_prop in H. destruct H as [H1 H2].
    apply Nat.ltb_lt in H1. apply Nat.ltb_lt in H2. subst index. nia. }
  assert (E34 :
    (if (x <? segmentsX s)%nat && (y <? segmentsY s)%nat
     then addConstraint (index + 1) (index + w) (stiffness (params s) * 0.7)
            (addConstraint index (index + w + 1) (stiffness (params s) * 0.7)
               (set_constraints s cs2))
     else set_constraints s cs2) = set_constraints s cs4).
  { destruct (_ && _); [|now rewrite <- E4, <- E3]. now rewrite <- E4, <- E3. }
  rewrite E34.
  destruct (addConstraint_when s cs4 (x <? segmentsX s - 1)%nat index (index + 2)
              (bendingStiffness (params s))) as (cs5 & -> & K5 & J5).
  { intros H. apply Nat.ltb_lt in H. subst index. nia. }
  destruct (addConstraint_when s cs5 (y <? segmentsY s - 1)%nat index
              (index + 2 * w) (bendingStiffness (params s)))
    as (cs6 & -> & K6 & J6).
  { intros H. apply Nat.ltb_lt in H. subst index. nia. }
  exists cs6. split; [reflexivity|]. split; [auto 10|].
  assert (M : forall csa csb a b st,
            (forall c, In c csa -> In c csb) ->
            (exists c, In c csa /\ Constraint.p1 c = a /\ Constraint.p2 c = b /\
                       Constraint.baseStiffness c = st) ->
            exists c, In c csb /\ Constraint.p1 c = a /\ Constraint.p2 c = b /\
                      Constraint.baseStiffness c = st).
  { intros csa csb a b st K (c & Hc & Hr). exists c. split; [now apply K|exact Hr]. }
  unfold neighboursJoined, joined. cbv zeta. cbn [constraints set_constraints].
  fold w. fold index. split; [|split; [|split; [|split]]].
  - intros H. apply (M cs1); [auto 10|]. apply J1. now apply Nat.ltb_lt.
  - intros H. apply (M cs2); [auto 10|]. apply J2. now apply Nat.ltb_lt.
  - intros H1 H2.
    assert (Hb : (x <? segmentsX s)%nat && (y <? segmentsY s)%nat = true).
    { apply andb_true_intro. split; now apply Nat.ltb_lt. }
    split.
    + apply (M cs3); [auto 10|]. now apply J3.
    + apply (M cs4); [auto 10|]. now apply J4.
  - intros H. apply (M cs5); [auto 10|]. apply J5. apply Nat.ltb_lt. lia.
  - intros H. apply J6. apply Nat.ltb_lt. lia.
Qed.

Lemma createConstraints_joins (s : ClothPhysics) (x y : nat) :
  length (particles s) = ((segmentsY s + 1) * (segmentsX s + 1))%nat ->
  (x <= segmentsX s)%nat -> (y <= segmentsY s)%nat ->
  neighboursJoined s (createConstraints s) x y.
Proof.
  intros Hlen Hx Hy. unfold createConstraints.
  assert (Hin : In (x, y) (ClothJs.gridCoords (segmentsX s) (segmentsY s)))
    by now apply ClothJsFacts.gridCoords_In.
  assert (Hall : forall xy,
            In xy (ClothJs.gridCoords (segmentsX s) (segmentsY s)) ->
            (xy.1 <= segmentsX s)%nat /\ (xy.2 <= segmentsY s)%nat).
  { intros [x' y'] H. now apply ClothJsFacts.gridCoords_In. }
  revert Hin Hall.
  generalize (ClothJs.gridCoords (segmentsX s) (segmentsY s)). intros l.
  generalize (@nil Constraint.t). revert l.
  assert (G : forall l cs,
            (forall xy, In xy l ->
               (xy.1 <= segmentsX s)%nat /\ (xy.2 <= segmentsY s)%nat) ->
            exists cs',
              fold_left createConstraintsAt l (set_constraints s cs)
                = set_constraints s cs' /\
              forall c, In c cs -> In c cs').
  { induction l as [|[x' y'] l IH]; intros cs Hall.
    - exists cs. split; [reflexivity|tauto].
    - cbn [fold_left].
      destruct (Hall (x', y') (or_introl eq_refl)) as [Hx' Hy'].
      destruct (createConstraintsAt_joins s cs x' y' Hlen Hx' Hy')
        as (cs1 & -> & K1 & _).
      destruct (IH cs1) as (cs2 & E & K2).
      { intros xy H. apply Hall. now right. }
      exists cs2. split; [exact E|auto]. }
  induction l as [|[x' y'] l IH]; intros cs Hin Hall; [destruct Hin|].
  cbn [fold_left].
  destruct (Hall (x', y') (or_introl eq_refl)) as [Hx' Hy'].
  destruct (createConstraintsAt_joins s cs x' y' Hlen Hx' Hy')
    as (cs1 & -> & K1 & J1).
  destruct Hin as [E|Hin].
  - injection E as -> ->.
    destruct (G l cs1) as (cs2 & -> & K2).
    { intros xy H. apply Hall. now right. }
    apply (neighboursJoined_mono s (set_constraints s cs1)); [|exact J1].
    intros a b st (c & Hc & Hr). exists c. split; [now apply K2|exact Hr].
  - apply IH; [exact Hin|]. intros xy H. apply Hall. now right.
Qed.

(* the particles createConstraints finds when init calls it *)
Lemma init_grid_length (s : ClothPhysics) :
  length
    (particles
       (attachToPivots
          (set_particles
             (set_cutParticles (set_constraints (set_particles s []) []) ∅)
             (map (newParticle s)
                (ClothJs.gridCoords (segmentsX s) (segmentsY s))))))
  = ((segmentsY s + 1) * (segmentsX s + 1))%nat.
Proof.
  cbn [particles attachToPivots set_particles set_cutParticles set_constraints
       pivotPoints].
  rewrite <- (length_fmap identity),
    (attachToPivotsOn_obs identity identity_ignoresMotion), length_fmap.
  now rewrite length_map, ClothJsFacts.gridCoords_length.
Qed.

(** X20. [init] joins every particle to its neighbours: the particle of
    column x and row y is joined by a structural constraint to its right and
    to its lower neighbour, by a shear constraint (0.7 times the stiffness)
    along each diagonal of the cell below right of it, and by a bending
    constraint to the particle two columns to the right and to the one two
    rows below, wherever those places exist.  So the test of [addConstraint]
    for a missing particle never fires during [init]. *)
Lemma init_joins_neighbours (s : ClothPhysics) (x y : nat) :
  (x <= segmentsX s)%nat -> (y <= segmentsY s)%nat ->
  let w := (segmentsX s + 1)%nat in
  let index := (y * w + x)%nat in
  let k := stiffness (params s) in
  ((x < segmentsX s)%nat -> joined (init s) index (index + 1) k) /\
  ((y < segmentsY s)%nat -> joined (init s) index (index + w) k) /\
  ((x < segmentsX s)%nat -> (y < segmentsY s)%nat ->
   joined (init s) index (index + w + 1) (k * 0.7) /\
   joined (init s) (index + 1) (index + w) (k * 0.7)) /\
  ((x + 1 < segmentsX s)%nat ->
   joined (init s) index (index + 2) (bendingStiffness (params s))) /\
  ((y + 1 < segmentsY s)%nat ->
   joined (init s) index (index + 2 * w) (bendingStiffness (params s))).
Proof.
  intros Hx Hy.
  change (neighboursJoined s (init s) x y).
  unfold init. cbv zeta.
  match goal with |- neighboursJoined s (createConstraints ?t) x y =>
    apply (createConstraints_joins t x y) end.
  - exact (init_grid_length s).
  - exact Hx.
  - exact Hy.
Qed.

Lemma init_joins_neighbours_witness :
  joined (init blankCloth) 0 1 0.85 /\
  joined (init blankCloth) 0 31 0.85 /\
  joined (init blankCloth) 0 32 (0.85 * 0.7) /\
  joined (init blankCloth) 0 2 0.15 /\
  joined (init blankCloth) 0 62 0.15.
Proof.
  destruct (init_joins_neighbours blankCloth 0 0) as (H1 & H2 & H3 & H4 & H5);
    [unfold blankCloth; simpl; lia | unfold blankCloth; simpl; lia |].
  cbv zeta in *. unfold blankCloth in H1, H2, H3, H4, H5.
  cbn [segmentsX segmentsY params defaultParams stiffness bendingStiffness]
    in H1, H2, H3, H4, H5.
  split; [apply H1; lia|]. split; [apply H2; lia|].
  split; [apply H3; lia|]. split; [apply H4; lia|apply H5; lia].
Defined.

(* the one-cell cloth has a constraint along its top edge *)
Lemma tiny_first_constraint :
  exists c, In c (constraints (init tinyCloth)) /\
    Constraint.p1 c = 0%nat /\ Constraint.p2 c = 1%nat.
Proof.
  assert (J : neighboursJoined tinyCloth (init tinyCloth) 0 0).
  { unfold init. cbv zeta.
    match goal with |- neighboursJoined _ (createConstraints ?t) _ _ =>
      apply (createConstraints_joins t 0 0) end.
    - exact (init_grid_length tinyCloth).
    - simpl. lia.
    - simpl. lia. }
  destruct J as (H & _). destruct H as (c & Hc & H1 & H2 & _); [simpl; lia|].
  exists c. split; [exact Hc|]. split; [exact H1|exact H2].
Qed.

Lemma init_constraints_witness :
  exists c, In c (constraints (init tinyCloth)) /\
    Constraint.p1 c = 0%nat /\ Constraint.p2 c = 1%nat /\
    Constraint.active c = true /\
    Constraint.stiffness c = Constraint.baseStiffness c /\
    exists a b,
      particles (init tinyCloth) !! Constraint.p1 c = Some a /\
      particles (init tinyCloth) !! Constraint.p2 c = Some b /\
      Constraint.restLength c
        = THREE.distanceTo (Particle.position a) (Particle.position b).
Proof.
  destruct tiny_first_constraint as (c & Hc & H1 & H2).
  exists c. split; [exact Hc|]. split; [exact H1|]. split; [exact H2|].
  destruct (init_constraints tinyCloth c Hc) as (A & B & _ & D & _).
  split; [exact A|]. split; [exact B|exact D].
Defined.

(** *** The cuts, one particle at a time *)

(* what no operation changes of a particle *)
Definition tag (p : Particle.t) : nat * nat * nat * Vector3 * R :=
  (Particle.index p, Particle.x p, Particle.y p, Particle.originalPosition p,
   Particle.mass p).

Definition damageInRange (p : Particle.t) : Prop :=
  0.2 <= Particle.cutFactor p <= 1.

(* a particle [p] and what a loop that cuts out the particles selected by
   [hit] makes of it *)
Definition cutStep (hit : Particle.t -> bool) (p p' : Particle.t) : Prop :=
  tag p' = tag p /\
  Particle.active p' = Particle.active p && negb (hit p) /\
  (damageInRange p -> damageInRange p').

(* the core of the point/radius cut *)
Definition coreHit (center : Vector3) (radius : R) (p : Particle.t) : bool :=
  if Rlt_dec (planar center (Particle.position p)) radius then true else false.

(* the capsule of the segment cut; a particle already cut out is skipped *)
Definition capsuleHit (start end_ : Vector3) (radius : R) (p : Particle.t)
  : bool :=
  Particle.active p
  && (if Rle_dec (distPointToSeg start end_ (Particle.position p)) radius
      then true else false).

Ltac step_same :=
  split; [reflexivity|];
  split; [first [reflexivity | assumption | symmetry; assumption]|];
  let H := fresh in intros H; exact H.

Lemma cutOrganicParticle_step (center : Vector3) (radius : R)
  (shape : list (R * R)) (rnd : Random) (k : nat) (cut : gset nat)
  (p : Particle.t) :
  let r := cutOrganicParticle center radius shape rnd k cut p in
  cutStep (coreHit center radius) p r.1.2 /\
  r.2 = (if coreHit center radius p then {[Particle.index p]} ∪ cut else cut).
Proof.
  cbv zeta.
  assert (Hcore : coreHit center radius p
                  = if Rlt_dec (planar center (Particle.position p)) radius
                    then true else false) by reflexivity.
  unfold cutOrganicParticle. cbv zeta.
  fold (planar center (Particle.position p)).
  set (d := planar center (Particle.position p)) in *.
  assert (Hd : 0 <= d) by apply sqrt_pos.
  revert Hcore.
  destruct (Rlt_dec d radius) as [H1|H1]; intros Hcore; rewrite Hcore.
  - destruct (Rlt_dec d (radius * 1.5)) as [_|H15]; [|lra].
    cbn [fst snd]. split; [|reflexivity]. unfold cutStep. rewrite Hcore. cbn.
    rewrite andb_false_r. step_same.
  - destruct (Rlt_dec d (radius * 1.5)) as [H15|H15].
    + assert (Hshell : damageInRange
                (Particle.set_cutFactor p
                   (Rmax 0.2 (1 - (1 - (d - radius) / (radius * 0.5)))))).
      { unfold damageInRange. cbn.
        set (t := (d - radius) / (radius * 0.5)).
        assert (Ht : t * (radius * 0.5) = d - radius) by (unfold t; field; lra).
        assert (Ht1 : t <= 1) by nra.
        split; [apply Rmax_l|]. apply Rmax_lub; lra. }
      destruct (Rlt_dec 0.5 (rnd k)); cbn [fst snd]; (split; [|reflexivity]);
        unfold cutStep; rewrite Hcore; cbn; rewrite andb_true_r;
        (split; [reflexivity|]); (split; [reflexivity|]); intros _; exact Hshell.
    + cbn [fst snd]. split; [|reflexivity]. unfold cutStep. rewrite Hcore.
      cbn [negb]. rewrite andb_true_r. step_same.
Qed.

Lemma cutSegmentParticle_step (start end_ : Vector3) (radius : R)
  (cut : gset nat) (p : Particle.t) :
  let r := cutSegmentParticle start end_ radius cut p in
  cutStep (capsuleHit start end_ radius) p r.1 /\
  r.2 = (if capsuleHit start end_ radius p then {[Particle.index p]} ∪ cut
         else cut).
Proof.
  cbv zeta.
  assert (Hcap : capsuleHit start end_ radius p
                 = Particle.active p
                   && (if Rle_dec (distPointToSeg start end_ (Particle.position p))
                            radius then true else false)) by reflexivity.
  unfold cutSegmentParticle. cbv zeta.
  set (d := distPointToSeg start end_ (Particle.position p)) in *.
  revert Hcap.
  destruct (Particle.active p) eqn:Ha; cbn [negb andb]; intros Hcap.
  2:{ rewrite Hcap. cbn [fst snd]. split; [|reflexivity]. unfold cutStep.
      rewrite Hcap, Ha. step_same. }
  revert Hcap.
  destruct (Rle_dec d radius) as [H1|H1]; intros Hcap; rewrite Hcap;
    cbn [fst snd].
  - split; [|reflexivity]. unfold cutStep. rewrite Hcap, Ha. cbn.
    step_same.
  - destruct (Rle_dec d (radius * 1.6)) as [H16|H16]; cbn [fst snd];
      (split; [|reflexivity]); unfold cutStep; rewrite Hcap; cbn [negb];
      rewrite andb_true_r; (split; [reflexivity|]); (split; [reflexivity|]);
      [|tauto].
    unfold damageInRange. cbn. intros [Hlo Hhi].
    set (t := (d - radius) / (radius * 1.6 - radius)).
    assert (Ht : t * (radius * 1.6 - radius) = d - radius)
      by (unfold t; field; lra).
    assert (Ht0 : 0 <= t) by nra.
    split.
    + apply Rmin_glb; lra.
    + eapply Rle_trans; [apply Rmin_l|exact Hhi].
Qed.

(* the loops over the particle array: every particle takes a step, and the
   indices added to the set are those of the particles cut out *)
Definition cutBy (hit : Particle.t -> bool) (ps ps' : list Particle.t)
  (cut cut' : gset nat) : Prop :=
  Forall2 (cutStep hit) ps ps' /\
  forall n, n ∈ cut' <->
    n ∈ cut \/ exists p, In p ps /\ hit p = true /\ Particle.index p = n.

Lemma cutBy_nil (hit : Particle.t -> bool) (cut : gset nat) :
  cutBy hit [] [] cut cut.
Proof.
  split; [apply Forall2_nil_2|]. intros n. split; [now left|].
  intros [H|(p & [] & _)]. exact H.
Qed.

Lemma cutBy_cons (hit : Particle.t -> bool) (p p' : Particle.t)
  (ps ps' : list Particle.t) (cut cut2 : gset nat) :
  cutStep hit p p' ->
  cutBy hit ps ps'
    (if hit p then {[Particle.index p]} ∪ cut else cut) cut2 ->
  cutBy hit (p :: ps) (p' :: ps') cut cut2.
Proof.
  intros Hp [HF Hc]. split; [now apply Forall2_cons|].
  intros n. rewrite Hc. split.
  - intros [H|(q & Hq & Hh & Hi)].
    + destruct (hit p) eqn:Hhit; [|now left].
      apply elem_of_union in H. destruct H as [H|H]; [|now left].
      apply elem_of_singleton in H. right. exists p.
      split; [now left|]. now split.
    + right. exists q. split; [now right|]. now split.
  - intros [H|(q & [<-|Hq] & Hh & Hi)].
    + left. destruct (hit p); [|exact H]. apply elem_of_union. now right.
    + left. rewrite Hh. apply elem_of_union. left.
      now apply elem_of_singleton.
    + right. exists q. now repeat split.
Qed.

Lemma cutOrganicParticles_cutBy (center : Vector3) (radius : R)
  (shape : list (R * R)) (rnd : Random) (ps : list Particle.t) (k : nat)
  (cut : gset nat) :
  let r := cutOrganicParticles center radius shape rnd k cut ps in
  cutBy (coreHit center radius) ps r.1.2 cut r.2.
Proof.
  cbv zeta. revert k cut. induction ps as [|p ps IH]; intros k cut;
    [apply cutBy_nil|].
  cbn [cutOrganicParticles].
  destruct (cutOrganicParticle_step center radius shape rnd k cut p) as [Hs Hc].
  destruct (cutOrganicParticle center radius shape rnd k cut p)
    as [[k1 p'] cut1].
  specialize (IH k1 cut1).
  destruct (cutOrganicParticles center radius shape rnd k1 cut1 ps)
    as [[k2 ps'] cut2].
  cbn [fst snd] in *. apply cutBy_cons; [exact Hs|]. now rewrite <- Hc.
Qed.

Lemma cutSegmentParticles_cutBy (start end_ : Vector3) (radius : R)
  (ps : list Particle.t) (cut : gset nat) :
  let r := cutSegmentParticles start end_ radius cut ps in
  cutBy (capsuleHit start end_ radius) ps r.1 cut r.2.
Proof.
  cbv zeta. revert cut. induction ps as [|p ps IH]; intros cut;
    [apply cutBy_nil|].
  cbn [cutSegmentParticles].
  destruct (cutSegmentParticle_step start end_ radius cut p) as [Hs Hc].
  destruct (cutSegmentParticle start end_ radius cut p) as [p' cut1].
  specialize (IH cut1).
  destruct (cutSegmentParticles start end_ radius cut1 ps) as [ps' cut2].
  cbn [fst snd] in *. apply cutBy_cons; [exact Hs|]. now rewrite <- Hc.
Qed.

(* an operation that keeps the identity of every particle cuts nothing out *)
Lemma identity_cutBy (ps ps' : list Particle.t) (cut : gset nat) :
  identity <$> ps' = identity <$> ps ->
  cutBy (fun _ => false) ps ps' cut cut.
Proof.
  intros H. split.
  - revert ps' H. induction ps as [|p ps IH]; intros [|p' ps'] H.
    + apply Forall2_nil_2.
    + apply (f_equal length) in H. discriminate.
    + apply (f_equal length) in H. discriminate.
    + rewrite !fmap_cons in H.
      pose proof (f_equal head H) as Hp. cbn [head] in Hp.
      apply (inj Some) in Hp.
      pose proof (f_equal tail H) as Ht. cbn [tail] in Ht.
      apply Forall2_cons. split; [|now apply IH].
      unfold identity in Hp. injection Hp as E1 E2 E3 E4 E5 E6 E7.
      unfold cutStep, tag, damageInRange. rewrite E1, E2, E3, E4, E5, E6, E7.
      rewrite andb_true_r. step_same.
  - intros n. split; [now left|]. intros [H'|(p & _ & Hp & _)];
      [exact H'|discriminate].
Qed.

(** *** The books: indices, the set of cut particles, the grid *)

Definition indexed (ps : list Particle.t) : Prop :=
  forall i p, ps !! i = Some p -> Particle.index p = i.

Definition booked (ps : list Particle.t) (cut : gset nat) : Prop :=
  forall n, n ∈ cut <-> exists p, ps !! n = Some p /\ Particle.active p = false.

Lemma cutBy_books (hit : Particle.t -> bool) (ps ps' : list Particle.t)
  (cut cut' : gset nat) :
  cutBy hit ps ps' cut cut' ->
  (length ps' = length ps) /\
  (Forall damageInRange ps -> Forall damageInRange ps') /\
  (indexed ps -> indexed ps') /\
  (indexed ps -> booked ps cut -> booked ps' cut').
Proof.
  intros [HF Hc]. split; [symmetry; exact (Forall2_length _ ps ps' HF)|].
  split; [|split].
  - intros H. apply Forall_lookup. intros i p' Hp'.
    destruct (Forall2_lookup_r _ _ _ _ _ HF Hp') as (p & Hp & _ & _ & Hr).
    apply Hr. rewrite Forall_lookup in H. now apply (H i).
  - intros H i p' Hp'.
    destruct (Forall2_lookup_r _ _ _ _ _ HF Hp') as (p & Hp & Ht & _).
    unfold tag in Ht. injection Ht as -> _ _ _ _. now apply H.
  - intros Hi Hb n. rewrite Hc. split.
    + intros [H|(p & Hp & Hh & Hn)].
      * apply Hb in H. destruct H as (p & Hp & Ha).
        destruct (Forall2_lookup_l _ _ _ _ _ HF Hp) as (p' & Hp' & _ & Ha' & _).
        exists p'. split; [exact Hp'|]. now rewrite Ha', Ha.
      * apply list_elem_of_In, list_elem_of_lookup_1 in Hp.
        destruct Hp as (i & Hp). rewrite (Hi i p Hp) in Hn. subst i.
        destruct (Forall2_lookup_l _ _ _ _ _ HF Hp) as (p' & Hp' & _ & Ha' & _).
        exists p'. split; [exact Hp'|]. rewrite Ha', Hh. apply andb_false_r.
    + intros (p' & Hp' & Ha').
      destruct (Forall2_lookup_r _ _ _ _ _ HF Hp') as (p & Hp & _ & Ha & _).
      rewrite Ha' in Ha. symmetry in Ha. apply andb_false_iff in Ha.
      destruct Ha as [Ha|Ha].
      * left. apply Hb. now exists p.
      * right. exists p. apply negb_false_iff in Ha.
        split; [|split; [exact Ha|now apply Hi]].
        apply list_elem_of_In. now apply (list_elem_of_lookup_2 ps n).
Qed.

(** *** The stiffness the cuts leave *)

Definition stiffnessInRange (c : Constraint.t) : Prop :=
  0 <= Constraint.baseStiffness c /\
  minFactor * Constraint.baseStiffness c <= Constraint.stiffness c
    <= Constraint.baseStiffness c.

Lemma softened_range (c : Constraint.t) (a b : Particle.t) :
  0 <= Constraint.baseStiffness c -> Particle.cutFactor a <= 1 ->
  minFactor * Constraint.baseStiffness c <= softened c a b
    <= Constraint.baseStiffness c.
Proof.
  intros Hb Ha. unfold softened. cbv zeta. split; [apply Rmax_l|].
  assert (Hf : Rmin (Particle.cutFactor a) (Particle.cutFactor b) <= 1)
    by (eapply Rle_trans; [apply Rmin_l|exact Ha]).
  apply Rmax_lub; [unfold minFactor; lra|nra].
Qed.

Lemma damage_at (ps : list Particle.t) (i : nat) (a : Particle.t) :
  Forall damageInRange ps -> ps !! i = Some a -> Particle.cutFactor a <= 1.
Proof.
  intros H Ha. rewrite Forall_lookup in H. now destruct (H i a Ha).
Qed.

Lemma cutOrganicConstraint_range (ps : list Particle.t) (c : Constraint.t) :
  Forall damageInRange ps -> stiffnessInRange c ->
  stiffnessInRange (cutOrganicConstraint ps c).
Proof.
  intros Hps (Hb & Hlo & Hhi). unfold cutOrganicConstraint.
  destruct (ps !! Constraint.p1 c) as [a|] eqn:Ha; [|now split].
  destruct (ps !! Constraint.p2 c) as [b|]; [|now split].
  destruct (_ || _); [now split|].
  destruct (_ || _); unfold stiffnessInRange; cbn.
  - split; [exact Hb|]. apply softened_range; [exact Hb|].
    exact (damage_at ps _ a Hps Ha).
  - split; [exact Hb|]. unfold minFactor. lra.
Qed.

Lemma cutSegmentConstraint_range (start end_ : Vector3) (radius : R)
  (ps : list Particle.t) (c : Constraint.t) :
  Forall damageInRange ps -> stiffnessInRange c ->
  stiffnessInRange (cutSegmentConstraint start end_ radius ps c).
Proof.
  intros Hps (Hb & Hlo & Hhi). unfold cutSegmentConstraint.
  destruct (negb _); [now split|].
  destruct (ps !! Constraint.p1 c) as [a|] eqn:Ha; [|now split].
  destruct (ps !! Constraint.p2 c) as [b|]; [|now split].
  destruct (_ || _); [now split|]. unfold stiffnessInRange. cbn.
  split; [exact Hb|]. apply softened_range; [exact Hb|].
  exact (damage_at ps _ a Hps Ha).
Qed.

Lemma wiring_range (cs cs' : list Constraint.t) :
  wiring <$> cs' = wiring <$> cs ->
  Forall stiffnessInRange cs -> Forall stiffnessInRange cs'.
Proof.
  intros E H. apply Forall_lookup. intros j c' Hc'.
  assert (Hw : (wiring <$> cs) !! j = Some (wiring c'))
    by now rewrite <- E, list_lookup_fmap, Hc'.
  rewrite list_lookup_fmap in Hw.
  destruct (cs !! j) as [c|] eqn:Hc; [|discriminate].
  cbn in Hw. apply (inj Some) in Hw.
  rewrite Forall_lookup in H. specialize (H j c Hc).
  unfold wiring in Hw. injection Hw as _ _ _ E4 E5.
  unfold stiffnessInRange in *. now rewrite <- E4, <- E5.
Qed.

(** *** Sessions *)

(* every particle and every constraint of the state is within range *)
Definition inRange (s : ClothPhysics) : Prop :=
  Forall damageInRange (particles s) /\ Forall stiffnessInRange (constraints s).

(* the books of the state are in order *)
Definition inOrder (s : ClothPhysics) : Prop :=
  length (particles s) = ((segmentsY s + 1) * (segmentsX s + 1))%nat /\
  indexed (particles s) /\
  booked (particles s) (cutParticles s).

(* the sizes and the parameters of [s0] are those of [s] *)
Definition sameSettings (s0 s : ClothPhysics) : Prop :=
  segmentsX s = segmentsX s0 /\ segmentsY s = segmentsY s0 /\
  params s = params s0 /\ width s = width s0 /\ height s = height s0.

Lemma rounds_settings (rounds : list nat) (s : ClothPhysics) :
  sameSettings s (fold_left (fun st _ => satisfyConstraints st) rounds s).
Proof.
  unfold sameSettings. repeat split.
  - apply (fold_left_preserves segmentsX); reflexivity.
  - apply (fold_left_preserves segmentsY); reflexivity.
  - apply (fold_left_preserves params); reflexivity.
  - apply (fold_left_preserves width); reflexivity.
  - apply (fold_left_preserves height); reflexivity.
Qed.

Lemma run_settings (rnd : Random) (st : nat * ClothPhysics) (cmd : Command) :
  sameSettings st.2 (run rnd st cmd).2.
Proof.
  destruct cmd as [deltaTime| |center radius|start end_ radius]; cbn [run snd].
  - rewrite update_stages. cbv zeta. cbn [snd].
    match goal with |- sameSettings _ (fold_left _ ?l ?s4) =>
      exact (rounds_settings l s4) end.
  - now repeat split.
  - unfold cutOrganic.
    destruct (cutOrganicParticles _ _ _ _ _ _ _) as [[k' ps'] cut'].
    now repeat split.
  - unfold cutAlongSegment. destruct (Rlt_dec _ _); [now repeat split|].
    destruct (cutSegmentParticles _ _ _ _ _) as [ps' cut'].
    now repeat split.
Qed.

(* what a command does to the particles and to the set of cut particles *)
Lemma run_cutBy (rnd : Random) (st : nat * ClothPhysics) (cmd : Command) :
  exists hit,
    cutBy hit (particles st.2) (particles (run rnd st cmd).2)
      (cutParticles st.2) (cutParticles (run rnd st cmd).2).
Proof.
  destruct cmd as [deltaTime| |center radius|start end_ radius]; cbn [run snd].
  - exists (fun _ => false).
    destruct (update_keeps deltaTime rnd st.1 st.2) as (_ & _ & _ & -> & H & _).
    now apply identity_cutBy.
  - exists (fun _ => false). unfold attachToPivots.
    cbn [particles cutParticles set_particles].
    apply identity_cutBy.
    apply (attachToPivotsOn_obs identity identity_ignoresMotion).
  - exists (coreHit center radius). unfold cutOrganic.
    pose proof (cutOrganicParticles_cutBy center radius
                  (cutShape center radius rnd st.1) rnd (particles st.2)
                  (st.1 + 16) (cutParticles st.2)) as H. cbv zeta in H.
    destruct (cutOrganicParticles _ _ _ _ _ _ _) as [[k' ps'] cut'].
    exact H.
  - unfold cutAlongSegment. destruct (Rlt_dec _ _).
    + exists (fun _ => false). now apply identity_cutBy.
    + exists (capsuleHit start end_ radius).
      pose proof (cutSegmentParticles_cutBy start end_ radius (particles st.2)
                    (cutParticles st.2)) as H. cbv zeta in H.
      destruct (cutSegmentParticles _ _ _ _ _) as [ps' cut'].
      exact H.
Qed.

Lemma run_inOrder (rnd : Random) (st : nat * ClothPhysics) (cmd : Command) :
  inOrder st.2 -> inOrder (run rnd st cmd).2.
Proof.
  intros (Hl & Hi & Hb).
  destruct (run_cutBy rnd st cmd) as (hit & H).
  destruct (cutBy_books _ _ _ _ _ H) as (L & _ & I & B).
  destruct (run_settings rnd st cmd) as (EX & EY & _).
  unfold inOrder. rewrite EX, EY, L.
  split; [exact Hl|]. split; [now apply I|now apply B].
Qed.

Lemma run_inRange (rnd : Random) (st : nat * ClothPhysics) (cmd : Command) :
  inRange st.2 -> inRange (run rnd st cmd).2.
Proof.
  intros [Hp Hc].
  destruct (run_cutBy rnd st cmd) as (hit & H).
  destruct (cutBy_books _ _ _ _ _ H) as (_ & D & _).
  split; [now apply D|]. specialize (D Hp). clear H.
  destruct cmd as [deltaTime| |center radius|start end_ radius];
    cbn [run snd] in *.
  - destruct (update_keeps deltaTime rnd st.1 st.2) as (_ & _ & _ & _ & _ & W).
    now apply (wiring_range (constraints st.2)).
  - exact Hc.
  - rewrite cutOrganic_constraints. change (map ?f ?l) with (f <$> l).
    apply Forall_fmap. eapply Forall_impl; [exact Hc|].
    intros c Hr. now apply cutOrganicConstraint_range.
  - revert D. unfold cutAlongSegment. destruct (Rlt_dec _ _); [easy|].
    destruct (cutSegmentParticles _ _ _ _ _) as [ps' cut'].
    cbn [particles constraints set_constraints set_cutParticles set_particles].
    intros D. change (map ?f ?l) with (f <$> l).
    apply Forall_fmap. eapply Forall_impl; [exact Hc|].
    intros c Hr. now apply cutSegmentConstraint_range.
Qed.

Lemma init_inOrder (s : ClothPhysics) : inOrder (init s).
Proof.
  pose proof (init_length s) as Hl.
  destruct (init_settings s) as (Hc & _ & _ & _ & EX & EY & _).
  assert (At : forall i p, particles (init s) !! i = Some p ->
            Particle.index p = i /\ Particle.active p = true /\
            Particle.cutFactor p = 1).
  { intros i p Hp.
    assert (Hlt : (i < (segmentsY s + 1) * (segmentsX s + 1))%nat).
    { rewrite <- Hl. apply lookup_lt_is_Some. eauto. }
    destruct (init_grid s i Hlt) as (q & Hq & H1 & _ & _ & H4 & H5 & _).
    rewrite Hp in Hq. injection Hq as <-. now repeat split. }
  split; [now rewrite EX, EY|]. split.
  - intros i p Hp. now apply At.
  - intros n. rewrite Hc. split; [intros Hn; now apply elem_of_empty in Hn|].
    intros (p & Hp & Ha). destruct (At n p Hp) as (_ & Ha' & _). congruence.
Qed.

Lemma init_inRange (s : ClothPhysics) :
  0 <= stiffness (params s) -> 0 <= bendingStiffness (params s) ->
  inRange (init s).
Proof.
  intros Hk Hbend. split.
  - apply Forall_lookup. intros i p Hp.
    assert (Hlt : (i < (segmentsY s + 1) * (segmentsX s + 1))%nat).
    { rewrite <- init_length. apply lookup_lt_is_Some. eauto. }
    destruct (init_grid s i Hlt) as (q & Hq & _ & _ & _ & _ & H5 & _).
    rewrite Hp in Hq. injection Hq as <-. unfold damageInRange. lra.
  - apply Forall_forall. intros c Hc.
    pose proof (init_fresh s) as F. pose proof (init_graded s) as G.
    unfold allFresh in F. rewrite Forall_forall in F. rewrite Forall_forall in G.
    destruct (F c Hc) as (_ & Es & _). specialize (G c Hc).
    unfold stiffnessInRange, minFactor. rewrite Es.
    destruct G as [E | [E | E]]; rewrite E; lra.
Qed.

(* what can happen to the cloth between two frames: a call of update, of
   attachToPivots or of a cut; a reset by init; a change of the array of
   pivot points that the cloth shares with the pivot manager *)
Inductive Event : Type :=
| Issue (cmd : Command)
| Reset
| Pivots (pivots : list Vector3).

Definition handle (rnd : Random) (st : nat * ClothPhysics) (e : Event)
  : nat * ClothPhysics :=
  match e with
  | Issue cmd => run rnd st cmd
  | Reset => (st.1, init st.2)
  | Pivots pivots => (st.1, set_pivotPoints st.2 pivots)
  end.

Lemma handle_settings (rnd : Random) (st : nat * ClothPhysics) (e : Event) :
  sameSettings st.2 (handle rnd st e).2.
Proof.
  destruct e as [cmd| |pivots]; cbn [handle snd].
  - apply run_settings.
  - destruct (init_settings st.2) as (_ & _ & _ & H).
    unfold sameSettings. tauto.
  - now repeat split.
Qed.

Lemma session_settings (rnd : Random) (events : list Event)
  (st : nat * ClothPhysics) :
  sameSettings st.2 (fold_left (handle rnd) events st).2.
Proof.
  revert st. induction events as [|e events IH]; intros st; cbn [fold_left];
    [now repeat split|].
  destruct (handle_settings rnd st e) as (A1 & A2 & A3 & A4 & A5).
  destruct (IH (handle rnd st e)) as (B1 & B2 & B3 & B4 & B5).
  unfold sameSettings. rewrite B1, B2, B3, B4, B5. now repeat split.
Qed.

Lemma session_inOrder (rnd : Random) (events : list Event)
  (st : nat * ClothPhysics) :
  inOrder st.2 -> inOrder (fold_left (handle rnd) events st).2.
Proof.
  revert st. induction events as [|e events IH]; intros st H; cbn [fold_left];
    [exact H|].
  apply IH. destruct e as [cmd| |pivots]; cbn [handle snd].
  - now apply run_inOrder.
  - apply init_inOrder.
  - exact H.
Qed.

Lemma session_inRange (rnd : Random) (events : list Event)
  (st : nat * ClothPhysics) :
  0 <= stiffness (params st.2) -> 0 <= bendingStiffness (params st.2) ->
  inRange st.2 -> inRange (fold_left (handle rnd) events st).2.
Proof.
  revert st. induction events as [|e events IH]; intros st Hk Hb H;
    cbn [fold_left]; [exact H|].
  destruct (handle_settings rnd st e) as (_ & _ & Ep & _).
  apply IH; try (rewrite Ep; assumption).
  destruct e as [cmd| |pivots]; cbn [handle snd].
  - now apply run_inRange.
  - now apply init_inRange.
  - exact H.
Qed.

(** X21. Damage stays within bounds.  Start from [init], with non-negative
    stiffness parameters, and let any sequence of updates, anchor
    resolutions, point cuts, segment cuts, resets and changes of the pivot
    points follow.  Then the cut factor of every particle lies in [0.2, 1],
    so the effective tear threshold (for a tear threshold that is not
    negative) never drops below a fifth of the tear threshold, the stiffness of every constraint lies between half its base
    stiffness and its base stiffness, and the vertex colours that the mesh
    computes from the cut factors stay within [0.76, 1], [0.84, 1] and 1. *)
Lemma session_damage_in_range (rnd : Random) (events : list Event) (k : nat)
  (s : ClothPhysics) :
  0 <= stiffness (params s) -> 0 <= bendingStiffness (params s) ->
  let st := (fold_left (handle rnd) events (k, init s)).2 in
  (forall p, In p (particles st) -> 0.2 <= Particle.cutFactor p <= 1) /\
  (forall c, In c (constraints st) ->
     0.5 * Constraint.baseStiffness c <= Constraint.stiffness c
       <= Constraint.baseStiffness c) /\
  (forall a b, In a (particles st) -> In b (particles st) ->
     0 <= tearThreshold (params s) ->
     0.2 * tearThreshold (params s) <= effectiveTearThreshold (params st) a b) /\
  (forall col, In col (ClothMesh.colors st) ->
     0.76 <= col.1.1 <= 1 /\ 0.84 <= col.1.2 <= 1 /\ col.2 = 1).
Proof.
  intros Hk Hb st.
  destruct (init_settings s) as (_ & _ & _ & Ep & _).
  assert (H : inRange st).
  { apply (session_inRange rnd events (k, init s)); cbn [snd];
      rewrite ?Ep; try assumption. now apply init_inRange. }
  destruct (session_settings rnd events (k, init s)) as (_ & _ & Ep' & _).
  cbn [snd] in Ep'. fold st in Ep'.
  destruct H as [Hp Hc]. rewrite Forall_forall in Hp. rewrite Forall_forall in Hc.
  split; [|split; [|split]].
  - intros p Hin. apply (Hp p). now apply list_elem_of_In.
  - intros c Hin. apply list_elem_of_In in Hin.
    destruct (Hc c Hin) as (_ & Hr). exact Hr.
  - intros a b Ha Hin Hpos.
    apply list_elem_of_In in Ha. apply list_elem_of_In in Hin.
    destruct (Hp a Ha) as [Ha1 _]. destruct (Hp b Hin) as [Hb1 _].
    unfold effectiveTearThreshold. cbv zeta. rewrite Ep', Ep.
    assert (Hm : 0.2 <= Rmin (Particle.cutFactor a) (Particle.cutFactor b))
      by now apply Rmin_glb.
    nra.
  - intros col Hin. unfold ClothMesh.colors in Hin.
    apply in_map_iff in Hin. destruct Hin as (p & <- & Hin).
    apply list_elem_of_In in Hin. destruct (Hp p Hin) as [H1 H2].
    unfold ClothMesh.vertexColor. cbn. repeat split; lra.
Qed.

Lemma session_damage_in_range_witness :
  let st :=
    (fold_left (handle zeroRandom)
       [Issue (CutOrganic firstCenter 0.5); Issue (Update 0.016);
        Issue (CutAlongSegment cutStart cutEnd 0.18); Reset]
       (0%nat, init blankCloth)).2 in
  (forall p, In p (particles st) -> 0.2 <= Particle.cutFactor p <= 1) /\
  (forall c, In c (constraints st) ->
     0.5 * Constraint.baseStiffness c <= Constraint.stiffness c
       <= Constraint.baseStiffness c).
Proof.
  destruct (session_damage_in_range zeroRandom
              [Issue (CutOrganic firstCenter 0.5); Issue (Update 0.016);
               Issue (CutAlongSegment cutStart cutEnd 0.18); Reset]
              0 blankCloth) as (H1 & H2 & _).
  - unfold blankCloth, defaultParams. cbn [params stiffness]. lra.
  - unfold blankCloth, defaultParams. cbn [params bendingStiffness]. lra.
  - exact (conj H1 H2).
Defined.

(** X22. The set of cut particles is exactly the set of particles that are
    cut out.  After [init] and any sequence of updates, anchor resolutions,
    cuts, resets and changes of the pivot points, the grid still has its
    (segmentsX + 1) * (segmentsY + 1) particles, the particle at place i
    still carries the index i, and a number is in [cutParticles] if and only
    if the particle at that place is inactive. *)
Lemma session_cut_particles (rnd : Random) (events : list Event) (k : nat)
  (s : ClothPhysics) :
  let st := (fold_left (handle rnd) events (k, init s)).2 in
  length (particles st) = ((segmentsY s + 1) * (segmentsX s + 1))%nat /\
  (forall i p, particles st !! i = Some p -> Particle.index p = i) /\
  (forall n, n ∈ cutParticles st <->
     exists p, particles st !! n = Some p /\ Particle.active p = false).
Proof.
  intros st.
  assert (H : inOrder st).
  { apply (session_inOrder rnd events (k, init s)). apply init_inOrder. }
  destruct (session_settings rnd events (k, init s)) as (EX & EY & _).
  cbn [snd] in EX, EY. fold st in EX, EY.
  destruct (init_settings s) as (_ & _ & _ & _ & EX0 & EY0 & _).
  destruct H as (Hl & Hi & Hb). rewrite EX, EY, EX0, EY0 in Hl.
  split; [exact Hl|]. split; [exact Hi|exact Hb].
Qed.

(** *** The segment cut, twice with the same arguments *)

Lemma Rmin_absorb (a b : R) : Rmin (Rmin a b) b = Rmin a b.
Proof. unfold Rmin. repeat destruct (Rle_dec _ _); lra. Qed.

Lemma cutSegmentParticle_again (start end_ : Vector3) (radius : R)
  (cut : gset nat) (p : Particle.t) :
  cutSegmentParticle start end_ radius cut (markSeg start end_ radius p)
  = (markSeg start end_ radius p, cut).
Proof.
  unfold markSeg, cutSegmentParticle. cbv zeta.
  destruct (Particle.active p) eqn:Ha; cbn [negb fst].
  2:{ now rewrite Ha. }
  destruct (Rle_dec _ radius) as [H1|H1]; cbn [fst]; [reflexivity|].
  destruct (Rle_dec _ (radius * 1.6)) as [H16|H16]; cbn [fst].
  - cbn [Particle.active Particle.position Particle.set_cutFactor
         Particle.cutFactor Particle.index].
    rewrite Ha. cbn [negb].
    destruct (Rle_dec _ radius); [contradiction|].
    destruct (Rle_dec _ (radius * 1.6)); [|contradiction].
    unfold Particle.set_cutFactor. cbn. now rewrite Rmin_absorb.
  - rewrite Ha. cbn [negb].
    destruct (Rle_dec _ radius); [contradiction|].
    destruct (Rle_dec _ (radius * 1.6)); [contradiction|reflexivity].
Qed.

Lemma cutSegmentParticles_again (start end_ : Vector3) (radius : R)
  (cut : gset nat) (ps : list Particle.t) :
  cutSegmentParticles start end_ radius cut (map (markSeg start end_ radius) ps)
  = (map (markSeg start end_ radius) ps, cut).
Proof.
  induction ps as [|p ps IH]; [reflexivity|].
  cbn [map cutSegmentParticles].
  now rewrite cutSegmentParticle_again, IH.
Qed.

Lemma cutSegmentConstraint_again (start end_ : Vector3) (radius : R)
  (ps : list Particle.t) (c : Constraint.t) :
  cutSegmentConstraint start end_ radius ps
    (cutSegmentConstraint start end_ radius ps c)
  = cutSegmentConstraint start end_ radius ps c.
Proof.
  destruct (Constraint.active c) eqn:Hc.
  2:{ now rewrite !(cutSegmentConstraint_inactive start end_ radius ps c Hc). }
  destruct (ps !! Constraint.p1 c) as [a|] eqn:Ha.
  2:{ now rewrite !(cutSegmentConstraint_missing start end_ radius ps c
                     (or_introl Ha)). }
  destruct (ps !! Constraint.p2 c) as [b|] eqn:Hb.
  2:{ now rewrite !(cutSegmentConstraint_missing start end_ radius ps c
                     (or_intror Hb)). }
  rewrite (cutSegmentConstraint_on start end_ radius ps c a b Ha Hb Hc).
  destruct (segmentHit start end_ radius a b) eqn:Hhit.
  - now apply cutSegmentConstraint_inactive.
  - rewrite (cutSegmentConstraint_on start end_ radius ps
               (Constraint.set_stiffness c (softened c a b)) a b Ha Hb Hc).
    now rewrite Hhit.
Qed.

(** X23. [cutAlongSegment] is idempotent: a second call with the same
    segment and radius changes nothing at all.  The particles within the
    radius are already inactive and are skipped, the cut factor of a
    particle of the shell is the minimum of itself and the same falloff
    value, the set of cut particles gains nothing, and every constraint is
    deactivated or rescaled from its base stiffness exactly as before. *)
Lemma cutAlongSegment_idempotent (start end_ : Vector3) (radius : R)
  (s : ClothPhysics) :
  cutAlongSegment start end_ radius (cutAlongSegment start end_ radius s)
  = cutAlongSegment start end_ radius s.
Proof.
  destruct (Rlt_dec (THREE.length (THREE.sub end_ start)) 1e-6) as [D|N].
  - now rewrite !cutAlongSegment_degenerate.
  - unfold cutAlongSegment. destruct (Rlt_dec _ _); [contradiction|].
    pose proof (cutSegmentParticles_fst start end_ radius (particles s)
                  (cutParticles s)) as Hp.
    destruct (cutSegmentParticles start end_ radius (cutParticles s)
                (particles s)) as [ps' cut'].
    cbn [fst] in Hp. subst ps'.
    cbn [particles cutParticles constraints set_constraints set_cutParticles
         set_particles].
    rewrite cutSegmentParticles_again.
    unfold set_constraints, set_cutParticles, set_particles. cbn.
    f_equal. rewrite map_map. apply map_ext. intros c.
    apply cutSegmentConstraint_again.
Qed.

(** *** No active constraint holds a particle that was cut out *)

(* every active constraint joins two active particles of the cloth *)
Definition tidy (s : ClothPhysics) : Prop :=
  forall c, In c (constraints s) -> Constraint.active c = true ->
    exists a b,
      particles s !! Constraint.p1 c = Some a /\
      particles s !! Constraint.p2 c = Some b /\
      Particle.active a = true /\ Particle.active b = true.

Lemma identity_active_at (ps ps' : list Particle.t) (i : nat) (a : Particle.t) :
  identity <$> ps' = identity <$> ps -> ps !! i = Some a ->
  exists a', ps' !! i = Some a' /\ Particle.active a' = Particle.active a.
Proof.
  intros E Ha.
  assert (H : (identity <$> ps') !! i = Some (identity a))
    by now rewrite E, list_lookup_fmap, Ha.
  rewrite list_lookup_fmap in H.
  destruct (ps' !! i) as [a'|]; [|discriminate].
  cbn in H. apply (inj Some) in H. exists a'. split; [reflexivity|].
  unfold identity in H. now injection H as _ _ _ _ _ H _.
Qed.

(* an operation that keeps the particles' identities and the constraints'
   wiring, and reactivates no constraint, keeps the cloth tidy *)
Lemma tidy_kept (s s' : ClothPhysics) :
  identity <$> particles s' = identity <$> particles s ->
  wiring <$> constraints s' = wiring <$> constraints s ->
  (forall j, inactiveAt (constraints s) j -> inactiveAt (constraints s') j) ->
  tidy s -> tidy s'.
Proof.
  intros Ep Ec Hin H c' Hc' Hact.
  apply list_elem_of_In, list_elem_of_lookup_1 in Hc'. destruct Hc' as (j & Hj).
  assert (Hw : (wiring <$> constraints s) !! j = Some (wiring c'))
    by now rewrite <- Ec, list_lookup_fmap, Hj.
  rewrite list_lookup_fmap in Hw.
  destruct (constraints s !! j) as [c|] eqn:Hc; [|discriminate].
  cbn in Hw. apply (inj Some) in Hw.
  assert (Hc_act : Constraint.active c = true).
  { destruct (Constraint.active c) eqn:E; [reflexivity|].
    destruct (Hin j) as (c2 & Hc2 & Hf); [now exists c|].
    rewrite Hj in Hc2. injection Hc2 as <-. congruence. }
  destruct (H c) as (a & b & Ha & Hb & Aa & Ab); [|exact Hc_act|].
  { apply list_elem_of_In. exact (list_elem_of_lookup_2 _ j c Hc). }
  unfold wiring in Hw. injection Hw as E1 E2 _ _ _.
  destruct (identity_active_at _ _ _ _ Ep Ha) as (a' & Ha' & Ea).
  destruct (identity_active_at _ _ _ _ Ep Hb) as (b' & Hb' & Eb).
  exists a', b'. rewrite <- E1, <- E2. repeat split; congruence.
Qed.

(* a loop that looks at every constraint with the particles [ps'] and
   deactivates those with an inactive endpoint leaves the cloth tidy *)
Lemma tidy_swept (ps ps' : list Particle.t) (cs : list Constraint.t)
  (sweep : Constraint.t -> Constraint.t) (s s' : ClothPhysics) :
  particles s = ps -> constraints s = cs ->
  particles s' = ps' -> constraints s' = map sweep cs ->
  length ps' = length ps ->
  (forall c, Constraint.active (sweep c) = true ->
     Constraint.p1 (sweep c) = Constraint.p1 c /\
     Constraint.p2 (sweep c) = Constraint.p2 c /\
     Constraint.active c = true /\
     forall a b, ps' !! Constraint.p1 c = Some a ->
                 ps' !! Constraint.p2 c = Some b ->
                 Particle.active a = true /\ Particle.active b = true) ->
  tidy s -> tidy s'.
Proof.
  intros Ep Ec Ep' Ec' L Hs H c' Hc' Hact. rewrite Ec' in Hc'.
  apply in_map_iff in Hc'. destruct Hc' as (c & <- & Hc).
  destruct (Hs c Hact) as (E1 & E2 & Hca & Hab).
  rewrite <- Ec in Hc. destruct (H c Hc Hca) as (a & b & Ha & Hb & _).
  rewrite Ep in Ha, Hb.
  assert (Ha' : is_Some (ps' !! Constraint.p1 c)).
  { apply lookup_lt_is_Some. rewrite L. apply lookup_lt_is_Some. eauto. }
  assert (Hb' : is_Some (ps' !! Constraint.p2 c)).
  { apply lookup_lt_is_Some. rewrite L. apply lookup_lt_is_Some. eauto. }
  destruct Ha' as (a' & Ha'). destruct Hb' as (b' & Hb').
  destruct (Hab a' b' Ha' Hb') as [Aa Ab].
  exists a', b'. rewrite Ep', E1, E2. now repeat split.
Qed.

Lemma cutOrganicConstraint_sweep (ps' : list Particle.t) (c : Constraint.t) :
  Constraint.active (cutOrganicConstraint ps' c) = true ->
  Constraint.p1 (cutOrganicConstraint ps' c) = Constraint.p1 c /\
  Constraint.p2 (cutOrganicConstraint ps' c) = Constraint.p2 c /\
  Constraint.active c = true /\
  forall a b, ps' !! Constraint.p1 c = Some a ->
              ps' !! Constraint.p2 c = Some b ->
              Particle.active a = true /\ Particle.active b = true.
Proof.
  unfold cutOrganicConstraint.
  destruct (ps' !! Constraint.p1 c) as [a|].
  2:{ intros H. repeat split; try assumption; discriminate. }
  destruct (ps' !! Constraint.p2 c) as [b|].
  2:{ intros H. repeat split; try assumption; discriminate. }
  destruct (Particle.active a) eqn:Aa; [|discriminate].
  destruct (Particle.active b) eqn:Ab; [|discriminate].
  cbn [negb orb]. destruct (_ || _); cbn; intros H;
    (split; [reflexivity|]); (split; [reflexivity|]); (split; [exact H|]);
    intros a' b' [= <-] [= <-]; now split.
Qed.

Lemma cutSegmentConstraint_sweep (start end_ : Vector3) (radius : R)
  (ps' : list Particle.t) (c : Constraint.t) :
  Constraint.active (cutSegmentConstraint start end_ radius ps' c) = true ->
  Constraint.p1 (cutSegmentConstraint start end_ radius ps' c) = Constraint.p1 c /\
  Constraint.p2 (cutSegmentConstraint start end_ radius ps' c) = Constraint.p2 c /\
  Constraint.active c = true /\
  forall a b, ps' !! Constraint.p1 c = Some a ->
              ps' !! Constraint.p2 c = Some b ->
              Particle.active a = true /\ Particle.active b = true.
Proof.
  unfold cutSegmentConstraint.
  destruct (Constraint.active c) eqn:Hc; cbn [negb]; [|congruence].
  destruct (ps' !! Constraint.p1 c) as [a|].
  2:{ intros H. repeat split; discriminate. }
  destruct (ps' !! Constraint.p2 c) as [b|].
  2:{ intros H. repeat split; discriminate. }
  destruct (Rle_dec _ _); cbn [orb]; [discriminate|].
  destruct (Particle.active a) eqn:Aa; [|discriminate].
  destruct (Particle.active b) eqn:Ab; [|discriminate].
  cbn. intros _. do 3 (split; [reflexivity|]).
  intros a' b' [= <-] [= <-]. now split.
Qed.

Lemma run_tidy (rnd : Random) (st : nat * ClothPhysics) (cmd : Command) :
  tidy st.2 -> tidy (run rnd st cmd).2.
Proof.
  intros H. destruct cmd as [deltaTime| |center radius|start end_ radius];
    cbn [run snd].
  - destruct (update_keeps deltaTime rnd st.1 st.2) as (_ & _ & _ & _ & E1 & E2).
    apply (tidy_kept st.2); try assumption.
    intros j. apply update_keeps_inactive.
  - apply (tidy_kept st.2); try assumption; [|reflexivity|tauto].
    apply (attachToPivotsOn_obs identity identity_ignoresMotion).
  - pose proof (cutOrganic_constraints center radius rnd st.1 st.2) as Ec.
    destruct (run_cutBy rnd st (CutOrganic center radius)) as (hit & Hcut).
    destruct (cutBy_books _ _ _ _ _ Hcut) as (L & _). cbn [run snd] in L.
    apply (tidy_swept (particles st.2)
             (particles (cutOrganic center radius rnd st.1 st.2).2)
             (constraints st.2)
             (cutOrganicConstraint
                (particles (cutOrganic center radius rnd st.1 st.2).2))
             st.2); try reflexivity; try assumption.
    intros c. apply cutOrganicConstraint_sweep.
  - destruct (Rlt_dec (THREE.length (THREE.sub end_ start)) 1e-6) as [D|N].
    + now rewrite cutAlongSegment_degenerate.
    + destruct (run_cutBy rnd st (CutAlongSegment start end_ radius))
        as (hit & Hcut).
      destruct (cutBy_books _ _ _ _ _ Hcut) as (L & _). cbn [run snd] in L.
      apply (tidy_swept (particles st.2)
               (particles (cutAlongSegment start end_ radius st.2))
               (constraints st.2)
               (cutSegmentConstraint start end_ radius
                  (particles (cutAlongSegment start end_ radius st.2)))
               st.2); try reflexivity; try assumption.
      * unfold cutAlongSegment. destruct (Rlt_dec _ _); [contradiction|].
        now destruct (cutSegmentParticles _ _ _ _ _).
      * intros c. apply cutSegmentConstraint_sweep.
Qed.

Lemma init_tidy (s : ClothPhysics) : tidy (init s).
Proof.
  intros c Hc _. apply list_elem_of_In in Hc.
  pose proof (init_fresh s) as F. unfold allFresh in F.
  rewrite Forall_forall in F.
  destruct (F c Hc) as (_ & _ & _ & a & b & Ha & Hb & _).
  assert (A : forall i p, particles (init s) !! i = Some p ->
            Particle.active p = true).
  { intros i p Hp.
    assert (Hlt : (i < (segmentsY s + 1) * (segmentsX s + 1))%nat).
    { rewrite <- init_length. apply lookup_lt_is_Some. eauto. }
    destruct (init_grid s i Hlt) as (q & Hq & _ & _ & _ & H4 & _).
    rewrite Hp in Hq. now injection Hq as <-. }
  exists a, b. repeat split; try assumption; eapply A; eassumption.
Qed.

(** X27. No active constraint holds a particle that was cut out.  After
    [init] and any sequence of updates, anchor resolutions, point cuts,
    segment cuts, resets and changes of the pivot points, every constraint
    that is still active joins two particles of the cloth that are both
    active: each cut deactivates the constraints of the particles it cuts
    out, and nothing reactivates a particle or a constraint but [init].  So
    the test of the two active flags in [satisfyConstraints] never decides
    for an active constraint. *)
Lemma session_constraints_join_active (rnd : Random) (events : list Event)
  (k : nat) (s : ClothPhysics) :
  let st := (fold_left (handle rnd) events (k, init s)).2 in
  forall c, In c (constraints st) -> Constraint.active c = true ->
    exists a b,
      particles st !! Constraint.p1 c = Some a /\
      particles st !! Constraint.p2 c = Some b /\
      Particle.active a = true /\ Particle.active b = true.
Proof.
  intros st. change (tidy st). subst st.
  assert (G : forall st0 : nat * ClothPhysics, tidy st0.2 ->
            tidy (fold_left (handle rnd) events st0).2).
  { induction events as [|e events IH]; intros st0 H; [exact H|].
    cbn [fold_left]. apply IH. destruct e as [cmd| |pivots]; cbn [handle snd].
    - now apply run_tidy.
    - apply init_tidy.
    - exact H. }
  apply (G (k, init s)). apply init_tidy.
Qed.

Lemma session_constraints_join_active_witness :
  exists c,
    In c (constraints (fold_left (handle zeroRandom) [] (0%nat, init tinyCloth)).2) /\
    Constraint.active c = true /\
    exists a b,
      particles (fold_left (handle zeroRandom) [] (0%nat, init tinyCloth)).2
        !! Constraint.p1 c = Some a /\
      particles (fold_left (handle zeroRandom) [] (0%nat, init tinyCloth)).2
        !! Constraint.p2 c = Some b /\
      Particle.active a = true /\ Particle.active b = true.
Proof.
  destruct tiny_first_constraint as (c & Hc & _).
  assert (Ha : Constraint.active c = true).
  { pose proof (init_fresh tinyCloth) as F. unfold allFresh in F.
    rewrite Forall_forall in F. apply list_elem_of_In in Hc.
    now destruct (F c Hc). }
  exists c. split; [exact Hc|]. split; [exact Ha|].
  exact (session_constraints_join_active zeroRandom [] 0 tinyCloth c Hc Ha).
Defined.

End MainJsFacts.

(** ** src/main.js: the mesh, the pivot manager and the cutting tool *)

Module ClothMeshFacts.
Import MainJs ClothMesh.

Lemma cells_In (segX segY x y : nat) :
  In (x, y) (cells segX segY) <-> (x < segX /\ y < segY)%nat.
Proof.
  unfold cells. rewrite in_flat_map. split.
  - intros (y' & Hy & Hx). apply in_map_iff in Hx. destruct Hx as (x' & E & Hx).
    injection E as <- <-. apply in_seq in Hy. apply in_seq in Hx. lia.
  - intros [Hx Hy]. exists y. split; [apply in_seq; lia|].
    apply in_map_iff. exists x. split; [reflexivity|apply in_seq; lia].
Qed.

Lemma cells_length (segX segY : nat) :
  length (cells segX segY) = (segY * segX)%nat.
Proof. apply (ClothJsFacts.length_rows (fun x y => (x, y))). Qed.

(* the indices pushed for one cell are the places of four active particles *)
Lemma cellFaces_active (s : ClothPhysics) (xy : nat * nat) (k : nat) :
  In k (cellFaces s xy) ->
  exists p, particles s !! k = Some p /\ Particle.active p = true.
Proof.
  destruct xy as [x y]. unfold cellFaces. cbv zeta.
  destruct (particles s !! _) as [pa|] eqn:Ha; [|intros []].
  destruct (particles s !! _) as [pb|] eqn:Hb in |- *; [|intros []].
  destruct (particles s !! _) as [pc|] eqn:Hc in |- *; [|intros []].
  destruct (particles s !! _) as [pd|] eqn:Hd in |- *; [|intros []].
  destruct (Particle.active pa) eqn:Aa; [|intros []].
  destruct (Particle.active pb) eqn:Ab; [|intros []].
  destruct (Particle.active pc) eqn:Ac; [|intros []].
  destruct (Particle.active pd) eqn:Ad; [|intros []].
  cbn [andb]. destruct (Rlt_dec _ _); [|intros []].
  intros [<-|[<-|[<-|[<-|[<-|[<-|[]]]]]]]; eauto.
Qed.

(* a cell whose four corners are active and undamaged gets its two
   triangles *)
Lemma cellFaces_intact (s : ClothPhysics) (x y : nat) :
  (forall i, (i < (segmentsY s + 1) * (segmentsX s + 1))%nat ->
     exists p, particles s !! i = Some p /\ Particle.active p = true /\
               Particle.cutFactor p = 1) ->
  (x < segmentsX s)%nat -> (y < segmentsY s)%nat ->
  length (cellFaces s (x, y)) = 6%nat.
Proof.
  intros H Hx Hy. unfold cellFaces. cbv zeta.
  set (a := (y * (segmentsX s + 1) + x)%nat).
  destruct (H a) as (pa & -> & Aa & Ca); [subst a; nia|].
  destruct (H (a + 1)%nat) as (pb & -> & Ab & Cb); [subst a; nia|].
  destruct (H (a + (segmentsX s + 1))%nat) as (pc & -> & Ac & Cc);
    [subst a; nia|].
  destruct (H (a + (segmentsX s + 1) + 1)%nat) as (pd & -> & Ad & Cd);
    [subst a; nia|].
  rewrite Aa, Ab, Ac, Ad, Ca, Cb, Cc, Cd. cbn [andb].
  destruct (Rlt_dec _ _) as [|N]; [reflexivity|]. exfalso. apply N. lra.
Qed.

(** X24. The index buffer that [updateGeometry] builds never refers to a
    particle that was cut out: every index in it is the place of an active
    particle of the cloth, and the indices come in triangles.  Right after
    [init] every cell of the grid gets its two triangles, so the buffer
    holds 6 * segmentsX * segmentsY indices. *)
Lemma indices_of_active_particles (s : ClothPhysics) :
  (forall k, In k (indices s) ->
     exists p, particles s !! k = Some p /\ Particle.active p = true) /\
  (exists n, length (indices s) = (3 * n)%nat) /\
  length (indices (init s)) = (6 * (segmentsY s * segmentsX s))%nat.
Proof.
  split; [|split].
  - intros k Hk. unfold indices in Hk. apply in_flat_map in Hk.
    destruct Hk as (xy & _ & Hk). now apply (cellFaces_active s xy).
  - unfold indices. generalize (cells (segmentsX s) (segmentsY s)). intros l.
    induction l as [|xy l (n & IH)]; [now exists 0%nat|].
    cbn [flat_map]. rewrite length_app, IH.
    assert (C : length (cellFaces s xy) = 0%nat \/ length (cellFaces s xy) = 6%nat).
    { destruct xy as [x y]. unfold cellFaces. cbv zeta.
      repeat (match goal with
              | |- context [match ?o with Some _ => _ | None => _ end] =>
                  destruct o; [|now left]
              end).
      destruct (_ && _); [now right|now left]. }
    destruct C as [-> | ->]; [exists n; lia|exists (n + 2)%nat; lia].
  - unfold indices.
    destruct (MainJsFacts.init_settings s) as (_ & _ & _ & _ & EX & EY & _).
    rewrite (@flat_map_constant_length _ _ 6%nat).
    + rewrite EX, EY, cells_length. lia.
    + intros [x y] Hxy. apply cells_In in Hxy. destruct Hxy as [Hx Hy].
      apply cellFaces_intact; [|exact Hx|exact Hy].
      intros i Hi. rewrite EX, EY in Hi.
      destruct (MainJsFacts.init_grid s i Hi)
        as (p & Hp & _ & _ & _ & H4 & H5 & _).
      now exists p.
Qed.

End ClothMeshFacts.

Module PivotPointManagerFacts.
Import PivotPointManager.

(* the calls that change the pivot manager *)
Inductive Op : Type :=
| AddPivot (position : Vector3)
| RemovePivot (index : Z)
| UpdatePivot (index : Z) (position : Vector3)
| HighlightPivot (index : Z)
| Clear.

Definition apply (m : t) (op : Op) : t :=
  match op with
  | AddPivot position => (addPivot position m).2
  | RemovePivot index => removePivot index m
  | UpdatePivot index position => updatePivot index position m
  | HighlightPivot index => highlightPivot index m
  | Clear => clear m
  end.

(* the meshes stand where the pivot points are, one mesh per point *)
Definition inStep (m : t) : Prop := position <$> pivotMeshes m = pivotPoints m.

Lemma inStep_length (m : t) :
  inStep m -> length (pivotMeshes m) = length (pivotPoints m).
Proof. intros H. rewrite <- H. symmetry. apply length_fmap. Qed.

Lemma delete_last {A : Type} (l : list A) (x : A) :
  delete (length l) (l ++ [x]) = l.
Proof. induction l as [|a l IH]; [reflexivity|]. simpl. f_equal. exact IH. Qed.

Lemma apply_inStep (m : t) (op : Op) : inStep m -> inStep (apply m op).
Proof.
  intros H. pose proof (inStep_length m H) as L. unfold inStep in *.
  destruct op as [v|index|index v|index|]; cbn [apply snd].
  - unfold addPivot. cbn. now rewrite fmap_app, H.
  - unfold removePivot. destruct (_ && _); [|exact H].
    cbn. now rewrite list_fmap_delete, H.
  - unfold updatePivot. destruct (_ && _) eqn:E; [|exact H]. cbn.
    rewrite <- H. apply list_eq. intros j.
    rewrite list_lookup_fmap.
    destruct (decide (j = Z.to_nat index)) as [->|N].
    + rewrite list_lookup_alter_eq.
      destruct (pivotMeshes m !! Z.to_nat index) as [mesh|] eqn:Hm.
      * rewrite list_lookup_insert_eq; [reflexivity|].
        rewrite length_fmap. apply lookup_lt_is_Some. eauto.
      * cbn. symmetry. apply lookup_ge_None. rewrite length_insert, length_fmap.
        now apply lookup_ge_None.
    + rewrite list_lookup_alter_ne, list_lookup_insert_ne by congruence.
      now rewrite list_lookup_fmap.
  - unfold highlightPivot. cbn. rewrite <- H. apply list_eq. intros j.
    rewrite !list_lookup_fmap, list_lookup_imap.
    destruct (pivotMeshes m !! j); [|reflexivity]. cbn.
    now destruct (_ =? _)%Z.
  - reflexivity.
Qed.

(** X25. The pivot manager keeps its two arrays in step: from the
    constructor on, after any sequence of [addPivot], [removePivot],
    [updatePivot] and [highlightPivot] calls and of clearings by the 'd'
    key, with any indices, there is one mesh per pivot point and each mesh
    stands at its point.  [addPivot] returns the place of the new point,
    and [removePivot] at that place undoes it. *)
Lemma pivot_manager_in_step (ops : list Op) :
  let m := fold_left apply ops new in
  position <$> pivotMeshes m = pivotPoints m /\
  length (pivotMeshes m) = length (pivotPoints m) /\
  forall v,
    (addPivot v m).1 = length (pivotPoints m) /\
    pivotPoints (addPivot v m).2 !! (addPivot v m).1 = Some v /\
    pivotPoints (removePivot (Z.of_nat (addPivot v m).1) (addPivot v m).2)
      = pivotPoints m /\
    pivotMeshes (removePivot (Z.of_nat (addPivot v m).1) (addPivot v m).2)
      = pivotMeshes m.
Proof.
  intros m.
  assert (H : inStep m).
  { subst m. assert (H0 : inStep new) by reflexivity. revert H0.
    generalize new. induction ops as [|op ops IH]; intros m0 H0; [exact H0|].
    cbn [fold_left]. apply IH. now apply apply_inStep. }
  pose proof (inStep_length m H) as L.
  split; [exact H|]. split; [exact L|]. intros v.
  assert (E1 : (addPivot v m).1 = length (pivotPoints m)).
  { unfold addPivot. cbn. rewrite length_app. cbn. lia. }
  rewrite E1. split; [reflexivity|]. split.
  { unfold addPivot. cbn [snd pivotPoints].
    rewrite lookup_app_r by lia. now rewrite Nat.sub_diag. }
  unfold removePivot, addPivot. cbn [snd pivotPoints pivotMeshes].
  rewrite length_app. cbn [length].
  destruct (Z.leb_spec 0 (Z.of_nat (length (pivotPoints m)))); [|lia].
  destruct (Z.ltb_spec (Z.of_nat (length (pivotPoints m)))
              (Z.of_nat (length (pivotPoints m) + 1))); [|lia].
  cbn [andb pivotPoints pivotMeshes]. rewrite Nat2Z.id.
  split; [apply delete_last|]. rewrite <- L. apply delete_last.
Qed.

End PivotPointManagerFacts.

Module CuttingToolFacts.
Import MainJs CuttingTool.

(* the keys and calls that change the tool *)
Inductive Key : Type :=
| Plus
| Minus
| SetActive (b : bool).

Definition press (tool : t) (key : Key) : t :=
  match key with
  | Plus => keyPlus tool
  | Minus => keyMinus tool
  | SetActive b => setActive b tool
  end.

Lemma press_radius (tool : t) (key : Key) :
  0.1 <= cutRadius tool <= 1 -> 0.1 <= cutRadius (press tool key) <= 1.
Proof.
  intros [Hlo Hhi]. destruct key; cbn.
  - split; [apply Rmin_glb; lra|]. eapply Rle_trans; [apply Rmin_r|lra].
  - split; [apply Rmax_r|apply Rmax_lub; lra].
  - now split.
Qed.

(** X26. The radius of the cutting tool stays between 0.1 and 1 whatever
    keys are pressed: it starts at 0.3, '+' adds 0.1 up to 1 and '-' takes
    0.1 off down to 0.1.  So every cut the tool performs, at a point or
    along a segment, is a cut of the cloth with a radius between 0.06 and
    0.6, six tenths of the radius of the tool. *)
Lemma tool_radius_in_range (keys : list Key) :
  let tool := fold_left press keys new in
  0.1 <= cutRadius tool <= 1 /\
  exists radius, 0.06 <= radius <= 0.6 /\
    (forall position rnd k s,
       performCut position rnd k tool s = cutOrganic position radius rnd k s) /\
    (forall start end_ s,
       performCutSegment start end_ tool s
       = cutAlongSegment start end_ radius s).
Proof.
  intros tool.
  assert (H : 0.1 <= cutRadius tool <= 1).
  { subst tool. assert (H0 : 0.1 <= cutRadius new <= 1) by (cbn; lra).
    revert H0. generalize new.
    induction keys as [|key keys IH]; intros t0 H0; [exact H0|].
    cbn [fold_left]. apply IH. now apply press_radius. }
  split; [exact H|]. exists (cutRadius tool * 0.6).
  split; [lra|]. split; reflexivity.
Qed.

End CuttingToolFacts.

(** ** Tearing, in both implementations *)

(* main.js: a constraint of rest length one between an undamaged particle and
   one the cutter has weakened to cutFactor 0.5, two units apart *)
Definition weakenedA : MainJs.Particle.t :=
  MainJs.Particle.mk (THREE.Vec3 0 0 0) (THREE.Vec3 0 0 0) (THREE.Vec3 0 0 0)
    THREE.zero THREE.zero 0.1 false 0 0 0 true 0.5.
Definition intactB : MainJs.Particle.t :=
  MainJs.Particle.mk (THREE.Vec3 2 0 0) (THREE.Vec3 2 0 0) (THREE.Vec3 1 0 0)
    THREE.zero THREE.zero 0.1 false 1 1 0 true 1.
Definition edgeAB : MainJs.Constraint.t :=
  MainJs.Constraint.mk 0 1 1 0.85 0.85 true.

Lemma weakened_length :
  THREE.length (THREE.sub (MainJs.Particle.position intactB)
                  (MainJs.Particle.position weakenedA)) = 2.
Proof. rewrite length_along_x; simpl; lra. Qed.

(** C2, as stated, fails in main.js: the endpoints are 2 apart, which does
    not exceed restLength * tearThreshold = 2.8, and the visit of
    satisfyConstraints deactivates the constraint all the same, because the
    threshold it compares with is scaled by the smaller cutFactor (0.5) of
    the two endpoints. *)
Lemma tearing_counterexample :
  THREE.length (THREE.sub (MainJs.Particle.position intactB)
                  (MainJs.Particle.position weakenedA)) = 2 /\
  MainJs.Constraint.restLength edgeAB * MainJs.tearThreshold MainJs.defaultParams
    = 2.8 /\
  2 <= 2.8 /\
  MainJs.visit MainJs.defaultParams edgeAB [weakenedA; intactB]
    = (MainJs.Constraint.set_active edgeAB false, [weakenedA; intactB]).
Proof.
  split; [exact weakened_length|]. split; [simpl; lra|]. split; [lra|].
  apply (MainJsFacts.physics_visit_tears _ _ _ weakenedA intactB);
    try reflexivity.
  - rewrite weakened_length. lra.
  - rewrite weakened_length. unfold MainJs.effectiveTearThreshold. simpl.
    unfold Rmin. destruct (Rle_dec 0.5 1); lra.
Qed.

(** C2 (amended). Tearing by over-stretch.

    In cloth.js ([Cloth.step]): a visit of the relaxation loop to a constraint
    that is not broken and whose endpoints are further apart than
    [restDistance * tearFactor] marks it broken and moves nothing; a visit
    breaks a constraint in that case only; [satisfy] and the visit leave the
    state as it is for a broken constraint; and no sequence of commands
    (step, togglePin, startSimulation, breakConstraints) mends one.

    In main.js ([satisfyConstraints]) the same holds with the threshold
    [restLength * tearThreshold * min(cutFactor1, cutFactor2)] for a
    constraint that is active between two active particles: above it the
    constraint is deactivated, a visit deactivates in that case only, an
    inactive constraint is skipped, and no sequence of commands (update,
    attachToPivots, the two cuts) reactivates one.  With cut factors at most
    one, a length above [restLength * tearThreshold] is above that threshold
    too. *)
Theorem tearing_contract :
  (forall tf c ps a b,
     ClothJs.Constraint.broken c = false ->
     ps !! ClothJs.Constraint.p1 c = Some a ->
     ps !! ClothJs.Constraint.p2 c = Some b ->
     ClothJs.Constraint.restDistance c * tf
       < THREE.distanceTo (ClothJs.Particle.position b) (ClothJs.Particle.position a) ->
     ClothJs.visit tf c ps = (ClothJs.Constraint.set_broken c true, ps)) /\
  (forall tf c ps,
     ClothJs.Constraint.broken (ClothJs.visit tf c ps).1 = true <->
     ClothJs.Constraint.broken c = true \/
     exists a b, ps !! ClothJs.Constraint.p1 c = Some a /\
       ps !! ClothJs.Constraint.p2 c = Some b /\
       ClothJs.Constraint.restDistance c * tf
         < THREE.distanceTo (ClothJs.Particle.position b)
             (ClothJs.Particle.position a)) /\
  (forall c ps,
     ClothJs.Constraint.broken c = true -> ClothJs.Constraint.satisfy c ps = ps) /\
  (forall tf cs ps j,
     ClothJsFacts.brokenAt cs j -> ClothJs.visitAt tf (cs, ps) j = (cs, ps)) /\
  (forall cmds cl j,
     ClothJsFacts.brokenAt (ClothJs.constraints cl) j ->
     ClothJsFacts.brokenAt
       (ClothJs.constraints (fold_left ClothJsFacts.run cmds cl)) j) /\
  (forall prm c ps a b,
     MainJs.Constraint.active c = true ->
     ps !! MainJs.Constraint.p1 c = Some a ->
     ps !! MainJs.Constraint.p2 c = Some b ->
     MainJs.Particle.active a = true -> MainJs.Particle.active b = true ->
     0 < THREE.length (THREE.sub (MainJs.Particle.position b)
                         (MainJs.Particle.position a)) ->
     MainJs.Constraint.restLength c * MainJs.effectiveTearThreshold prm a b
       < THREE.length (THREE.sub (MainJs.Particle.position b)
                         (MainJs.Particle.position a)) ->
     MainJs.visit prm c ps = (MainJs.Constraint.set_active c false, ps)) /\
  (forall prm c ps,
     MainJs.Constraint.active (MainJs.visit prm c ps).1 = false <->
     MainJs.Constraint.active c = false \/
     exists a b, ps !! MainJs.Constraint.p1 c = Some a /\
       ps !! MainJs.Constraint.p2 c = Some b /\
       MainJs.Particle.active a = true /\ MainJs.Particle.active b = true /\
       0 < THREE.length (THREE.sub (MainJs.Particle.position b)
                           (MainJs.Particle.position a)) /\
       MainJs.Constraint.restLength c * MainJs.effectiveTearThreshold prm a b
         < THREE.length (THREE.sub (MainJs.Particle.position b)
                           (MainJs.Particle.position a))) /\
  (forall prm cs ps j,
     MainJsFacts.inactiveAt cs j -> MainJs.visitAt prm (cs, ps) j = (cs, ps)) /\
  (forall rnd cmds st j,
     MainJsFacts.inactiveAt (MainJs.constraints st.2) j ->
     MainJsFacts.inactiveAt
       (MainJs.constraints (fold_left (MainJsFacts.run rnd) cmds st).2) j) /\
  (forall prm c ps a b,
     MainJs.Constraint.active c = true ->
     ps !! MainJs.Constraint.p1 c = Some a ->
     ps !! MainJs.Constraint.p2 c = Some b ->
     MainJs.Particle.active a = true -> MainJs.Particle.active b = true ->
     0 <= MainJs.Constraint.restLength c -> 0 <= MainJs.tearThreshold prm ->
     MainJs.Particle.cutFactor a <= 1 ->
     MainJs.Constraint.restLength c * MainJs.tearThreshold prm
       < THREE.length (THREE.sub (MainJs.Particle.position b)
                         (MainJs.Particle.position a)) ->
     MainJs.visit prm c ps = (MainJs.Constraint.set_active c false, ps)).
Proof.
  repeat apply conj.
  - exact ClothJsFacts.visit_tears.
  - exact ClothJsFacts.visit_broken_iff.
  - exact ClothJsFacts.satisfy_broken.
  - exact ClothJsFacts.visitAt_broken.
  - exact ClothJsFacts.session_keeps_broken.
  - exact MainJsFacts.physics_visit_tears.
  - exact MainJsFacts.physics_visit_inactive_iff.
  - exact MainJsFacts.physics_visitAt_inactive.
  - exact MainJsFacts.physics_session_keeps_inactive.
  - exact MainJsFacts.physics_visit_tears_past_tearThreshold.
Qed.

(* cloth.js: a whole constraint of rest length one whose endpoints are two
   apart, above 1.75; it is torn, and then stays so under a step *)
Lemma tearing_contract_witness :
  ClothJs.visit 1.75 ClothJsFacts.wholeC [ClothJsFacts.sampleA; ClothJsFacts.sampleB]
    = (ClothJsFacts.brokenC, [ClothJsFacts.sampleA; ClothJsFacts.sampleB]) /\
  ClothJs.Constraint.satisfy ClothJsFacts.brokenC
    [ClothJsFacts.sampleA; ClothJsFacts.sampleB]
    = [ClothJsFacts.sampleA; ClothJsFacts.sampleB].
Proof.
  destruct tearing_contract as (H1 & _ & H3 & _). split.
  - apply (H1 1.75 ClothJsFacts.wholeC _ ClothJsFacts.sampleA ClothJsFacts.sampleB);
      try reflexivity.
    rewrite distanceTo_length, ClothJsFacts.sample_length. simpl. lra.
  - now apply H3.
Defined.

(** ** The time step, in both implementations *)




(** ** Constraint satisfaction, in both implementations *)

(** C1 (amended). The contract of constraint satisfaction.

    cloth.js, one call of [Constraint.satisfy] on the two particle objects,
    with [delta] the vector from the first to the second endpoint,
    [currentDist] its length and [sumInv] the sum of the effective inverse
    masses (zero for a pinned endpoint, so zero when both are pinned):
    - a broken constraint changes nothing;
    - a constraint of length zero or with [sumInv = 0] changes nothing;
    - otherwise, for a constraint that is not broken, the endpoints move along
      [delta] by [inv1 / sumInv * diff] and [- inv2 / sumInv * diff] with
      [diff = (currentDist - restDistance) / currentDist * (0.25 * stiffness)];
      the shares add up to one, the vector between the endpoints becomes
      [(1 - diff) * delta], and a pinned endpoint keeps its position;
    - on the store, no particle other than the two endpoints is touched.

    main.js, the correction of [satisfyConstraints] for a constraint that is
    active between two active particles, of positive length and not torn in
    this visit: the same formula with under-relaxation constant one and with
    weight 1 for a free and 0 for a pinned endpoint, which gives one half
    each, or everything to the free endpoint; nothing moves when both are
    pinned, nor when the length is zero. *)
Theorem satisfy_contract :
  (forall (c : ClothJs.Constraint.t) (a b : ClothJs.Particle.t),
     let delta := THREE.sub (ClothJs.Particle.position b) (ClothJs.Particle.position a) in
     let currentDist := THREE.length delta in
     let inv1 := ClothJsFacts.effInv a in
     let inv2 := ClothJsFacts.effInv b in
     let sumInv := inv1 + inv2 in
     let diff := (currentDist - ClothJs.Constraint.restDistance c) / currentDist
                 * (ClothJs.Constraint.underRelaxation * ClothJs.Constraint.stiffness c) in
     let r := ClothJs.Constraint.satisfyPair c a b in
     (ClothJs.Constraint.broken c = true -> r = (a, b)) /\
     (currentDist = 0 \/ sumInv = 0 -> r = (a, b)) /\
     (ClothJs.Particle.pinned a = true -> ClothJs.Particle.pinned b = true ->
      sumInv = 0) /\
     (ClothJs.Constraint.broken c = false -> currentDist <> 0 -> sumInv <> 0 ->
        r = (ClothJs.Particle.set_position a
               (THREE.addScaledVector (ClothJs.Particle.position a) delta
                  (inv1 / sumInv * diff)),
             ClothJs.Particle.set_position b
               (THREE.addScaledVector (ClothJs.Particle.position b) delta
                  (- (inv2 / sumInv * diff)))) /\
        inv1 / sumInv + inv2 / sumInv = 1 /\
        THREE.sub (ClothJs.Particle.position r.2) (ClothJs.Particle.position r.1)
          = THREE.multiplyScalar delta (1 - diff) /\
        (ClothJs.Particle.pinned a = true ->
         ClothJs.Particle.position r.1 = ClothJs.Particle.position a) /\
        (ClothJs.Particle.pinned b = true ->
         ClothJs.Particle.position r.2 = ClothJs.Particle.position b))) /\
  (forall (c : ClothJs.Constraint.t) (ps : list ClothJs.Particle.t) (i : nat),
     i <> ClothJs.Constraint.p1 c -> i <> ClothJs.Constraint.p2 c ->
     ClothJs.Constraint.satisfy c ps !! i = ps !! i) /\
  (forall (prm : MainJs.Params) (c : MainJs.Constraint.t)
          (ps : list MainJs.Particle.t) (a b : MainJs.Particle.t),
     MainJs.Constraint.active c = true ->
     ps !! MainJs.Constraint.p1 c = Some a ->
     ps !! MainJs.Constraint.p2 c = Some b ->
     MainJs.Particle.active a = true -> MainJs.Particle.active b = true ->
     let diff := THREE.sub (MainJs.Particle.position b) (MainJs.Particle.position a) in
     let currentLength := THREE.length diff in
     let k := (currentLength - MainJs.Constraint.restLength c) / currentLength
              * MainJs.Constraint.stiffness c in
     let w1 := MainJsFacts.weight a in
     let w2 := MainJsFacts.weight b in
     0 < currentLength ->
     currentLength
       <= MainJs.Constraint.restLength c * MainJs.effectiveTearThreshold prm a b ->
     (w1 + w2 = 0 -> MainJs.visit prm c ps = (c, ps)) /\
     (w1 + w2 <> 0 ->
      MainJs.visit prm c ps
      = (c, <[MainJs.Constraint.p2 c :=
                MainJs.Particle.set_position b
                  (THREE.addScaledVector (MainJs.Particle.position b) diff
                     (- (w2 / (w1 + w2) * k)))]>
              (<[MainJs.Constraint.p1 c :=
                   MainJs.Particle.set_position a
                     (THREE.addScaledVector (MainJs.Particle.position a) diff
                        (w1 / (w1 + w2) * k))]> ps)))) /\
  (forall (prm : MainJs.Params) (c : MainJs.Constraint.t)
          (ps : list MainJs.Particle.t) (a b : MainJs.Particle.t),
     ps !! MainJs.Constraint.p1 c = Some a ->
     ps !! MainJs.Constraint.p2 c = Some b ->
     THREE.length (THREE.sub (MainJs.Particle.position b)
                     (MainJs.Particle.position a)) = 0 ->
     MainJs.visit prm c ps = (c, ps)).
Proof.
  split; [exact ClothJsFacts.satisfyPair_contract|].
  split; [exact ClothJsFacts.satisfy_other|].
  split; [|exact MainJsFacts.physics_visit_zero_length].
  intros prm c ps a b Hc Ha Hb Haa Hba diff cur k w1 w2 Hpos Hle.
  rewrite (MainJsFacts.physics_visit_corrects prm c ps a b Hc Ha Hb Haa Hba Hpos Hle).
  destruct (MainJsFacts.physics_correct_shares c a b) as [H0 H1].
  { fold diff. fold cur. lra. }
  split.
  - intros Hw. rewrite (H0 Hw). simpl.
    rewrite (list_insert_id ps _ a Ha). now rewrite list_insert_id.
  - intros Hw. now rewrite (H1 Hw).
Qed.

Lemma satisfy_contract_witness :
  ClothJs.Particle.position
    (ClothJs.Constraint.satisfyPair ClothJsFacts.wholeC ClothJsFacts.sampleA
       ClothJsFacts.sampleB).1
    = THREE.Vec3 0.125 0 0 /\
  ClothJs.Particle.position
    (ClothJs.Constraint.satisfyPair ClothJsFacts.wholeC ClothJsFacts.sampleA
       ClothJsFacts.sampleB).2
    = THREE.Vec3 1.875 0 0.
Proof.
  destruct satisfy_contract as (H & _).
  destruct (H ClothJsFacts.wholeC ClothJsFacts.sampleA ClothJsFacts.sampleB)
    as (_ & _ & _ & H4).
  destruct H4 as (Hr & _).
  - reflexivity.
  - rewrite ClothJsFacts.sample_length. lra.
  - unfold ClothJsFacts.effInv. simpl. lra.
  - rewrite Hr. rewrite ClothJsFacts.sample_length.
    unfold ClothJsFacts.effInv, ClothJs.Constraint.underRelaxation. simpl.
    split; vec_eq.
Defined.
